(** * CentralBodySurface: terrain/imagery surface engine

    A shallow embedding of [Source/Scene/CentralBodySurface.js]: the
    layer-change handlers, [destroy], the screen-space error, the
    breadth-first tile selection, the tile load pump and the assembly of
    render commands, with the properties the surface specification states
    about them.

    JavaScript objects that are mutated through shared references (tiles,
    imagery) live in stores indexed by identifiers; arrays are lists; an
    [undefined] reference is [None]; an exception is an explicit outcome. *)

From Stdlib Require Import Reals Lra ZArith QArith Lia Bool.
From stdpp Require Import base option functions list strings gmap sorting.

Close Scope Q_scope.

(** ** Shared data model *)

(** [TileState.js] as used by the surface. *)
Inductive TileState :=
| TS_UNLOADED | TS_TRANSITIONING | TS_RECEIVED | TS_TRANSFORMED | TS_READY | TS_FAILED.

(** [ImageryState.js] as used by the surface. *)
Inductive ImageryState :=
| PLACEHOLDER | UNLOADED | TRANSITIONING | RECEIVED | TEXTURE_LOADED
| READY | FAILED | INVALID.

#[global] Instance TileState_eq_dec : EqDecision TileState.
Proof. solve_decision. Defined.

#[global] Instance ImageryState_eq_dec : EqDecision ImageryState.
Proof. solve_decision. Defined.

(** Identity of an imagery layer, of an [Imagery] object and of an opaque
    renderer object (texture, vertex array, vector of uniforms). *)
Definition LayerId := nat.
Definition ImageryId := nat.
Definition Handle := nat.

(** A terrain tile is identified by [(level, x, y)]. *)
Record TileId := mkTileId { level : nat; x : nat; y : nat }.

#[global] Instance TileId_eq_dec : EqDecision TileId.
Proof. solve_decision. Defined.

(** An [Imagery] object of a layer's pyramid.  Only the fields the surface
    reads or writes are kept. *)
Record Imagery := mkImagery {
  imageryLayer : LayerId;
  imagery_level : nat;
  imagery_state : ImageryState;
  imagery_parent : option ImageryId;
  referenceCount : Z;
  texture : Handle
}.

(** A [TileImagery]: the binding of one imagery to one terrain tile. *)
Record TileImagery := mkTileImagery {
  imagery : ImageryId;
  originalImagery : option ImageryId;
  textureCoordinateExtent : Handle;
  textureTranslationAndScale : option Handle
}.

#[global] Instance TileImagery_eq_dec : EqDecision TileImagery.
Proof. solve_decision. Defined.

(** The mutable part of a [Tile] object. *)
Record Tile := mkTile {
  tile_state : TileState;
  tile_imagery : list TileImagery;
  renderable : bool;
  doneLoading : bool;
  vertexArray : Handle
}.

(** A tile as [getChildren] creates it. *)
Definition newTile : Tile :=
  {| tile_state := TS_UNLOADED; tile_imagery := []; renderable := false;
     doneLoading := false; vertexArray := 0 |}.

(** Stores of the objects reached through references. *)
Definition TileStore := TileId -> Tile.
Definition ImageryStore := ImageryId -> Imagery.

Definition isFailedOrInvalid (s : ImageryState) : bool :=
  bool_decide (s = FAILED) || bool_decide (s = INVALID).

(** How a call ends: it returns a value, throws, or never returns. *)
Inductive Error := DeveloperError | TypeError.

Inductive Outcome (A : Type) :=
| Returned (v : A)
| Threw (e : Error)
| Diverges.
Arguments Returned {A} v.
Arguments Threw {A} e.
Arguments Diverges {A}.

(** ** JavaScript arrays *)

Module JsArray.

(** [Array.prototype.splice(start, deleteCount, ...items)]: the removed
    elements and the array afterwards.  A negative [start] counts from the
    end; both arguments are clamped to the array. *)
Definition splice {A} (start deleteCount : Z) (items arr : list A)
  : list A * list A :=
  let len := Z.of_nat (length arr) in
  let actualStart :=
    if (start <? 0)%Z then Z.max (len + start) 0 else Z.min start len in
  let actualDeleteCount := Z.min (Z.max deleteCount 0) (len - actualStart) in
  let s := Z.to_nat actualStart in
  let d := Z.to_nat actualDeleteCount in
  (take d (drop s arr), take s arr ++ items ++ drop (s + d) arr).

(** [arr.length = n]: truncation, or extension with holes. *)
Definition setLength {A} (n : nat) (arr : list (option A)) : list (option A) :=
  take n arr ++ replicate (n - length arr) None.

(** [arr[i] = v] on an array that may have holes; [v] may be [undefined]. *)
Definition store {A} (i : nat) (v : option A) (arr : list (option A))
  : list (option A) :=
  if decide (i < length arr) then <[i := v]> arr
  else arr ++ replicate (i - length arr) None ++ [v].

(** [arr[i]]: [None] for a hole and out of range. *)
Definition get {A} (i : nat) (arr : list (option A)) : option A :=
  mjoin (arr !! i).

End JsArray.

(** ** Layer-change handlers: moving a layer *)

Module Layers.

Record MoveScan := mkMoveScan {
  oldTileImageryIndex : Z;
  newTileImageryIndex : Z;
  numTileImagery : Z
}.

(** The [for] loop of [moveTileImageryObjects], from index [i] over the
    entries [coll] that remain; the third branch is the [break]. *)
Fixpoint scanTileImagery (imageries : ImageryStore) (layer : LayerId)
    (newNextLayer : option LayerId) (i : Z) (coll : list TileImagery)
    (acc : MoveScan) : MoveScan :=
  match coll with
  | [] => acc
  | tileImagery :: rest =>
      let tileImageryLayer := imageryLayer (imageries (imagery tileImagery)) in
      if bool_decide (newTileImageryIndex acc = (-1)%Z)
         && bool_decide (Some tileImageryLayer = newNextLayer)
      then scanTileImagery imageries layer newNextLayer (i + 1) rest
             {| oldTileImageryIndex := oldTileImageryIndex acc;
                newTileImageryIndex := i;
                numTileImagery := numTileImagery acc |}
      else if bool_decide (tileImageryLayer = layer)
      then scanTileImagery imageries layer newNextLayer (i + 1) rest
             {| oldTileImageryIndex :=
                  if bool_decide (oldTileImageryIndex acc = (-1)%Z) then i
                  else oldTileImageryIndex acc;
                newTileImageryIndex := newTileImageryIndex acc;
                numTileImagery := (numTileImagery acc + 1)%Z |}
      else if negb (bool_decide (newTileImageryIndex acc = (-1)%Z))
              && negb (bool_decide (oldTileImageryIndex acc = (-1)%Z))
      then acc
      else scanTileImagery imageries layer newNextLayer (i + 1) rest acc
  end.

(** [moveTileImageryObjects(tileImageryCollection, layer, newNextLayer)]:
    the collection afterwards. *)
Definition moveTileImageryObjects (imageries : ImageryStore)
    (tileImageryCollection : list TileImagery) (layer : LayerId)
    (newNextLayer : option LayerId) : list TileImagery :=
  let scan :=
    scanTileImagery imageries layer newNextLayer 0 tileImageryCollection
      {| oldTileImageryIndex := -1; newTileImageryIndex := -1;
         numTileImagery := 0 |} in
  let '(tileImageryObjects, spliced) :=
    JsArray.splice (oldTileImageryIndex scan) (numTileImagery scan) []
      tileImageryCollection in
  let newIndex :=
    if bool_decide (newTileImageryIndex scan = (-1)%Z)
    then Z.of_nat (length spliced) else newTileImageryIndex scan in
  snd (JsArray.splice newIndex 0 tileImageryObjects spliced).

(** What [_onLayerMoved] reads of the surface. *)
Record MoveContext := mkMoveContext {
  _levelZeroTiles : option (list TileId);
  _imageryLayerCollection : list LayerId;
  _tileReplacementQueue : list TileId;
  tiles : TileStore;
  imageries : ImageryStore
}.

(** The [while] loop of [_onLayerMoved] over the replacement queue, from its
    head along [replacementNext]. *)
Fixpoint moveOnTiles (imgs : ImageryStore) (layer : LayerId)
    (newNextLayer : option LayerId) (queue : list TileId) (ts : TileStore)
  : TileStore :=
  match queue with
  | [] => ts
  | tile :: rest =>
      let t := ts tile in
      let moved :=
        moveTileImageryObjects imgs (tile_imagery t) layer newNextLayer in
      moveOnTiles imgs layer newNextLayer rest
        (<[tile :=
             {| tile_state := tile_state t; tile_imagery := moved;
                renderable := renderable t; doneLoading := doneLoading t;
                vertexArray := vertexArray t |}]> ts)
  end.

(** [CentralBodySurface.prototype._onLayerMoved(layer, newIndex, oldIndex)];
    [imageryLayerCollection.get(i)] is the element at [i], [undefined] out of
    range. *)
Definition _onLayerMoved (s : MoveContext) (layer : LayerId)
    (newIndex oldIndex : nat) : TileStore :=
  match _levelZeroTiles s with
  | None => tiles s
  | Some _ =>
      let newNextLayer := _imageryLayerCollection s !! (newIndex + 1) in
      moveOnTiles (imageries s) layer newNextLayer (_tileReplacementQueue s)
        (tiles s)
  end.

(** A surface with two layers, [0] below [1], and one resident tile whose
    stack holds one imagery of each layer, in the order of the layers. *)
Definition twoLayerImagery : ImageryStore :=
  fun i =>
    {| imageryLayer := i; imagery_level := 0; imagery_state := READY;
       imagery_parent := None; referenceCount := 1; texture := i |}.

Definition entryOf (i : ImageryId) : TileImagery :=
  {| imagery := i; originalImagery := None; textureCoordinateExtent := 0;
     textureTranslationAndScale := Some 0 |}.

Definition rootTile : TileId := {| level := 0; x := 0; y := 0 |}.

Definition twoLayerSurface : MoveContext :=
  {| _levelZeroTiles := Some [rootTile];
     _imageryLayerCollection := [0; 1];
     _tileReplacementQueue := [rootTile];
     tiles := fun _ =>
       {| tile_state := TS_READY; tile_imagery := [entryOf 0; entryOf 1];
          renderable := true; doneLoading := true; vertexArray := 0 |};
     imageries := twoLayerImagery |}.

End Layers.

(** ** [destroy] *)

Module Destroy.

Local Open Scope string_scope.

(** The values held by the properties of a surface object. *)
Inductive JsValue :=
| Undefined
| Number (n : Z)
| TerrainProviderRef
| ImageryLayerCollectionRef
| TileArray (elements : list TileId)
| EmptyArray
| QueueRef
| OccluderRef
| DebugObject (boundingSphereVA : option Handle).

(** The [description] argument of the constructor. *)
Record Description := mkDescription {
  terrainProvider : option unit;
  imageryLayerCollection : option unit;
  maxScreenSpaceError : option Z
}.

(** The constructor: the own properties of the new object, by name.
    [levelZero] is what [terrainTilingScheme.createLevelZeroTiles()]
    returns. *)
Definition CentralBodySurface (description : Description)
    (levelZero : list TileId) : Outcome (gmap string JsValue) :=
  match terrainProvider description, imageryLayerCollection description with
  | None, _ => Threw DeveloperError
  | _, None => Threw DeveloperError
  | Some _, Some _ =>
      Returned
        (<["_terrainProvider" := TerrainProviderRef]>
        (<["_imageryLayerCollection" := ImageryLayerCollectionRef]>
        (<["_maxScreenSpaceError" :=
             Number (default 2%Z (maxScreenSpaceError description))]>
        (<["_levelZeroTiles" := TileArray levelZero]>
        (<["_tilesToRenderByTextureCount" := EmptyArray]>
        (<["_tileCommands" := EmptyArray]>
        (<["_tileCommandUniformMaps" := EmptyArray]>
        (<["_tileTraversalQueue" := QueueRef]>
        (<["_tileLoadQueue" := QueueRef]>
        (<["_tileReplacementQueue" := QueueRef]>
        (<["_ellipsoidalOccluder" := OccluderRef]>
        (<["_debug" := DebugObject None]> ∅))))))))))))
  end.

(** Reading a property: [undefined] when the object has none of that name
    (the prototype holds the methods only). *)
Definition getProperty (this : gmap string JsValue) (name : string) : JsValue :=
  default Undefined (this !! name).

(** What [destroy] does to other objects, in order. *)
Inductive Effect :=
| TileDestroyed (t : TileId)
| TerrainProviderDestroyed
| ImageryLayerCollectionDestroyed
| VertexArrayDestroyed (va : Handle)
| ObjectDestroyed.

(** [CentralBodySurface.prototype.destroy]: the effects up to the return or
    the throw.  Reading [.length] of [undefined] and calling a method of
    [undefined] throw a [TypeError]; [.length] of an object that is no array
    is [undefined], and the loop body never runs. *)
Definition destroy (this : gmap string JsValue)
    : list Effect * Outcome JsValue :=
  let levelZeroTiles := getProperty this "levelZeroTiles" in
  match levelZeroTiles with
  | Undefined => ([], Threw TypeError)
  | _ =>
      let destroyed :=
        match levelZeroTiles with
        | TileArray elements => TileDestroyed <$> elements
        | _ => []
        end in
      match getProperty this "_terrainProvider" with
      | Undefined => (destroyed, Threw TypeError)
      | _ =>
          match getProperty this "_imageryLayerCollection" with
          | Undefined =>
              ((destroyed ++ [TerrainProviderDestroyed])%list, Threw TypeError)
          | _ =>
              let collaborators :=
                [TerrainProviderDestroyed; ImageryLayerCollectionDestroyed] in
              let debugEffects :=
                match getProperty this "_debug" with
                | DebugObject (Some va) => [VertexArrayDestroyed va]
                | _ => []
                end in
              ((destroyed ++ collaborators ++ debugEffects ++ [ObjectDestroyed])%list,
               Returned Undefined)
          end
      end
  end.

End Destroy.

(** ** Screen-space error *)

Module ScreenSpaceError.

Local Open Scope R_scope.

(** [SceneMode.js]. *)
Inductive SceneMode := SCENE2D | COLUMBUS_VIEW | SCENE3D | MORPHING.

#[global] Instance SceneMode_eq_dec : EqDecision SceneMode.
Proof. solve_decision. Defined.

(** JavaScript numbers are read as real numbers. *)
Record Cartesian3 := mkCartesian3 { c3x : R; c3y : R; c3z : R }.

Record Cartographic := mkCartographic {
  longitude : R; latitude : R; height : R
}.

Record Extent := mkExtent { west : R; south : R; east : R; north : R }.

Definition getSouthwest (e : Extent) : Cartographic :=
  {| longitude := west e; latitude := south e; height := 0 |}.

Definition getNortheast (e : Extent) : Cartographic :=
  {| longitude := east e; latitude := north e; height := 0 |}.

Definition subtract (a b : Cartesian3) : Cartesian3 :=
  {| c3x := c3x a - c3x b; c3y := c3y a - c3y b; c3z := c3z a - c3z b |}.

Definition dot (a b : Cartesian3) : R :=
  c3x a * c3x b + c3y a * c3y b + c3z a * c3z b.

Definition negate (a : Cartesian3) : Cartesian3 :=
  {| c3x := - c3x a; c3y := - c3y a; c3z := - c3z a |}.

Definition UNIT_Y : Cartesian3 := {| c3x := 0; c3y := 1; c3z := 0 |}.
Definition UNIT_Z : Cartesian3 := {| c3x := 0; c3y := 0; c3z := 1 |}.
Definition negativeUnitY : Cartesian3 := negate UNIT_Y.
Definition negativeUnitZ : Cartesian3 := negate UNIT_Z.

(** The fields of a tile that the error metric reads, and [distance], which
    it writes. *)
Record TileGeometry := mkTileGeometry {
  tile_level : nat;
  extent : Extent;
  southwestCornerCartesian : Cartesian3;
  northeastCornerCartesian : Cartesian3;
  westNormal : Cartesian3;
  southNormal : Cartesian3;
  eastNormal : Cartesian3;
  northNormal : Cartesian3;
  maxHeight : R;
  distance : R
}.

Record Frustum := mkFrustum {
  fovy : R; top : R; bottom : R; right : R; left : R
}.

(** [frameState] with [frameState.camera.frustum] and
    [frameState.scene2D.projection.project]; [context.getCanvas()]. *)
Record FrameState := mkFrameState {
  mode : SceneMode;
  frustum : Frustum;
  project : Cartographic -> Cartesian3
}.

Record Canvas := mkCanvas { clientWidth : R; clientHeight : R }.

(** [projection.project(...)] followed by the three assignments that turn
    the projected point into the [(0, x, y)] of the 2D world. *)
Definition projectedCorner (frameState : FrameState) (c : Cartographic)
  : Cartesian3 :=
  let p := project frameState c in
  {| c3x := 0; c3y := c3x p; c3z := c3y p |}.

Definition distanceSquaredToTile (frameState : FrameState)
    (cameraCartesianPosition : Cartesian3)
    (cameraCartographicPosition : Cartographic) (tile : TileGeometry) : R :=
  let is3D := bool_decide (mode frameState = SCENE3D) in
  let southwestCorner :=
    if is3D then southwestCornerCartesian tile
    else projectedCorner frameState (getSouthwest (extent tile)) in
  let northeastCorner :=
    if is3D then northeastCornerCartesian tile
    else projectedCorner frameState (getNortheast (extent tile)) in
  let westN := if is3D then westNormal tile else negativeUnitY in
  let eastN := if is3D then eastNormal tile else UNIT_Y in
  let southN := if is3D then southNormal tile else negativeUnitZ in
  let northN := if is3D then northNormal tile else UNIT_Z in
  let maxH := if is3D then maxHeight tile else 0 in
  let vectorFromSouthwestCorner :=
    subtract cameraCartesianPosition southwestCorner in
  let distanceToWestPlane := dot vectorFromSouthwestCorner westN in
  let distanceToSouthPlane := dot vectorFromSouthwestCorner southN in
  let vectorFromNortheastCorner :=
    subtract cameraCartesianPosition northeastCorner in
  let distanceToEastPlane := dot vectorFromNortheastCorner eastN in
  let distanceToNorthPlane := dot vectorFromNortheastCorner northN in
  let cameraHeight :=
    if is3D then height cameraCartographicPosition
    else c3x cameraCartesianPosition in
  let distanceFromTop := cameraHeight - maxH in
  let result := 0 in
  let result :=
    if Rgt_dec distanceToWestPlane 0
    then result + distanceToWestPlane * distanceToWestPlane
    else if Rgt_dec distanceToEastPlane 0
    then result + distanceToEastPlane * distanceToEastPlane
    else result in
  let result :=
    if Rgt_dec distanceToSouthPlane 0
    then result + distanceToSouthPlane * distanceToSouthPlane
    else if Rgt_dec distanceToNorthPlane 0
    then result + distanceToNorthPlane * distanceToNorthPlane
    else result in
  if Rgt_dec distanceFromTop 0
  then result + distanceFromTop * distanceFromTop
  else result.

(** The latitude of the extent that is closest to the equator, as the 3D
    branch of [screenSpaceError] computes it. *)
Definition latitudeClosestToEquator (e : Extent) : R :=
  if Rgt_dec (south e) 0 then south e
  else if Rlt_dec (north e) 0 then north e
  else 0.

Definition screenSpaceError2D (getLevelMaximumGeometricError : nat -> R)
    (canvas : Canvas) (frameState : FrameState) (tile : TileGeometry) : R :=
  let f := frustum frameState in
  let maxGeometricError := getLevelMaximumGeometricError (tile_level tile) in
  let pixelSize :=
    Rmax (top f - bottom f) (right f - left f)
    / Rmax (clientWidth canvas) (clientHeight canvas) in
  maxGeometricError / pixelSize.

Definition setDistance (tile : TileGeometry) (d : R) : TileGeometry :=
  {| tile_level := tile_level tile; extent := extent tile;
     southwestCornerCartesian := southwestCornerCartesian tile;
     northeastCornerCartesian := northeastCornerCartesian tile;
     westNormal := westNormal tile; southNormal := southNormal tile;
     eastNormal := eastNormal tile; northNormal := northNormal tile;
     maxHeight := maxHeight tile; distance := d |}.

(** [screenSpaceError]: the value returned and the tile afterwards. *)
Definition screenSpaceError (getLevelMaximumGeometricError : nat -> R)
    (canvas : Canvas) (frameState : FrameState) (cameraPosition : Cartesian3)
    (cameraPositionCartographic : Cartographic) (tile : TileGeometry)
  : R * TileGeometry :=
  if bool_decide (mode frameState = SCENE2D)
  then (screenSpaceError2D getLevelMaximumGeometricError canvas frameState tile,
        tile)
  else
    let latitudeFactor :=
      if bool_decide (mode frameState = SCENE3D)
      then cos (latitudeClosestToEquator (extent tile))
      else 1 in
    let maxGeometricError :=
      latitudeFactor * getLevelMaximumGeometricError (tile_level tile) in
    let dist :=
      sqrt (distanceSquaredToTile frameState cameraPosition
              cameraPositionCartographic tile) in
    ((maxGeometricError * clientHeight canvas)
       / (2 * dist * tan (0.5 * fovy (frustum frameState))),
     setDistance tile dist).

(** The formula as the specification words it, with the cosine of the
    closest latitude in every mode it covers. *)
Definition specScreenSpaceError (getLevelMaximumGeometricError : nat -> R)
    (canvas : Canvas) (frameState : FrameState) (cameraPosition : Cartesian3)
    (cameraPositionCartographic : Cartographic) (tile : TileGeometry) : R :=
  let maxGeometricError :=
    cos (latitudeClosestToEquator (extent tile))
    * getLevelMaximumGeometricError (tile_level tile) in
  let dist :=
    sqrt (distanceSquaredToTile frameState cameraPosition
            cameraPositionCartographic tile) in
  (maxGeometricError * clientHeight canvas)
    / (2 * dist * tan (fovy (frustum frameState) / 2)).

(** A tile of the northern hemisphere seen in Columbus View from one unit
    above its middle, through a frustum of a right angle. *)
Definition northernTile : TileGeometry :=
  {| tile_level := 0;
     extent := {| west := 0; south := PI / 3; east := 1; north := PI / 2 |};
     southwestCornerCartesian := {| c3x := 0; c3y := 0; c3z := 0 |};
     northeastCornerCartesian := {| c3x := 0; c3y := 0; c3z := 0 |};
     westNormal := negativeUnitY; southNormal := negativeUnitZ;
     eastNormal := UNIT_Y; northNormal := UNIT_Z;
     maxHeight := 0; distance := 0 |}.

Definition columbusFrame : FrameState :=
  {| mode := COLUMBUS_VIEW;
     frustum := {| fovy := PI / 2; top := 1; bottom := -1; right := 1;
                   left := -1 |};
     project := fun c =>
       {| c3x := longitude c; c3y := latitude c; c3z := 0 |} |}.

Definition columbusCamera : Cartesian3 :=
  {| c3x := 1; c3y := 1 / 2; c3z := 5 * PI / 12 |}.

Definition columbusCameraCartographic : Cartographic :=
  {| longitude := 1 / 2; latitude := 5 * PI / 12; height := 1 |}.

Definition unitCanvas : Canvas := {| clientWidth := 2; clientHeight := 2 |}.

End ScreenSpaceError.

(** ** Assembly of the render commands *)

Module Commands.

Definition CommandId := nat.
Definition UniformMapId := nat.

(** The fields of a tile uniform map that the assembler fills per batch.
    The Mercator and matrix fields are plain numbers overwritten on every
    use and are left out; [centralBodyUniformMap], which is merged into the
    map, holds none of the fields below. *)
Record UniformMap := mkUniformMap {
  center3D : option Handle;
  dayTextures : list (option Handle);
  dayTextureTranslationAndScale : list (option Handle);
  dayTextureTexCoordsExtent : list (option Handle);
  dayTextureAlpha : list (option Handle)
}.

(** [createTileUniformMap()]. *)
Definition createTileUniformMap : UniformMap :=
  {| center3D := None; dayTextures := [];
     dayTextureTranslationAndScale := []; dayTextureTexCoordsExtent := [];
     dayTextureAlpha := [] |}.

Record Command := mkCommand {
  shaderProgram : option Handle;
  command_vertexArray : option Handle;
  uniformMap : option UniformMapId
}.

(** [new Command()]. *)
Definition newCommand : Command :=
  {| shaderProgram := None; command_vertexArray := None; uniformMap := None |}.

(** The objects the assembler mutates: the two pools of the surface, the
    command and uniform map objects they refer to, and the caller's
    [colorCommandList]. *)
Record Renderer := mkRenderer {
  commands : CommandId -> Command;
  nextCommand : CommandId;
  uniformMaps : UniformMapId -> UniformMap;
  nextUniformMap : UniformMapId;
  _tileCommands : list (option CommandId);
  _tileCommandUniformMaps : list (option UniformMapId);
  colorCommandList : list CommandId
}.

Definition isReady (imageries : ImageryStore) (tileImagery : TileImagery) : bool :=
  bool_decide (imagery_state (imageries (imagery tileImagery)) = READY).

Section Assembler.

(** [context.getMaximumTextureImageUnits()], the tile and imagery objects,
    [tile.center], [imageryLayer.alpha], [shaderSet.getShaderProgram] and
    the effect of [tileSet.sort(tileDistanceSortFunction)]. *)
Variable maxTextures : nat.
Variable tiles : TileStore.
Variable imageries : ImageryStore.
Variable center : TileId -> Handle.
Variable alpha : LayerId -> Handle.
Variable getShaderProgram : nat -> Handle.
Variable sortByDistance : list TileId -> list TileId.

(** The inner [while] loop over the entries [rest] from [imageryIndex] on:
    the number of textures packed, the entries left, the map. *)
Fixpoint packDayTextures (numberOfDayTextures : nat) (rest : list TileImagery)
    (um : UniformMap) : nat * list TileImagery * UniformMap :=
  match rest with
  | [] => (numberOfDayTextures, [], um)
  | tileImagery :: rest' =>
      if decide (numberOfDayTextures < maxTextures) then
        let img := imageries (imagery tileImagery) in
        if decide (imagery_state img = READY) then
          packDayTextures (S numberOfDayTextures) rest'
            {| center3D := center3D um;
               dayTextures :=
                 JsArray.store numberOfDayTextures (Some (texture img))
                   (dayTextures um);
               dayTextureTranslationAndScale :=
                 JsArray.store numberOfDayTextures
                   (textureTranslationAndScale tileImagery)
                   (dayTextureTranslationAndScale um);
               dayTextureTexCoordsExtent :=
                 JsArray.store numberOfDayTextures
                   (Some (textureCoordinateExtent tileImagery))
                   (dayTextureTexCoordsExtent um);
               dayTextureAlpha :=
                 JsArray.store numberOfDayTextures
                   (Some (alpha (imageryLayer img))) (dayTextureAlpha um) |}
        else packDayTextures numberOfDayTextures rest' um
      else (numberOfDayTextures, rest, um)
  end.

(** [tileCommands[tileCommandIndex]], created together with a uniform map
    when the pool has none at that index. *)
Definition acquireCommand (idx : nat) (r : Renderer) : CommandId * Renderer :=
  match JsArray.get idx (_tileCommands r) with
  | Some command => (command, r)
  | None =>
      let command := nextCommand r in
      let um := nextUniformMap r in
      (command,
       {| commands := <[command := newCommand]> (commands r);
          nextCommand := S command;
          uniformMaps := <[um := createTileUniformMap]> (uniformMaps r);
          nextUniformMap := S um;
          _tileCommands := JsArray.store idx (Some command) (_tileCommands r);
          _tileCommandUniformMaps :=
            JsArray.store idx (Some um) (_tileCommandUniformMaps r);
          colorCommandList := colorCommandList r |})
  end.

(** One pass through the body of the [do ... while]: the command index, the
    entries left and the renderer afterwards. *)
Definition emitBatch (shader : Handle) (tile : TileId)
    (rest : list TileImagery) (tileCommandIndex : Z) (r : Renderer)
  : Outcome (Z * list TileImagery * Renderer) :=
  let tileCommandIndex := (tileCommandIndex + 1)%Z in
  let idx := Z.to_nat tileCommandIndex in
  let '(command, r) := acquireCommand idx r in
  match JsArray.get idx (_tileCommandUniformMaps r) with
  | None => Threw TypeError
  | Some um =>
      let m := uniformMaps r um in
      let m :=
        {| center3D := Some (center tile); dayTextures := dayTextures m;
           dayTextureTranslationAndScale := dayTextureTranslationAndScale m;
           dayTextureTexCoordsExtent := dayTextureTexCoordsExtent m;
           dayTextureAlpha := dayTextureAlpha m |} in
      let '(numberOfDayTextures, rest, m) := packDayTextures 0 rest m in
      let m :=
        {| center3D := center3D m;
           dayTextures := JsArray.setLength numberOfDayTextures (dayTextures m);
           dayTextureTranslationAndScale := dayTextureTranslationAndScale m;
           dayTextureTexCoordsExtent := dayTextureTexCoordsExtent m;
           dayTextureAlpha := dayTextureAlpha m |} in
      Returned
        (tileCommandIndex, rest,
         {| commands :=
              <[command :=
                  {| shaderProgram := Some shader;
                     command_vertexArray := Some (vertexArray (tiles tile));
                     uniformMap := Some um |}]> (commands r);
            nextCommand := nextCommand r;
            uniformMaps := <[um := m]> (uniformMaps r);
            nextUniformMap := nextUniformMap r;
            _tileCommands := _tileCommands r;
            _tileCommandUniformMaps := _tileCommandUniformMaps r;
            colorCommandList := colorCommandList r ++ [command] |})
  end.

(** The [do ... while (imageryIndex < imageryLen)] loop.  With
    [maxTextures = 0] and entries left it makes no progress; the fuel, one
    more than the number of entries, then runs out. *)
Fixpoint batchLoop (fuel : nat) (shader : Handle) (tile : TileId)
    (rest : list TileImagery) (tileCommandIndex : Z) (r : Renderer)
  : Outcome (Z * Renderer) :=
  match fuel with
  | 0 => Diverges
  | S fuel =>
      match emitBatch shader tile rest tileCommandIndex r with
      | Returned (tileCommandIndex, [], r) => Returned (tileCommandIndex, r)
      | Returned (tileCommandIndex, rest, r) =>
          batchLoop fuel shader tile rest tileCommandIndex r
      | Threw e => Threw e
      | Diverges => Diverges
      end
  end.

(** The body of the loop over the tiles of one set. *)
Definition renderTile (shader : Handle) (tile : TileId) (tileCommandIndex : Z)
    (r : Renderer) : Outcome (Z * Renderer) :=
  let tileImageryCollection := tile_imagery (tiles tile) in
  batchLoop (S (length tileImageryCollection)) shader tile
    tileImageryCollection tileCommandIndex r.

Fixpoint renderTiles (shader : Handle) (tileSet : list TileId)
    (tileCommandIndex : Z) (r : Renderer) : Outcome (Z * Renderer) :=
  match tileSet with
  | [] => Returned (tileCommandIndex, r)
  | tile :: tileSet =>
      match renderTile shader tile tileCommandIndex r with
      | Returned (tileCommandIndex, r) =>
          renderTiles shader tileSet tileCommandIndex r
      | Threw e => Threw e
      | Diverges => Diverges
      end
  end.

(** The loop over [tilesToRenderByTextureCount], from [tileSetIndex]. *)
Fixpoint renderTileSets (tileSetIndex : nat)
    (tileSets : list (option (list TileId))) (tileCommandIndex : Z)
    (r : Renderer) : Outcome (Z * Renderer) :=
  match tileSets with
  | [] => Returned (tileCommandIndex, r)
  | tileSet :: tileSets =>
      match tileSet with
      | None | Some [] =>
          renderTileSets (S tileSetIndex) tileSets tileCommandIndex r
      | Some tileSet =>
          match renderTiles (getShaderProgram tileSetIndex)
                  (sortByDistance tileSet) tileCommandIndex r with
          | Returned (tileCommandIndex, r) =>
              renderTileSets (S tileSetIndex) tileSets tileCommandIndex r
          | Threw e => Threw e
          | Diverges => Diverges
          end
      end
  end.

Definition createRenderCommandsForSelectedTiles
    (tilesToRenderByTextureCount : list (option (list TileId)))
    (r : Renderer) : Outcome Renderer :=
  match renderTileSets 0 tilesToRenderByTextureCount (-1) r with
  | Returned (tileCommandIndex, r) =>
      Returned
        {| commands := commands r; nextCommand := nextCommand r;
           uniformMaps := uniformMaps r; nextUniformMap := nextUniformMap r;
           _tileCommands :=
             JsArray.setLength (Z.to_nat (Z.max 0 tileCommandIndex))
               (_tileCommands r);
           _tileCommandUniformMaps := _tileCommandUniformMaps r;
           colorCommandList := colorCommandList r |}
  | Threw e => Threw e
  | Diverges => Diverges
  end.

End Assembler.

(** The renderer of a new surface with an empty command list. *)
Definition emptyRenderer : Renderer :=
  {| commands := fun _ => newCommand; nextCommand := 0;
     uniformMaps := fun _ => createTileUniformMap; nextUniformMap := 0;
     _tileCommands := []; _tileCommandUniformMaps := [];
     colorCommandList := [] |}.

(** The number of READY entries of an imagery stack. *)
Definition readyCount (imageries : ImageryStore) (stack : list TileImagery)
  : nat :=
  length (filter (fun ti => isReady imageries ti = true) stack).

(** The textures of the READY entries of some entries, in order, as the
    elements of a [dayTextures] array. *)
Definition readyTextures (imageries : ImageryStore) (entries : list TileImagery)
  : list (option Handle) :=
  (fun ti => Some (texture (imageries (imagery ti))))
    <$> filter (fun ti => isReady imageries ti = true) entries.

(** [ceil (a / b)] on natural numbers. *)
Definition ceilDiv (a b : nat) : nat := (a + b - 1) / b.

(** The [dayTextures] array that a command refers to through its uniform
    map. *)
Definition dayTexturesOf (r : Renderer) (c : CommandId) : list (option Handle) :=
  match uniformMap (commands r c) with
  | Some um => dayTextures (uniformMaps r um)
  | None => []
  end.

(** The commands pushed onto [colorCommandList] between two states. *)
Definition emittedSince (before after : Renderer) : list CommandId :=
  drop (length (colorCommandList before)) (colorCommandList after).

(** The entries that one batch walks, from a batch that already holds
    [n] textures: the entries walked and the entries that remain. *)
Fixpoint takeBatch (imageries : ImageryStore) (maxTextures n : nat)
    (rest : list TileImagery) : list TileImagery * list TileImagery :=
  match rest with
  | [] => ([], [])
  | tileImagery :: rest' =>
      if decide (n < maxTextures) then
        let '(walked, remaining) :=
          takeBatch imageries maxTextures
            (if isReady imageries tileImagery then S n else n) rest' in
        (tileImagery :: walked, remaining)
      else ([], rest)
  end.

(** The runs of entries walked by the successive batches of one tile. *)
Fixpoint segments (imageries : ImageryStore) (maxTextures fuel : nat)
    (rest : list TileImagery) : list (list TileImagery) :=
  match fuel with
  | 0 => []
  | S fuel =>
      let '(walked, remaining) := takeBatch imageries maxTextures 0 rest in
      walked ::
        match remaining with
        | [] => []
        | _ => segments imageries maxTextures fuel remaining
        end
  end.

Definition lastIsReady (imageries : ImageryStore) (stack : list TileImagery)
  : bool :=
  match last stack with
  | Some tileImagery => isReady imageries tileImagery
  | None => false
  end.

(** The number of commands the batch loop emits for a stack: one when no
    entry is READY; otherwise one per started batch of [maxTextures] READY
    entries, and one more, without textures, when the last batch is full
    and entries follow the READY entry that filled it. *)
Definition commandCount (imageries : ImageryStore) (maxTextures : nat)
    (stack : list TileImagery) : nat :=
  let n := readyCount imageries stack in
  if decide (n = 0) then 1
  else ceilDiv n maxTextures
       + (if decide (n mod maxTextures = 0 /\ lastIsReady imageries stack = false)
          then 1 else 0).

(** The two pools hold the objects [cs] and [us], without holes; no object
    is pooled twice; every command of the pool has a uniform map. *)
Definition PoolsOf (r : Renderer) (cs : list CommandId) (us : list UniformMapId)
  : Prop :=
  _tileCommands r = Some <$> cs
  /\ _tileCommandUniformMaps r = Some <$> us
  /\ NoDup cs /\ NoDup us
  /\ Forall (fun c => c < nextCommand r) cs
  /\ Forall (fun u => u < nextUniformMap r) us
  /\ length cs <= length us.

Definition WellFormed (r : Renderer) : Prop := exists cs us, PoolsOf r cs us.

(** The state after [k] commands of the current call: they are the first
    [k] commands of the pool, and the [j]-th of them refers to the [j]-th
    uniform map, whose [dayTextures] are the READY textures of the run of
    entries [segs !! j]. *)
Definition Emitted (imageries : ImageryStore) (r0 r : Renderer) (k : nat)
    (segs : list (list TileImagery)) : Prop :=
  exists cs us,
    PoolsOf r cs us
    /\ k <= length cs
    /\ length segs = k
    /\ colorCommandList r = colorCommandList r0 ++ take k cs
    /\ forall j seg, segs !! j = Some seg ->
         exists c u, cs !! j = Some c /\ us !! j = Some u
           /\ uniformMap (commands r c) = Some u
           /\ dayTextures (uniformMaps r u) = readyTextures imageries seg.

(** The runs of entries walked for one tile. *)
Definition tileSegments (tiles : TileStore) (imageries : ImageryStore)
    (maxTextures : nat) (tile : TileId) : list (list TileImagery) :=
  let stack := tile_imagery (tiles tile) in
  segments imageries maxTextures (S (length stack)) stack.

(** The tiles in the order in which the assembler visits them. *)
Definition renderOrder (sortByDistance : list TileId -> list TileId)
    (tileSets : list (option (list TileId))) : list TileId :=
  tileSets ≫= fun tileSet =>
    match tileSet with
    | None | Some [] => []
    | Some tileSet => sortByDistance tileSet
    end.

(** The count the specification gives: [ceil (readyCount / maxTextures)],
    and at least one. *)
Definition specCommandCount (imageries : ImageryStore) (maxTextures : nat)
    (stack : list TileImagery) : nat :=
  Nat.max 1 (ceilDiv (readyCount imageries stack) maxTextures).

(** The number of commands that a part of the assembler pushed, when it
    returned. *)
Definition emittedCount (before : Renderer) (outcome : Outcome (Z * Renderer))
  : option nat :=
  match outcome with
  | Returned (_, after) => Some (length (emittedSince before after))
  | _ => None
  end.

(** Every command pushed since [r0] has the shader program and the vertex
    array of its owner, a shader program and a tile. *)
Definition Drawn (tiles : TileStore) (r0 r : Renderer)
    (owners : list (Handle * TileId)) : Prop :=
  exists news,
    colorCommandList r = colorCommandList r0 ++ news
    /\ Forall2
         (fun c owner =>
            shaderProgram (commands r c) = Some owner.1
            /\ command_vertexArray (commands r c)
               = Some (vertexArray (tiles owner.2)))
         news owners.

(** The shader program and the tile of every command of a call, in the
    order of emission: for each tile set that is neither undefined nor
    empty, from the index [tileSetIndex] on, the program of the index and
    each tile of the sorted set as often as the batch loop emits for its
    stack. *)
Fixpoint batchOwners (tiles : TileStore) (imageries : ImageryStore)
    (maxTextures : nat) (getShaderProgram : nat -> Handle)
    (sortByDistance : list TileId -> list TileId) (tileSetIndex : nat)
    (tileSets : list (option (list TileId))) : list (Handle * TileId) :=
  match tileSets with
  | [] => []
  | tileSet :: tileSets =>
      match tileSet with
      | None | Some [] => []
      | Some tileSet =>
          sortByDistance tileSet ≫= fun tile =>
            replicate
              (commandCount imageries maxTextures (tile_imagery (tiles tile)))
              (getShaderProgram tileSetIndex, tile)
      end
      ++ batchOwners tiles imageries maxTextures getShaderProgram
           sortByDistance (S tileSetIndex) tileSets
  end.

(** The four arrays of a uniform map hold at index [j] the texture, the
    translation and scale, the texture coordinate extent and the layer
    alpha of the entry [tileImagery]. *)
Definition FilledAt (imageries : ImageryStore) (alpha : LayerId -> Handle)
    (um : UniformMap) (j : nat) (tileImagery : TileImagery) : Prop :=
  let img := imageries (imagery tileImagery) in
  dayTextures um !! j = Some (Some (texture img))
  /\ dayTextureTranslationAndScale um !! j
     = Some (textureTranslationAndScale tileImagery)
  /\ dayTextureTexCoordsExtent um !! j
     = Some (Some (textureCoordinateExtent tileImagery))
  /\ dayTextureAlpha um !! j = Some (Some (alpha (imageryLayer img))).

(** Example stores: imagery [i] is READY unless [i] is at least [10], and
    has texture [100 + i]; every tile has the given stack. *)
Definition sampleImageries : ImageryStore :=
  fun i =>
    {| imageryLayer := i; imagery_level := 0;
       imagery_state := if decide (i < 10) then READY else TRANSITIONING;
       imagery_parent := None; referenceCount := 1; texture := 100 + i |}.

Definition sampleEntry (i : ImageryId) : TileImagery :=
  {| imagery := i; originalImagery := None; textureCoordinateExtent := 0;
     textureTranslationAndScale := Some 0 |}.

Definition sampleTiles (stack : list TileImagery) : TileStore :=
  fun _ =>
    {| tile_state := TS_READY; tile_imagery := stack; renderable := true;
       doneLoading := true; vertexArray := 7 |}.

End Commands.

(** ** The surface: selection of tiles and the load pump *)

Module Engine.

(** Modelled from the spec: [TileLoadQueue] (its file is not part of the
    sources).  A list of tiles from the head, and the insertion point that
    [markInsertionPoint] records. *)
Record TileLoadQueue := mkTileLoadQueue {
  loadItems : list TileId;
  insertionPoint : option TileId
}.

Definition emptyLoadQueue : TileLoadQueue :=
  {| loadItems := []; insertionPoint := None |}.

(** Modelled from the spec: [markInsertionPoint] records the current head
    as the insertion boundary. *)
Definition markInsertionPoint (q : TileLoadQueue) : TileLoadQueue :=
  {| loadItems := loadItems q; insertionPoint := head (loadItems q) |}.

Definition without (t : TileId) (l : list TileId) : list TileId :=
  filter (fun t' => t' <> t) l.

(** The part of a list before the first occurrence of [t], and the part
    from it on. *)
Fixpoint splitAt (t : TileId) (l : list TileId) : list TileId * list TileId :=
  match l with
  | [] => ([], [])
  | t' :: l' =>
      if decide (t' = t) then ([], l)
      else let '(before, from) := splitAt t l' in (t' :: before, from)
  end.

(** Modelled from the spec: [insertBeforeInsertionPoint] moves or inserts
    the tile immediately before the boundary, at the tail when there is no
    boundary. *)
Definition insertBeforeInsertionPoint (t : TileId) (q : TileLoadQueue)
  : TileLoadQueue :=
  match insertionPoint q with
  | Some p =>
      if decide (p = t) then q
      else
        let '(before, from) := splitAt p (without t (loadItems q)) in
        {| loadItems := before ++ t :: from; insertionPoint := Some p |}
  | None =>
      {| loadItems := without t (loadItems q) ++ [t]; insertionPoint := None |}
  end.

(** [tile.loadNext] for a tile of the queue. *)
Definition loadNext (t : TileId) (q : TileLoadQueue) : option TileId :=
  head (drop 1 (snd (splitAt t (loadItems q)))).

(** Modelled from the spec: [remove] unlinks the tile; an insertion point
    on it moves to its successor. *)
Definition remove (t : TileId) (q : TileLoadQueue) : TileLoadQueue :=
  {| loadItems := without t (loadItems q);
     insertionPoint :=
       if decide (insertionPoint q = Some t) then loadNext t q
       else insertionPoint q |}.

(** Modelled from the spec: [TileReplacementQueue] (its file is not part of
    the sources).  The resident tiles, most recently rendered first; the
    first [renderedThisFrame] of them were marked since
    [markStartOfRenderFrame]. *)
Record TileReplacementQueue := mkTileReplacementQueue {
  resident : list TileId;
  renderedThisFrame : nat
}.

Definition emptyReplacementQueue : TileReplacementQueue :=
  {| resident := []; renderedThisFrame := 0 |}.

Definition markStartOfRenderFrame (q : TileReplacementQueue)
  : TileReplacementQueue :=
  {| resident := resident q; renderedThisFrame := 0 |}.

(** Modelled from the spec: [markTileRendered] unlinks the tile, if linked,
    and pushes it to the head. *)
Definition markTileRendered (t : TileId) (q : TileReplacementQueue)
  : TileReplacementQueue :=
  {| resident := t :: without t (resident q);
     renderedThisFrame :=
       if decide (t ∈ take (renderedThisFrame q) (resident q))
       then renderedThisFrame q else S (renderedThisFrame q) |}.

(** Modelled from the spec: [trimTiles(keepCount)] evicts from the tail the
    tiles that were not rendered this frame, until [keepCount] are left: the
    tiles evicted and the queue afterwards. *)
Definition trimTiles (keepCount : nat) (q : TileReplacementQueue)
  : list TileId * TileReplacementQueue :=
  let keep := Nat.max keepCount (renderedThisFrame q) in
  (drop keep (resident q),
   {| resident := take keep (resident q);
      renderedThisFrame := renderedThisFrame q |}).

(** What the surface consults outside its own file: the terrain provider,
    the tile tree, the camera tests of the current frame, the imagery layers
    and their providers.  A request names the state in which the call leaves
    the tile or the imagery.  [screenSpaceError] is the value that
    [screenSpaceError(surface, ...)] computes for a tile in this frame, read
    as a rational, and [maxScreenSpaceError] the surface's threshold
    [_maxScreenSpaceError], which the frame does not assign. *)
Record Collaborators := mkCollaborators {
  maxLevel : nat;
  getChildren : TileId -> list TileId;
  screenSpaceError : TileId -> Q;
  maxScreenSpaceError : Q;
  isTileVisible : TileId -> bool;
  requestTileGeometry : TileId -> TileState;
  transformGeometry : TileId -> TileState;
  createResources : TileId -> TileState;
  isReady : LayerId -> bool;
  createTileImagerySkeletons : LayerId -> TileId -> list TileImagery;
  requestImagery : ImageryId -> ImageryState;
  createTexture : ImageryId -> ImageryState;
  reprojectTexture : ImageryId -> ImageryState;
  calculateTextureTranslationAndScale : TileId -> TileImagery -> Handle;
  removeClearsLoadNext : bool
}.

Record Surface := mkSurface {
  tiles : TileStore;
  imageries : ImageryStore;
  _imageryLayerCollection : list LayerId;
  _levelZeroTiles : option (list TileId);
  _tilesToRenderByTextureCount : list (option (list TileId));
  _tileTraversalQueue : list TileId;
  _tileLoadQueue : TileLoadQueue;
  _tileReplacementQueue : TileReplacementQueue;
  suspendLodUpdate : bool
}.

Definition setTiles (v : TileStore) (s : Surface) : Surface :=
  mkSurface v (imageries s) (_imageryLayerCollection s) (_levelZeroTiles s)
    (_tilesToRenderByTextureCount s) (_tileTraversalQueue s)
    (_tileLoadQueue s) (_tileReplacementQueue s) (suspendLodUpdate s).

Definition setImageries (v : ImageryStore) (s : Surface) : Surface :=
  mkSurface (tiles s) v (_imageryLayerCollection s) (_levelZeroTiles s)
    (_tilesToRenderByTextureCount s) (_tileTraversalQueue s)
    (_tileLoadQueue s) (_tileReplacementQueue s) (suspendLodUpdate s).

Definition setRenderLists (v : list (option (list TileId))) (s : Surface)
  : Surface :=
  mkSurface (tiles s) (imageries s) (_imageryLayerCollection s)
    (_levelZeroTiles s) v (_tileTraversalQueue s) (_tileLoadQueue s)
    (_tileReplacementQueue s) (suspendLodUpdate s).

Definition setTraversalQueue (v : list TileId) (s : Surface) : Surface :=
  mkSurface (tiles s) (imageries s) (_imageryLayerCollection s)
    (_levelZeroTiles s) (_tilesToRenderByTextureCount s) v (_tileLoadQueue s)
    (_tileReplacementQueue s) (suspendLodUpdate s).

Definition setLoadQueue (v : TileLoadQueue) (s : Surface) : Surface :=
  mkSurface (tiles s) (imageries s) (_imageryLayerCollection s)
    (_levelZeroTiles s) (_tilesToRenderByTextureCount s)
    (_tileTraversalQueue s) v (_tileReplacementQueue s) (suspendLodUpdate s).

Definition setReplacementQueue (v : TileReplacementQueue) (s : Surface)
  : Surface :=
  mkSurface (tiles s) (imageries s) (_imageryLayerCollection s)
    (_levelZeroTiles s) (_tilesToRenderByTextureCount s)
    (_tileTraversalQueue s) (_tileLoadQueue s) v (suspendLodUpdate s).

(** *** Selection *)

Definition queueTileLoad (tile : TileId) (s : Surface) : Surface :=
  setLoadQueue (insertBeforeInsertionPoint tile (_tileLoadQueue s)) s.

Definition readyTextureCount (s : Surface) (tile : TileId) : nat :=
  length
    (filter
       (fun ti => imagery_state (imageries s (imagery ti)) = READY)
       (tile_imagery (tiles s tile))).

(** [addTileToRenderList], without the debug counters. *)
Definition addTileToRenderList (tile : TileId) (s : Surface) : Surface :=
  let count := readyTextureCount s tile in
  let tileSet :=
    default [] (JsArray.get count (_tilesToRenderByTextureCount s)) in
  setRenderLists
    (JsArray.store count (Some (tileSet ++ [tile]))
       (_tilesToRenderByTextureCount s)) s.

(** The loop of [queueChildrenLoadAndDetermineIfChildrenAreAllRenderable]
    over the children that remain. *)
Fixpoint queueChildren (children : list TileId) (allRenderable : bool)
    (s : Surface) : bool * Surface :=
  match children with
  | [] => (allRenderable, s)
  | child :: children =>
      let s :=
        setReplacementQueue (markTileRendered child (_tileReplacementQueue s)) s in
      let s :=
        if doneLoading (tiles s child) then s else queueTileLoad child s in
      queueChildren children
        (if renderable (tiles s child) then allRenderable else false) s
  end.

Definition queueChildrenLoadAndDetermineIfChildrenAreAllRenderable
    (c : Collaborators) (tile : TileId) (s : Surface) : bool * Surface :=
  if decide (level tile = maxLevel c) then (false, s)
  else queueChildren (getChildren c tile) true s.

(** What the traversal did with a tile it dequeued. *)
Inductive Action := Rendered | Refined.

#[global] Instance Action_eq_dec : EqDecision Action.
Proof. solve_decision. Defined.

(** The body of the traversal loop for the tile just dequeued. *)
Definition visitTile (c : Collaborators) (tile : TileId) (s : Surface)
  : Action * Surface :=
  let s :=
    setReplacementQueue (markTileRendered tile (_tileReplacementQueue s)) s in
  if Qlt_le_dec (screenSpaceError c tile) (maxScreenSpaceError c)
  then (Rendered, addTileToRenderList tile s)
  else
    let '(allRenderable, s) :=
      queueChildrenLoadAndDetermineIfChildrenAreAllRenderable c tile s in
    if allRenderable then
      (Refined,
       setTraversalQueue
         (_tileTraversalQueue s
            ++ filter (fun child => isTileVisible c child = true)
                 (getChildren c tile)) s)
    else (Rendered, addTileToRenderList tile s).

(** The breadth-first loop.  It returns the surface and, in the order of the
    visits, what it did with each tile; without fuel for a tile still in the
    queue it has not returned. *)
Fixpoint traverse (c : Collaborators) (fuel : nat) (s : Surface)
    (visits : list (TileId * Action))
  : Outcome (Surface * list (TileId * Action)) :=
  match _tileTraversalQueue s with
  | [] => Returned (s, visits)
  | tile :: queue =>
      match fuel with
      | 0 => Diverges
      | S fuel =>
          let '(action, s) := visitTile c tile (setTraversalQueue queue s) in
          traverse c fuel s (visits ++ [(tile, action)])
      end
  end.

(** The loop over the level zero tiles. *)
Fixpoint enqueueRoots (c : Collaborators) (levelZeroTiles : list TileId)
    (s : Surface) : Surface :=
  match levelZeroTiles with
  | [] => s
  | tile :: levelZeroTiles =>
      let s := if doneLoading (tiles s tile) then s else queueTileLoad tile s in
      let s :=
        if renderable (tiles s tile) && isTileVisible c tile
        then setTraversalQueue (_tileTraversalQueue s ++ [tile]) s
        else s in
      enqueueRoots c levelZeroTiles s
  end.

Definition clearRenderLists (lists : list (option (list TileId)))
  : list (option (list TileId)) :=
  (fun tileSet => match tileSet with Some _ => Some [] | None => None end)
    <$> lists.

(** [selectTilesForRendering], without the debug counters. *)
Definition selectTilesForRendering (c : Collaborators) (fuel : nat)
    (s : Surface) : Outcome (Surface * list (TileId * Action)) :=
  if suspendLodUpdate s then Returned (s, [])
  else
    let s :=
      setRenderLists (clearRenderLists (_tilesToRenderByTextureCount s)) s in
    match _levelZeroTiles s with
    | None => Returned (s, [])
    | Some levelZeroTiles =>
        let s := setTraversalQueue [] s in
        let s := setLoadQueue (markInsertionPoint (_tileLoadQueue s)) s in
        let s :=
          setReplacementQueue
            (markStartOfRenderFrame (_tileReplacementQueue s)) s in
        traverse c fuel (enqueueRoots c levelZeroTiles s) []
    end.

(** *** The load pump *)

Definition setReferenceCount (n : Z) (img : Imagery) : Imagery :=
  mkImagery (imageryLayer img) (imagery_level img) (imagery_state img)
    (imagery_parent img) n (texture img).

Definition setState (st : ImageryState) (img : Imagery) : Imagery :=
  mkImagery (imageryLayer img) (imagery_level img) st (imagery_parent img)
    (referenceCount img) (texture img).

(** Modelled from the spec: [Imagery.addReference] and
    [Imagery.releaseReference] count the references. *)
Definition addReference (i : ImageryId) (s : Surface) : Surface :=
  setImageries
    (alter (fun img => setReferenceCount (referenceCount img + 1) img) i
       (imageries s)) s.

Definition releaseReference (i : ImageryId) (s : Surface) : Surface :=
  setImageries
    (alter (fun img => setReferenceCount (referenceCount img - 1) img) i
       (imageries s)) s.

(** [imagery.state = st]. *)
Definition setImageryState (i : ImageryId) (st : ImageryState) (s : Surface)
  : Surface :=
  setImageries (alter (setState st) i (imageries s)) s.

Definition withState (st : TileState) (t : Tile) : Tile :=
  mkTile st (tile_imagery t) (renderable t) (doneLoading t) (vertexArray t).

Definition withImagery (stack : list TileImagery) (t : Tile) : Tile :=
  mkTile (tile_state t) stack (renderable t) (doneLoading t) (vertexArray t).

(** [tile.renderable = true; tile.doneLoading = true]. *)
Definition withLoaded (t : Tile) : Tile :=
  mkTile (tile_state t) (tile_imagery t) true true (vertexArray t).

Definition updateTile (f : Tile -> Tile) (tile : TileId) (s : Surface) : Surface :=
  setTiles (alter f tile (tiles s)) s.

(** An assignment to a field of [tileImageryCollection[i]]. *)
Definition updateEntry (f : TileImagery -> TileImagery) (tile : TileId)
    (i : nat) (s : Surface) : Surface :=
  updateTile (fun t => withImagery (alter f i (tile_imagery t)) t) tile s.

(** Modelled from the spec: the eviction of a tile by [trimTiles] releases
    the references of its imagery, returns its terrain to [UNLOADED] and
    removes it from the load queue; it is neither loaded nor renderable
    any more. *)
Definition evict (tile : TileId) (s : Surface) : Surface :=
  let s :=
    foldr (fun ti s => releaseReference (imagery ti) s) s
      (tile_imagery (tiles s tile)) in
  let s := updateTile (fun _ => newTile) tile s in
  setLoadQueue (remove tile (_tileLoadQueue s)) s.

(** The loop that asks every layer for the skeletons of a tile; a layer
    appends them to the tile's imagery. *)
Definition createSkeletons (c : Collaborators) (tile : TileId) (s : Surface)
  : Surface :=
  foldl
    (fun s layer =>
       updateTile
         (fun t =>
            withImagery
              (tile_imagery t ++ createTileImagerySkeletons c layer tile) t)
         tile s)
    s (_imageryLayerCollection s).

(** "Transition terrain states". *)
Definition processTerrain (c : Collaborators) (tile : TileId) (s : Surface)
  : Surface :=
  let s :=
    if decide (tile_state (tiles s tile) = TS_UNLOADED) then
      let s := updateTile (withState TS_TRANSITIONING) tile s in
      let s := updateTile (withState (requestTileGeometry c tile)) tile s in
      if decide (tile_state (tiles s tile) = TS_UNLOADED) then s
      else
        let s :=
          setReplacementQueue
            (markTileRendered tile (_tileReplacementQueue s)) s in
        let '(evicted, queue) := trimTiles 100 (_tileReplacementQueue s) in
        let s := foldr evict (setReplacementQueue queue s) evicted in
        createSkeletons c tile s
    else s in
  let s :=
    if decide (tile_state (tiles s tile) = TS_RECEIVED) then
      let s := updateTile (withState TS_TRANSITIONING) tile s in
      updateTile (withState (transformGeometry c tile)) tile s
    else s in
  if decide (tile_state (tiles s tile) = TS_TRANSFORMED) then
    let s := updateTile (withState TS_TRANSITIONING) tile s in
    updateTile (withState (createResources c tile)) tile s
  else s.

(** The [while] loop that follows [imagery.parent] past the failed and
    invalid ancestors: the ancestor it stops at, [None] for [undefined].
    The loop has no bound of its own and the store can hold a chain of
    failed parents of any length, or one that turns back on itself, on which
    the loop never ends.  [fuel] is the number of failed ancestors that the
    walk may pass; it is a parameter of the pump and of no object of the
    program.  [Diverges] is the answer only when [fuel + 1] failed ancestors
    were passed; with a fuel of at least the number of [Imagery] objects
    that is only on a chain that turns back on itself, on which the loop of
    the source never ends. *)
Fixpoint findAncestor (imageries : ImageryStore) (fuel : nat)
    (parent : option ImageryId) : Outcome (option ImageryId) :=
  match parent with
  | None => Returned None
  | Some p =>
      if isFailedOrInvalid (imagery_state (imageries p)) then
        match fuel with
        | 0 => Diverges
        | S fuel => findAncestor imageries fuel (imagery_parent (imageries p))
        end
      else Returned (Some p)
  end.

(** The object number [n] of the chain [parent], [parent.parent], ...,
    counted from 0; [None] when the chain ends before it. *)
Fixpoint nthAncestor (imageries : ImageryStore) (n : nat)
    (parent : option ImageryId) : option ImageryId :=
  match n, parent with
  | 0, _ => parent
  | S n, Some p => nthAncestor imageries n (imagery_parent (imageries p))
  | S _, None => None
  end.

(** The first [n] objects of the chain from [parent] are failed or
    invalid. *)
Definition FailedBefore (imageries : ImageryStore)
    (parent : option ImageryId) (n : nat) : Prop :=
  forall k, k < n ->
    exists q, nthAncestor imageries k parent = Some q
              /\ isFailedOrInvalid (imagery_state (imageries q)) = true.

(** [p] is the nearest object of the chain from [parent] that is neither
    failed nor invalid; [n] failed or invalid objects come before it. *)
Definition NearestUsable (imageries : ImageryStore)
    (parent : option ImageryId) (n : nat) (p : ImageryId) : Prop :=
  nthAncestor imageries n parent = Some p
  /\ isFailedOrInvalid (imagery_state (imageries p)) = false
  /\ FailedBefore imageries parent n.

(** How one pass through the body of the imagery loop ends: normally, with
    whether it replaced a placeholder, [imageryDoneLoading] and the state in
    which it found the imagery when it tested it; or not. *)
Inductive BodyResult :=
| Processed (replaced imageryDoneLoading : bool) (seen : ImageryState)
| BodyThrew (e : Error)
| BodyDiverges.

(** The end of the body, from [var imageryDoneLoading] on, for the imagery
    [img] that the entry now refers to. *)
Definition finishEntry (c : Collaborators) (tile : TileId) (i : nat)
    (img : ImageryId) (s : Surface) : Surface * BodyResult :=
  let seen := imagery_state (imageries s img) in
  let imageryDoneLoading := bool_decide (seen = READY) in
  let s :=
    match tile_imagery (tiles s tile) !! i with
    | Some tileImagery =>
        if imageryDoneLoading
           && bool_decide (textureTranslationAndScale tileImagery = None)
        then
          updateEntry
            (fun ti =>
               mkTileImagery (imagery ti) (originalImagery ti)
                 (textureCoordinateExtent ti)
                 (Some (calculateTextureTranslationAndScale c tile tileImagery)))
            tile i s
        else s
    | None => s
    end in
  (s, Processed false imageryDoneLoading seen).

(** The three tests that start a request for an imagery, in order; each
    reads the state the one before left. *)
Definition advanceImagery (c : Collaborators) (img : ImageryId) (s : Surface)
  : Surface :=
  let s :=
    if decide (imagery_state (imageries s img) = UNLOADED) then
      setImageryState img (requestImagery c img)
        (setImageryState img TRANSITIONING s)
    else s in
  let s :=
    if decide (imagery_state (imageries s img) = RECEIVED) then
      setImageryState img (createTexture c img)
        (setImageryState img TRANSITIONING s)
    else s in
  if decide (imagery_state (imageries s img) = TEXTURE_LOADED) then
    setImageryState img (reprojectTexture c img)
      (setImageryState img TRANSITIONING s)
  else s.

(** The branch for a failed or invalid imagery [img], and the end of the
    body after it.  [walk] is the fuel of the ancestor walk. *)
Definition substituteParent (c : Collaborators) (walk : nat) (tile : TileId)
    (i : nat) (img : ImageryId) (s : Surface) : Surface * BodyResult :=
  match findAncestor (imageries s) walk (imagery_parent (imageries s img)) with
  | Returned parent =>
      let s :=
        updateEntry
          (fun ti =>
             mkTileImagery (imagery ti) (Some img)
               (textureCoordinateExtent ti) (textureTranslationAndScale ti))
          tile i s in
      match parent with
      | None => (s, BodyThrew TypeError)
      | Some parent =>
          let s := addReference parent s in
          let s :=
            updateEntry
              (fun ti =>
                 mkTileImagery parent (originalImagery ti)
                   (textureCoordinateExtent ti)
                   (textureTranslationAndScale ti))
              tile i s in
          finishEntry c tile i parent s
      end
  | Threw e => (s, BodyThrew e)
  | Diverges => (s, BodyDiverges)
  end.

(** The replacement of a placeholder: it is released and the skeletons of
    its layer take its place, from the same index on.  The rest of the body
    runs on the detached placeholder, whose state is none of those it tests
    for. *)
Definition replacePlaceholder (c : Collaborators) (tile : TileId) (i : nat)
    (img : ImageryId) (s : Surface) : Surface * BodyResult :=
  let layer := imageryLayer (imageries s img) in
  let s := releaseReference img s in
  let spliced :=
    snd (JsArray.splice (Z.of_nat i) 1 [] (tile_imagery (tiles s tile))) in
  let spliced :=
    snd (JsArray.splice (Z.of_nat i) 0
           (createTileImagerySkeletons c layer tile) spliced) in
  (updateTile (withImagery spliced) tile s,
   Processed true false (imagery_state (imageries s img))).

(** The body of the imagery loop for [tileImageryCollection[i]]. *)
Definition imageryBody (c : Collaborators) (walk : nat) (tile : TileId)
    (i : nat) (s : Surface) : Surface * BodyResult :=
  match tile_imagery (tiles s tile) !! i with
  | None => (s, BodyThrew TypeError)
  | Some tileImagery =>
      let img := imagery tileImagery in
      if bool_decide (imagery_state (imageries s img) = PLACEHOLDER)
         && isReady c (imageryLayer (imageries s img))
      then replacePlaceholder c tile i img s
      else
        let s := advanceImagery c img s in
        if isFailedOrInvalid (imagery_state (imageries s img))
        then substituteParent c walk tile i img s
        else finishEntry c tile i img s
  end.

(** How a loop was left. *)
Inductive Exit := Normal | Thrown (e : Error) | Hangs.

#[global] Instance Error_eq_dec : EqDecision Error.
Proof. solve_decision. Defined.

#[global] Instance Exit_eq_dec : EqDecision Exit.
Proof. solve_decision. Defined.

(** The variables of the imagery loop when it is left, the deadline checks
    that are still to succeed, and the states in which the imagery of the
    entries was found, in the order of the passes. *)
Record ImageryLoop := mkImageryLoop {
  loopSurface : Surface;
  loopBudget : nat;
  loopIndex : nat;
  loopLen : nat;
  loopDoneLoading : bool;
  loopSeen : list ImageryState;
  loopExit : Exit
}.

(** The imagery loop.  [budget] is the number of evaluations of
    [Date.now() < endTime] that are still to succeed: the clock does not go
    back, so once the test fails it fails for the rest of the call.  [walk]
    is the fuel of the ancestor walk of each pass. *)
Fixpoint imageryLoop (c : Collaborators) (walk : nat) (tile : TileId)
    (budget : nat) (i len : nat) (doneLoading : bool)
    (seen : list ImageryState) (s : Surface) : ImageryLoop :=
  match budget with
  | 0 => mkImageryLoop s 0 i len doneLoading seen Normal
  | S budget =>
      if decide (i < len) then
        match imageryBody c walk tile i s with
        | (s, Processed replaced imageryDoneLoading st) =>
            imageryLoop c walk tile budget
              (if replaced then i else S i)
              (if replaced then length (tile_imagery (tiles s tile)) else len)
              (doneLoading && imageryDoneLoading) (seen ++ [st]) s
        | (s, BodyThrew e) =>
            mkImageryLoop s budget i len doneLoading seen (Thrown e)
        | (s, BodyDiverges) =>
            mkImageryLoop s budget i len doneLoading seen Hangs
        end
      else mkImageryLoop s budget i len doneLoading seen Normal
  end.

(** One pass through the body of the loop over the load queue, up to the
    test that makes the tile renderable: the imagery loop as it was left,
    whether the test succeeded, and the surface after it. *)
Definition processTile (c : Collaborators) (walk : nat) (tile : TileId)
    (budget : nat) (s : Surface) : ImageryLoop * bool * Surface :=
  let s := processTerrain c tile s in
  let doneLoading := bool_decide (tile_state (tiles s tile) = TS_READY) in
  let loop :=
    imageryLoop c walk tile budget 0 (length (tile_imagery (tiles s tile)))
      doneLoading [] s in
  let s := loopSurface loop in
  if bool_decide (loopExit loop = Normal)
     && bool_decide (loopIndex loop = loopLen loop)
     && loopDoneLoading loop
  then
    (loop, true,
     setLoadQueue (remove tile (_tileLoadQueue s))
       (updateTile withLoaded tile s))
  else (loop, false, s).

(** The loop over the load queue, from [tile].  [tile.loadNext] is read
    after the pass: for a tile that the pass removed from the queue it is
    the link the tile had when it was removed, or [undefined] if [remove]
    clears the links of the tile it removes.  Every pass uses up at least
    one of the deadline checks; the fuel only has to exceed the budget. *)
Fixpoint pumpLoop (c : Collaborators) (walk fuel budget : nat)
    (tile : option TileId) (s : Surface) : Surface * Exit :=
  match fuel, budget, tile with
  | _, 0, _ => (s, Normal)
  | _, _, None => (s, Normal)
  | 0, _, _ => (s, Hangs)
  | S fuel, S budget, Some tile =>
      let '(loop, completed, s) := processTile c walk tile budget s in
      match loopExit loop with
      | Normal =>
          let next :=
            if completed && removeClearsLoadNext c then None
            else loadNext tile (_tileLoadQueue (loopSurface loop)) in
          pumpLoop c walk fuel (loopBudget loop) next s
      | e => (s, e)
      end
  end.

Definition processTileLoadQueue (c : Collaborators) (walk budget : nat)
    (s : Surface) : Surface * Exit :=
  pumpLoop c walk (S budget) budget (head (loadItems (_tileLoadQueue s))) s.

(** The first two steps of [update]: the selection, then the pump.  The
    steps that follow (the layers' [updateTiles] and the assembly of the
    commands) leave the tiles' flags and the load queue as they are. *)
Definition update (c : Collaborators) (walk fuel budget : nat) (s : Surface)
  : Surface * Exit :=
  match selectTilesForRendering c fuel s with
  | Returned (s, _) => processTileLoadQueue c walk budget s
  | Threw e => (s, Thrown e)
  | Diverges => (s, Hangs)
  end.

(** *** The layer-change handlers on the surface *)

Definition withDoneLoading (b : bool) (t : Tile) : Tile :=
  mkTile (tile_state t) (tile_imagery t) (renderable t) b (vertexArray t).

Definition withRenderable (b : bool) (t : Tile) : Tile :=
  mkTile (tile_state t) (tile_imagery t) b (doneLoading t) (vertexArray t).

(** The body of the loop of [_onLayerAdded] for one tile of the replacement
    queue.  The layer appends its skeletons to the tile's imagery and says
    whether it created any. *)
Definition layerAddedOnTile (c : Collaborators) (layer : LayerId)
    (newNextLayer : option LayerId) (s : Surface) (tile : TileId) : Surface :=
  let created := createTileImagerySkeletons c layer tile in
  let s :=
    updateTile (fun t => withImagery (tile_imagery t ++ created) t) tile s in
  let s :=
    match created with
    | [] => s
    | _ => updateTile (withDoneLoading false) tile s
    end in
  match newNextLayer with
  | None => s
  | Some _ =>
      updateTile
        (fun t =>
           withImagery
             (Layers.moveTileImageryObjects (imageries s) (tile_imagery t)
                layer newNextLayer) t)
        tile s
  end.

(** [_onLayerAdded(layer, index)], called when the collection already holds
    the layer. *)
Definition _onLayerAdded (c : Collaborators) (layer : LayerId) (index : nat)
    (s : Surface) : Surface :=
  match _levelZeroTiles s with
  | None => s
  | Some _ =>
      foldl
        (layerAddedOnTile c layer (_imageryLayerCollection s !! (index + 1)))
        s (resident (_tileReplacementQueue s))
  end.

(** The [for] loop of [_onLayerRemoved] over the entries that remain:
    [startIndex], [numDestroyed] and the imagery released, in order. *)
Fixpoint scanRemoved (imgs : ImageryStore) (layer : LayerId) (i : Z)
    (coll : list TileImagery) (startIndex numDestroyed : Z)
    (released : list ImageryId) : Z * Z * list ImageryId :=
  match coll with
  | [] => (startIndex, numDestroyed, released)
  | tileImagery :: rest =>
      if decide (imageryLayer (imgs (imagery tileImagery)) = layer) then
        scanRemoved imgs layer (i + 1) rest
          (if decide (startIndex = (-1)%Z) then i else startIndex)
          (numDestroyed + 1) (released ++ [imagery tileImagery])
      else if decide (startIndex = (-1)%Z) then
        scanRemoved imgs layer (i + 1) rest startIndex numDestroyed released
      else (startIndex, numDestroyed, released)
  end.

(** The body of the loop of [_onLayerRemoved] for one tile. *)
Definition layerRemovedOnTile (layer : LayerId) (s : Surface) (tile : TileId)
  : Surface :=
  let tileImageryCollection := tile_imagery (tiles s tile) in
  let '(startIndex, numDestroyed, released) :=
    scanRemoved (imageries s) layer 0 tileImageryCollection (-1) 0 [] in
  let s := foldl (fun s img => releaseReference img s) s released in
  let remaining :=
    if decide (startIndex = (-1)%Z) then tileImageryCollection
    else snd (JsArray.splice startIndex numDestroyed [] tileImageryCollection) in
  let s := updateTile (withImagery remaining) tile s in
  if decide (length remaining = 0)
  then updateTile (withRenderable false) tile s
  else s.

Definition _onLayerRemoved (layer : LayerId) (index : nat) (s : Surface)
  : Surface :=
  match _levelZeroTiles s with
  | None => s
  | Some _ =>
      foldl (layerRemovedOnTile layer) s (resident (_tileReplacementQueue s))
  end.

(** [_onLayerMoved] on the surface. *)
Definition _onLayerMoved (layer : LayerId) (newIndex oldIndex : nat)
    (s : Surface) : Surface :=
  setTiles
    (Layers._onLayerMoved
       {| Layers._levelZeroTiles := _levelZeroTiles s;
          Layers._imageryLayerCollection := _imageryLayerCollection s;
          Layers._tileReplacementQueue := resident (_tileReplacementQueue s);
          Layers.tiles := tiles s;
          Layers.imageries := imageries s |}
       layer newIndex oldIndex) s.

Definition setLayers (layers : list LayerId) (s : Surface) : Surface :=
  mkSurface (tiles s) (imageries s) layers (_levelZeroTiles s)
    (_tilesToRenderByTextureCount s) (_tileTraversalQueue s)
    (_tileLoadQueue s) (_tileReplacementQueue s) (suspendLodUpdate s).

(** The states of a surface: those of a new surface, whose load queue is
    empty, and those that follow from a frame, a change of the layer
    collection with its event, or the arrival of terrain or imagery that a
    provider was asked for. *)
Inductive Reachable : Surface -> Prop :=
| reach_new s :
    loadItems (_tileLoadQueue s) = [] -> Reachable s
| reach_update c walk fuel budget s :
    Reachable s -> Reachable (fst (update c walk fuel budget s))
| reach_layerAdded c layers layer index s :
    Reachable s -> Reachable (_onLayerAdded c layer index (setLayers layers s))
| reach_layerRemoved layers layer index s :
    Reachable s -> Reachable (_onLayerRemoved layer index (setLayers layers s))
| reach_layerMoved layers layer newIndex oldIndex s :
    Reachable s ->
    Reachable (_onLayerMoved layer newIndex oldIndex (setLayers layers s))
| reach_terrain tile st s :
    Reachable s -> Reachable (updateTile (withState st) tile s)
| reach_imagery img st s :
    Reachable s -> Reachable (setImageryState img st s).

(** *** What the pump leaves alone *)

(** Between two states no flag or terrain state of a tile changed and the
    load queue is the same. *)
Definition SameFlags (s s' : Surface) : Prop :=
  _tileLoadQueue s' = _tileLoadQueue s
  /\ forall t,
       renderable (tiles s' t) = renderable (tiles s t)
       /\ doneLoading (tiles s' t) = doneLoading (tiles s t)
       /\ tile_state (tiles s' t) = tile_state (tiles s t).

(** Between two states the flags of [tile] and its membership of the load
    queue did not change. *)
Definition Keeps (tile : TileId) (s s' : Surface) : Prop :=
  renderable (tiles s' tile) = renderable (tiles s tile)
  /\ doneLoading (tiles s' tile) = doneLoading (tiles s tile)
  /\ (tile ∈ loadItems (_tileLoadQueue s')
      <-> tile ∈ loadItems (_tileLoadQueue s)).

(** Between two states no tile entered the load queue and no tile of the
    queue became [doneLoading]. *)
Definition Shrinks (s s' : Surface) : Prop :=
  forall t, t ∈ loadItems (_tileLoadQueue s') ->
    t ∈ loadItems (_tileLoadQueue s)
    /\ (doneLoading (tiles s' t) = true -> doneLoading (tiles s t) = true).

(** Every tile of the load queue is still loading. *)
Definition LoadInvariant (s : Surface) : Prop :=
  forall t, t ∈ loadItems (_tileLoadQueue s) -> doneLoading (tiles s t) = false.

(** Between two states no tile changed, and a tile that entered the load
    queue was not [doneLoading]. *)
Definition Enqueues (s s' : Surface) : Prop :=
  tiles s' = tiles s
  /\ forall t, t ∈ loadItems (_tileLoadQueue s') ->
       t ∈ loadItems (_tileLoadQueue s) \/ doneLoading (tiles s t) = false.



(** What one pass of the imagery loop that ends normally and replaces no
    placeholder leaves: nothing but the entry at [i] changed in the stack of
    the tile, and the imagery of that entry is in the state the pass saw. *)
Definition PassedEntry (tile : TileId) (i : nat) (s s' : Surface)
    (ok : bool) (seen : ImageryState) : Prop :=
  length (tile_imagery (tiles s' tile)) = length (tile_imagery (tiles s tile))
  /\ (forall j, j <> i ->
        tile_imagery (tiles s' tile) !! j = tile_imagery (tiles s tile) !! j)
  /\ (exists ti, tile_imagery (tiles s' tile) !! i = Some ti
                 /\ seen = imagery_state (imageries s' (imagery ti)))
  /\ ok = bool_decide (seen = READY).


Definition isREADY (st : ImageryState) : bool := bool_decide (st = READY).

(** *** Examples *)

(** The children of a tile in a quadtree. *)
Definition quadChildren (t : TileId) : list TileId :=
  [mkTileId (S (level t)) (2 * x t) (2 * y t);
   mkTileId (S (level t)) (2 * x t + 1) (2 * y t);
   mkTileId (S (level t)) (2 * x t) (2 * y t + 1);
   mkTileId (S (level t)) (2 * x t + 1) (2 * y t + 1)].

(** Collaborators that answer every request at once, with a terrain of two
    levels, every tile visible and none fine enough. *)
Definition eagerCollaborators : Collaborators :=
  {| maxLevel := 1;
     getChildren := quadChildren;
     screenSpaceError := fun _ => 4%Q;
     maxScreenSpaceError := 2%Q;
     isTileVisible := fun _ => true;
     requestTileGeometry := fun _ => TS_RECEIVED;
     transformGeometry := fun _ => TS_TRANSFORMED;
     createResources := fun _ => TS_READY;
     isReady := fun _ => true;
     createTileImagerySkeletons := fun layer _ => [mkTileImagery layer None 0 None];
     requestImagery := fun _ => RECEIVED;
     createTexture := fun _ => TEXTURE_LOADED;
     reprojectTexture := fun _ => READY;
     calculateTextureTranslationAndScale := fun _ _ => 5;
     removeClearsLoadNext := false |}.

Definition root0 : TileId := mkTileId 0 0 0.
Definition root1 : TileId := mkTileId 0 1 0.

(** A surface as the constructor leaves it, with two level zero tiles and
    two layers; imagery [i] belongs to layer [i]. *)
Definition newSurface : Surface :=
  {| tiles := fun _ => newTile;
     imageries := fun i => mkImagery i 0 UNLOADED None 0 i;
     _imageryLayerCollection := [0; 1];
     _levelZeroTiles := Some [root0; root1];
     _tilesToRenderByTextureCount := [];
     _tileTraversalQueue := [];
     _tileLoadQueue := emptyLoadQueue;
     _tileReplacementQueue := emptyReplacementQueue;
     suspendLodUpdate := false |}.

(** A surface whose load queue holds [root0], with ready terrain and one
    entry whose imagery [0] has failed and has no parent, and then
    [root1], not yet requested. *)
Definition failedImagerySurface : Surface :=
  {| tiles := fun t =>
       if decide (t = root0)
       then mkTile TS_READY [mkTileImagery 0 None 0 None] false false 0
       else newTile;
     imageries := fun i => mkImagery i 0 (if decide (i = 0) then FAILED else UNLOADED) None 1 i;
     _imageryLayerCollection := [0];
     _levelZeroTiles := Some [root0; root1];
     _tilesToRenderByTextureCount := [];
     _tileTraversalQueue := [];
     _tileLoadQueue := {| loadItems := [root0; root1]; insertionPoint := None |};
     _tileReplacementQueue := {| resident := [root0]; renderedThisFrame := 0 |};
     suspendLodUpdate := false |}.

(** A surface whose load queue holds [root0], with ready terrain and one
    entry whose imagery [1] has failed; its parent, imagery [2], has failed
    and the parent of that, imagery [3], is invalid; the parent of imagery
    [3], imagery [0], is READY. *)
Definition fallbackSurface : Surface :=
  {| tiles := fun t =>
       if decide (t = root0)
       then mkTile TS_READY [mkTileImagery 1 None 0 None] false false 0
       else newTile;
     imageries := fun i =>
       if decide (i = 1) then mkImagery 0 0 FAILED (Some 2) 1 1
       else if decide (i = 2) then mkImagery 0 0 FAILED (Some 3) 1 2
       else if decide (i = 3) then mkImagery 0 0 INVALID (Some 0) 1 3
       else mkImagery 0 0 READY None 1 0;
     _imageryLayerCollection := [0];
     _levelZeroTiles := Some [root0; root1];
     _tilesToRenderByTextureCount := [];
     _tileTraversalQueue := [];
     _tileLoadQueue := {| loadItems := [root0]; insertionPoint := None |};
     _tileReplacementQueue := {| resident := [root0]; renderedThisFrame := 0 |};
     suspendLodUpdate := false |}.

(** The new surface after two frames: the level zero tiles and their
    children are loaded. *)
Definition loadedSurface : Surface :=
  fst (update eagerCollaborators 8 100 50
         (fst (update eagerCollaborators 8 100 50 newSurface))).

(** The tiles on the render lists. *)
Definition renderedTiles (s : Surface) : list TileId :=
  _tilesToRenderByTextureCount s ≫= default [].

(** The inner loop of [debugShowBoundingSphereOfTileAt] over the tiles that
    remain of a set: the tile at which it breaks.  [contains tile] is
    [tile.extent.contains(cartographicPick)]. *)
Fixpoint findInTileSet (contains : TileId -> bool) (tileSet : list TileId)
  : option TileId :=
  match tileSet with
  | [] => None
  | tile :: tileSet =>
      if contains tile then Some tile else findInTileSet contains tileSet
  end.

(** The outer loop over the render lists that remain; it goes on while
    [result] is undefined, past the sets that are undefined. *)
Fixpoint findTileAt (contains : TileId -> bool)
    (tileSets : list (option (list TileId))) : option TileId :=
  match tileSets with
  | [] => None
  | None :: tileSets => findTileAt contains tileSets
  | Some tileSet :: tileSets =>
      match findInTileSet contains tileSet with
      | Some result => Some result
      | None => findTileAt contains tileSets
      end
  end.

(** [debugShowBoundingSphereOfTileAt(cartographicPick)]: the values it
    assigns to [_debug.boundingSphereTile] and [_debug.boundingSphereVA]. *)
Definition debugShowBoundingSphereOfTileAt (contains : TileId -> bool)
    (s : Surface) : option TileId * option Handle :=
  (findTileAt contains (_tilesToRenderByTextureCount s), None).

(** The number of tiles of a subtree of depth [d] of a quadtree, and fuel
    that is enough to traverse the subtrees of the level zero tiles. *)
Fixpoint subtreeSize (d : nat) : nat :=
  match d with
  | 0 => 1
  | S d => 1 + 4 * subtreeSize d
  end.

Definition traversalFuel (c : Collaborators) (s : Surface) : nat :=
  S (length (default [] (_levelZeroTiles s)) * subtreeSize (maxLevel c)).

(** The tiles that a tile of the traversal queue can still bring into the
    queue, itself included. *)
Definition weight (c : Collaborators) (t : TileId) : nat :=
  subtreeSize (maxLevel c - level t).

Definition queueWeight (c : Collaborators) (queue : list TileId) : nat :=
  sum_list_with (weight c) queue.

(** What the traversal relies on of [Tile.js] and the tiling scheme: the
    level zero tiles are distinct tiles of level 0, and a tile has four
    distinct children, one level below it, that are children of no other
    tile. *)
Record QuadTree (c : Collaborators) (roots : list TileId) : Prop := {
  roots_level : forall r, r ∈ roots -> level r = 0;
  roots_NoDup : NoDup roots;
  children_level :
    forall t child, child ∈ getChildren c t -> level child = S (level t);
  children_four : forall t, length (getChildren c t) = 4;
  children_NoDup : forall t, NoDup (getChildren c t);
  children_parent :
    forall t t' child,
      child ∈ getChildren c t -> child ∈ getChildren c t' -> t = t'
}.

(** Follows the spec's words: a dequeued tile is refined if and only if its
    screen-space error is not below the threshold, its level is strictly
    below [maxLevel] and all its children are renderable. *)
Definition SpecRefines (c : Collaborators) (ts : TileStore) (tile : TileId)
  : Prop :=
  ~ (screenSpaceError c tile < maxScreenSpaceError c)%Q
  /\ level tile < maxLevel c
  /\ forall child, child ∈ getChildren c tile -> renderable (ts child) = true.

(** Every tile of the render lists is renderable and visible for the tiles
    [ts] and the camera tests of [c], and is on the list that its number of
    READY imagery entries, counted in [s0], indexes. *)
Definition WellSorted (c : Collaborators) (s0 : Surface)
    (lists : list (option (list TileId))) : Prop :=
  forall k tileSet t,
    lists !! k = Some (Some tileSet) -> t ∈ tileSet ->
    renderable (tiles s0 t) = true
    /\ isTileVisible c t = true
    /\ readyTextureCount s0 t = k.

(** The insertion point of a load queue is one of its tiles. *)
Definition QueueOk (q : TileLoadQueue) : Prop :=
  forall p, insertionPoint q = Some p -> p ∈ loadItems q.

(** Between two states no tile left the load queue. *)
Definition LoadGrows (s s' : Surface) : Prop :=
  (QueueOk (_tileLoadQueue s) -> QueueOk (_tileLoadQueue s'))
  /\ forall t, t ∈ loadItems (_tileLoadQueue s) ->
       t ∈ loadItems (_tileLoadQueue s').

(** What holds of the traversal after each visit, for the tiles [ts] of the
    frame: the visits so far followed the rule, no tile was visited or
    queued twice, a tile visited or queued is a level zero tile or a child
    of a refined tile, the visible children of a refined tile were queued,
    the children still loading of a tile that was not fine enough are in the
    load queue, and the render lists hold the tiles that were rendered. *)
Record Traversal (c : Collaborators) (roots : list TileId) (ts : TileStore)
    (s : Surface) (visits : list (TileId * Action)) : Prop := {
  trav_tiles : tiles s = ts;
  trav_queueOk : QueueOk (_tileLoadQueue s);
  trav_action :
    forall tile action, (tile, action) ∈ visits ->
      (action = Refined <-> SpecRefines c ts tile);
  trav_NoDup : NoDup (visits.*1 ++ _tileTraversalQueue s);
  trav_origin :
    forall t, t ∈ visits.*1 ++ _tileTraversalQueue s ->
      level t <= maxLevel c
      /\ (t ∈ roots
          \/ exists p, (p, Refined) ∈ visits /\ t ∈ getChildren c p
                       /\ isTileVisible c t = true);
  trav_children :
    forall p child, (p, Refined) ∈ visits -> child ∈ getChildren c p ->
      isTileVisible c child = true ->
      child ∈ visits.*1 ++ _tileTraversalQueue s;
  trav_loads :
    forall p action child, (p, action) ∈ visits ->
      ~ (screenSpaceError c p < maxScreenSpaceError c)%Q ->
      level p < maxLevel c ->
      child ∈ getChildren c p -> doneLoading (ts child) = false ->
      child ∈ loadItems (_tileLoadQueue s);
  trav_rendered :
    forall t, t ∈ renderedTiles s <-> (t, Rendered) ∈ visits
}.

End Engine.

(** ** Theorems *)

(** C8 (as the code behaves): with two layers [0] and [1] and a resident tile
    whose stack is [[entry of 0; entry of 1]], the layer-moved handler called
    for layer [0] with [newIndex = oldIndex = 0] swaps the two entries: the
    block of layer [0] is spliced out first and then put back at the index
    the next layer's block had before the removal. *)
Lemma onLayerMoved_same_index_swaps :
  tile_imagery
    (Layers._onLayerMoved Layers.twoLayerSurface 0 0 0 Layers.rootTile)
  = [Layers.entryOf 1; Layers.entryOf 0]
  /\ tile_imagery (Layers.tiles Layers.twoLayerSurface Layers.rootTile)
     = [Layers.entryOf 0; Layers.entryOf 1].
Proof. split; reflexivity. Qed.

(** C9 (as the code behaves): on every surface the constructor returns,
    [destroy] reads the property [levelZeroTiles], which the constructor
    never sets (it sets [_levelZeroTiles]), and throws a [TypeError] before
    any tile or collaborator is destroyed. *)
Lemma destroy_throws_before_any_effect :
  forall (maxSSE : option Z) (levelZero : list TileId),
    exists this,
      Destroy.CentralBodySurface
        {| Destroy.terrainProvider := Some ();
           Destroy.imageryLayerCollection := Some ();
           Destroy.maxScreenSpaceError := maxSSE |} levelZero
      = Returned this
      /\ Destroy.destroy this = ([], Threw TypeError).
Proof.
  intros maxSSE levelZero. eexists. split; [reflexivity|].
  vm_compute. reflexivity.
Qed.

(** The squared distance of the Columbus View example is the squared height
    of the camera above the plane. *)
Lemma columbus_distanceSquared :
  ScreenSpaceError.distanceSquaredToTile ScreenSpaceError.columbusFrame
    ScreenSpaceError.columbusCamera
    ScreenSpaceError.columbusCameraCartographic
    ScreenSpaceError.northernTile = 1%R.
Proof.
  pose proof PI_RGT_0 as Hpi.
  unfold ScreenSpaceError.distanceSquaredToTile; simpl.
  unfold ScreenSpaceError.dot, ScreenSpaceError.subtract; simpl.
  repeat match goal with
         | |- context [Rgt_dec ?a ?b] => destruct (Rgt_dec a b); try lra
         end.
Qed.

(** C4 (counterexample): in Columbus View the code applies no latitude
    factor, so for a tile whose southern edge is at 60 degrees north the
    value returned is twice the one the stated formula gives. *)
Lemma screenSpaceError_columbus_has_no_cosine :
  ~ (fst (ScreenSpaceError.screenSpaceError (fun _ => 1%R)
            ScreenSpaceError.unitCanvas ScreenSpaceError.columbusFrame
            ScreenSpaceError.columbusCamera
            ScreenSpaceError.columbusCameraCartographic
            ScreenSpaceError.northernTile)
     = ScreenSpaceError.specScreenSpaceError (fun _ => 1%R)
         ScreenSpaceError.unitCanvas ScreenSpaceError.columbusFrame
         ScreenSpaceError.columbusCamera
         ScreenSpaceError.columbusCameraCartographic
         ScreenSpaceError.northernTile).
Proof.
  pose proof PI_RGT_0 as Hpi.
  unfold ScreenSpaceError.screenSpaceError,
    ScreenSpaceError.specScreenSpaceError.
  rewrite columbus_distanceSquared. simpl.
  unfold ScreenSpaceError.latitudeClosestToEquator. simpl.
  destruct (Rgt_dec (PI / 3) 0) as [_|Hn]; [|lra].
  replace (0.5 * (PI / 2))%R with (PI / 4)%R by lra.
  replace (PI / 2 / 2)%R with (PI / 4)%R by lra.
  rewrite sqrt_1, tan_PI4, cos_PI3. lra.
Qed.

(** C4 (amended): outside the 2D mode the value returned is
    [(maxGeometricError * height) / (2 * distance * tan (fovy / 2))] with
    [distance] the square root of [distanceSquaredToTile] and
    [maxGeometricError] the level's maximum geometric error, multiplied by the
    cosine of the latitude closest to the equator in the 3D mode only; the
    distance is stored on the tile. *)
Theorem screenSpaceError_formula :
  forall (getLevelMaximumGeometricError : nat -> R)
         (canvas : ScreenSpaceError.Canvas)
         (frameState : ScreenSpaceError.FrameState)
         (cameraPosition : ScreenSpaceError.Cartesian3)
         (cameraPositionCartographic : ScreenSpaceError.Cartographic)
         (tile : ScreenSpaceError.TileGeometry),
    ScreenSpaceError.mode frameState <> ScreenSpaceError.SCENE2D ->
    let result :=
      ScreenSpaceError.screenSpaceError getLevelMaximumGeometricError canvas
        frameState cameraPosition cameraPositionCartographic tile in
    let dist :=
      sqrt (ScreenSpaceError.distanceSquaredToTile frameState cameraPosition
              cameraPositionCartographic tile) in
    let levelError :=
      getLevelMaximumGeometricError (ScreenSpaceError.tile_level tile) in
    let viewport := ScreenSpaceError.clientHeight canvas in
    let halfAngle :=
      (ScreenSpaceError.fovy (ScreenSpaceError.frustum frameState) / 2)%R in
    (ScreenSpaceError.mode frameState = ScreenSpaceError.SCENE3D ->
       fst result
       = ((cos (ScreenSpaceError.latitudeClosestToEquator
                  (ScreenSpaceError.extent tile)) * levelError * viewport)
          / (2 * dist * tan halfAngle))%R)
    /\ (ScreenSpaceError.mode frameState <> ScreenSpaceError.SCENE3D ->
          fst result
          = ((1 * levelError * viewport) / (2 * dist * tan halfAngle))%R)
    /\ ScreenSpaceError.distance (snd result) = dist.
Proof.
  intros getErr canvas frameState cam carto tile Hmode.
  cbv zeta. unfold ScreenSpaceError.screenSpaceError.
  rewrite bool_decide_eq_false_2 by exact Hmode.
  replace (0.5 * ScreenSpaceError.fovy (ScreenSpaceError.frustum frameState))%R
    with (ScreenSpaceError.fovy (ScreenSpaceError.frustum frameState) / 2)%R
    by lra.
  simpl. repeat split.
  - intros H3D. by rewrite bool_decide_eq_true_2.
  - intros Hnot3D. by rewrite bool_decide_eq_false_2.
Qed.

(** The amended formula at the Columbus View example: the mode is not 2D,
    and the error is [1] at distance [1]. *)
Lemma screenSpaceError_formula_witness :
  ScreenSpaceError.mode ScreenSpaceError.columbusFrame
    <> ScreenSpaceError.SCENE2D
  /\ ScreenSpaceError.distance
       (snd (ScreenSpaceError.screenSpaceError (fun _ => 1%R)
               ScreenSpaceError.unitCanvas ScreenSpaceError.columbusFrame
               ScreenSpaceError.columbusCamera
               ScreenSpaceError.columbusCameraCartographic
               ScreenSpaceError.northernTile))
     = sqrt (ScreenSpaceError.distanceSquaredToTile
               ScreenSpaceError.columbusFrame ScreenSpaceError.columbusCamera
               ScreenSpaceError.columbusCameraCartographic
               ScreenSpaceError.northernTile).
Proof.
  assert (Hmode : ScreenSpaceError.mode ScreenSpaceError.columbusFrame
                  <> ScreenSpaceError.SCENE2D) by discriminate.
  split; [exact Hmode|].
  exact (proj2 (proj2 (screenSpaceError_formula (fun _ => 1%R)
    ScreenSpaceError.unitCanvas ScreenSpaceError.columbusFrame
    ScreenSpaceError.columbusCamera
    ScreenSpaceError.columbusCameraCartographic
    ScreenSpaceError.northernTile Hmode))).
Defined.

(** ** Facts about JavaScript arrays *)

Section JsArrayFacts.
Context {A : Type}.
Implicit Types (arr : list (option A)) (l : list A).

Lemma store_length n (v : option A) arr :
  n <= length arr -> S n <= length (JsArray.store n v arr).
Proof.
  intros Hn. unfold JsArray.store. case_decide.
  - rewrite length_insert. lia.
  - rewrite !length_app, length_replicate. simpl. lia.
Qed.

Lemma store_take n (v : option A) arr :
  n <= length arr -> take (S n) (JsArray.store n v arr) = take n arr ++ [v].
Proof.
  intros Hn. unfold JsArray.store. case_decide.
  - rewrite take_insert_lt by lia.
    destruct (lookup_lt_is_Some_2 arr n) as [w Hw]; [lia|].
    rewrite (take_S_r _ _ w Hw).
    rewrite insert_app_r_alt by (rewrite length_take; lia).
    rewrite length_take. replace (n - n `min` length arr) with 0 by lia.
    reflexivity.
  - assert (n = length arr) as -> by lia.
    rewrite Nat.sub_diag. simpl.
    rewrite !take_ge by (rewrite ?length_app; simpl; lia).
    reflexivity.
Qed.

Lemma setLength_take n arr :
  n <= length arr -> JsArray.setLength n arr = take n arr.
Proof.
  intros Hn. unfold JsArray.setLength.
  replace (n - length arr) with 0 by lia. simpl. by rewrite app_nil_r.
Qed.

Lemma get_fmap_Some l i : JsArray.get i (Some <$> l) = l !! i.
Proof.
  unfold JsArray.get. rewrite list_lookup_fmap. by destruct (l !! i).
Qed.

Lemma store_fmap_Some_lt l i (v : A) :
  i < length l -> JsArray.store i (Some v) (Some <$> l) = Some <$> <[i := v]> l.
Proof.
  intros Hi. unfold JsArray.store. rewrite length_fmap.
  rewrite decide_True by done. by rewrite list_fmap_insert.
Qed.

Lemma store_fmap_Some_end l (v : A) :
  JsArray.store (length l) (Some v) (Some <$> l) = Some <$> (l ++ [v]).
Proof.
  unfold JsArray.store. rewrite length_fmap.
  rewrite decide_False by lia. rewrite Nat.sub_diag. simpl.
  by rewrite fmap_app.
Qed.

End JsArrayFacts.

(** ** Facts about the batches of one tile *)

Section BatchFacts.
Import Commands.
Variable imageries : ImageryStore.
Variable maxTextures : nat.
Hypothesis maxTextures_pos : 0 < maxTextures.

Local Abbreviation rc := (readyCount imageries).

Lemma readyCount_nil : rc [] = 0.
Proof. reflexivity. Qed.

Lemma readyCount_cons ti l :
  rc (ti :: l) = (if isReady imageries ti then 1 else 0) + rc l.
Proof.
  unfold readyCount. rewrite filter_cons.
  destruct (isReady imageries ti); by case_decide.
Qed.

Lemma readyCount_app l1 l2 : rc (l1 ++ l2) = rc l1 + rc l2.
Proof. unfold readyCount. by rewrite filter_app, length_app. Qed.

Lemma readyTextures_app l1 l2 :
  readyTextures imageries (l1 ++ l2)
  = readyTextures imageries l1 ++ readyTextures imageries l2.
Proof. unfold readyTextures. by rewrite filter_app, fmap_app. Qed.

Lemma readyTextures_concat (ls : list (list TileImagery)) :
  concat (readyTextures imageries <$> ls) = readyTextures imageries (concat ls).
Proof.
  induction ls as [|l ls IH]; [done|].
  by rewrite fmap_cons, !concat_cons, readyTextures_app, IH.
Qed.

Lemma readyTextures_length l : length (readyTextures imageries l) = rc l.
Proof. unfold readyTextures, readyCount. by rewrite length_fmap. Qed.

Lemma lastIsReady_app l1 l2 :
  l2 <> [] -> lastIsReady imageries (l1 ++ l2) = lastIsReady imageries l2.
Proof.
  intros Hne. unfold lastIsReady.
  destruct l2 as [|a l2 _] using rev_ind; [done|].
  by rewrite app_assoc, !last_snoc.
Qed.

Lemma lastIsReady_false_of_none_ready l :
  rc l = 0 -> lastIsReady imageries l = false.
Proof.
  destruct l as [|a l _] using rev_ind; [done|].
  rewrite readyCount_app, readyCount_cons. unfold lastIsReady.
  rewrite last_snoc. destruct (isReady imageries a); [lia|done].
Qed.

Lemma takeBatch_full n rest :
  ~ n < maxTextures -> takeBatch imageries maxTextures n rest = ([], rest).
Proof.
  intros Hn. destruct rest; simpl; [done|]. by rewrite decide_False.
Qed.

(** What one batch walks: a prefix of the entries; it never packs more than
    [maxTextures]; it stops early only when full; a full batch ends with the
    READY entry that filled it. *)
Lemma takeBatch_spec rest : forall n walked remaining,
  n <= maxTextures ->
  takeBatch imageries maxTextures n rest = (walked, remaining) ->
  rest = walked ++ remaining
  /\ n + rc walked <= maxTextures
  /\ (remaining <> [] -> n + rc walked = maxTextures)
  /\ (n < maxTextures -> n + rc walked = maxTextures ->
      lastIsReady imageries walked = true).
Proof.
  induction rest as [|ti rest IH]; intros n walked remaining Hn Htake; simpl in Htake.
  - injection Htake as <- <-. rewrite readyCount_nil. repeat split; [lia|done|lia].
  - case_decide as Hlt.
    + destruct (takeBatch imageries maxTextures
                  (if isReady imageries ti then S n else n) rest)
        as [walked' remaining'] eqn:Hrec.
      injection Htake as <- <-.
      assert (Hn' : (if isReady imageries ti then S n else n) <= maxTextures)
        by (destruct (isReady imageries ti); lia).
      pose proof (IH _ _ _ Hn' Hrec) as (Hrest & Hle & Hfull & Hlast).
      rewrite readyCount_cons. subst rest.
      destruct (isReady imageries ti) eqn:Hready.
      * repeat split; [lia| intros H; specialize (Hfull H); lia |].
        intros _ Heq. destruct walked' as [|a w].
        -- unfold lastIsReady. simpl. exact Hready.
        -- change (ti :: a :: w) with ([ti] ++ a :: w).
           rewrite lastIsReady_app by done.
           destruct (decide (S n < maxTextures)) as [HS|HS].
           ++ apply Hlast; [exact HS|lia].
           ++ rewrite takeBatch_full in Hrec by exact HS. discriminate.
      * repeat split; [lia| intros H; specialize (Hfull H); lia |].
        intros _ Heq. destruct walked' as [|a w].
        -- rewrite readyCount_nil in Heq. lia.
        -- change (ti :: a :: w) with ([ti] ++ a :: w).
           rewrite lastIsReady_app by done. apply Hlast; lia.
    + injection Htake as <- <-. rewrite readyCount_nil.
      repeat split; [lia|lia|lia].
Qed.

Lemma takeBatch_progress ti rest walked remaining :
  takeBatch imageries maxTextures 0 (ti :: rest) = (walked, remaining) ->
  length remaining < length (ti :: rest).
Proof.
  intros Htake.
  pose proof (takeBatch_spec _ _ _ _ (Nat.le_0_l _) Htake) as (Hrest & _).
  simpl in Htake. rewrite decide_True in Htake by exact maxTextures_pos.
  destruct (takeBatch imageries maxTextures _ rest) as [w r].
  injection Htake as <- <-. rewrite Hrest, length_app. simpl. lia.
Qed.

Lemma ceilDiv_small n : 0 < n -> n <= maxTextures -> ceilDiv n maxTextures = 1.
Proof.
  intros H0 Hle. unfold ceilDiv.
  symmetry. apply (Nat.div_unique _ _ 1 (n - 1)); lia.
Qed.

Lemma ceilDiv_add n : ceilDiv (maxTextures + n) maxTextures = S (ceilDiv n maxTextures).
Proof.
  unfold ceilDiv.
  replace (maxTextures + n + maxTextures - 1)
    with ((n + maxTextures - 1) + 1 * maxTextures) by lia.
  rewrite Nat.div_add by lia. lia.
Qed.

Lemma mod_add_max n : (maxTextures + n) mod maxTextures = n mod maxTextures.
Proof.
  replace (maxTextures + n) with (n + 1 * maxTextures) by lia.
  apply Nat.Div0.mod_add.
Qed.

(** The number of batches is given by [commandCount]. *)
Lemma segments_length fuel : forall rest,
  length rest < fuel ->
  length (segments imageries maxTextures fuel rest)
  = commandCount imageries maxTextures rest.
Proof.
  induction fuel as [|fuel IH]; intros rest Hfuel; [lia|].
  simpl. destruct (takeBatch imageries maxTextures 0 rest)
    as [walked remaining] eqn:Htake.
  pose proof (takeBatch_spec _ _ _ _ (Nat.le_0_l _) Htake)
    as (Hrest & Hle & Hfull & Hlast).
  simpl in Hle, Hfull, Hlast. unfold commandCount.
  destruct remaining as [|ti remaining].
  - rewrite app_nil_r in Hrest. subst walked. simpl.
    case_decide as H0; [done|].
    rewrite ceilDiv_small by lia.
    case_decide as Hextra; [|done].
    destruct Hextra as [Hmod Hnotlast].
    destruct (decide (rc rest = maxTextures)) as [Heq|Hne].
    + rewrite Hlast in Hnotlast by lia. done.
    + rewrite Nat.mod_small in Hmod by lia. lia.
  - specialize (Hfull ltac:(done)).
    assert (Hlen : length (ti :: remaining) < fuel).
    { destruct rest as [|a rest]; [by destruct walked|].
      pose proof (takeBatch_progress _ _ _ _ Htake). simpl in *. lia. }
    simpl. rewrite (IH _ Hlen). unfold commandCount.
    rewrite Hrest, readyCount_app, Hfull, lastIsReady_app by done.
    destruct (decide (maxTextures + rc (ti :: remaining) = 0)) as [?|_]; [lia|].
    rewrite ceilDiv_add, mod_add_max.
    case_decide as H0.
    + rewrite H0, Nat.Div0.mod_0_l.
      rewrite (lastIsReady_false_of_none_ready _ H0).
      rewrite decide_True by done.
      unfold ceilDiv. rewrite Nat.div_small by lia. lia.
    + lia.
Qed.

(** The batches partition the stack. *)
Lemma segments_concat fuel : forall rest,
  length rest < fuel ->
  concat (segments imageries maxTextures fuel rest) = rest.
Proof.
  induction fuel as [|fuel IH]; intros rest Hfuel; [lia|].
  simpl. destruct (takeBatch imageries maxTextures 0 rest)
    as [walked remaining] eqn:Htake.
  pose proof (takeBatch_spec _ _ _ _ (Nat.le_0_l _) Htake) as (Hrest & _).
  destruct remaining as [|ti remaining].
  - simpl. by rewrite Hrest, !app_nil_r.
  - assert (Hlen : length (ti :: remaining) < fuel).
    { destruct rest as [|a rest]; [by destruct walked|].
      pose proof (takeBatch_progress _ _ _ _ Htake). simpl in *. lia. }
    simpl. rewrite (IH _ Hlen). by rewrite Hrest.
Qed.

(** No batch holds more than [maxTextures] READY entries. *)
Lemma segments_bounded fuel : forall rest,
  Forall (fun seg => rc seg <= maxTextures)
    (segments imageries maxTextures fuel rest).
Proof.
  induction fuel as [|fuel IH]; intros rest; [constructor|].
  simpl. destruct (takeBatch imageries maxTextures 0 rest)
    as [walked remaining] eqn:Htake.
  pose proof (takeBatch_spec _ _ _ _ (Nat.le_0_l _) Htake) as (_ & Hle & _).
  constructor; [exact Hle|]. destruct remaining; [constructor|apply IH].
Qed.

End BatchFacts.

(** ** Facts about the command assembler *)

Section AssemblerFacts.
Import Commands.
Variable maxTextures : nat.
Variable tiles : TileStore.
Variable imageries : ImageryStore.
Variable center : TileId -> Handle.
Variable alpha : LayerId -> Handle.
Variable getShaderProgram : nat -> Handle.
Variable sortByDistance : list TileId -> list TileId.
Hypothesis maxTextures_pos : 0 < maxTextures.

Local Abbreviation rc := (readyCount imageries).

(** The inner loop walks what [takeBatch] says and leaves the textures of
    the READY entries at the indices from [n] on. *)
Lemma packDayTextures_spec rest : forall n um walked remaining,
  n <= length (dayTextures um) ->
  takeBatch imageries maxTextures n rest = (walked, remaining) ->
  exists um',
    packDayTextures maxTextures imageries alpha n rest um
    = (n + rc walked, remaining, um')
    /\ n + rc walked <= length (dayTextures um')
    /\ take (n + rc walked) (dayTextures um')
       = take n (dayTextures um) ++ readyTextures imageries walked.
Proof.
  induction rest as [|ti rest IH]; intros n um walked remaining Hn Htake;
    simpl in Htake |- *.
  - injection Htake as <- <-. exists um. rewrite readyCount_nil, Nat.add_0_r.
    repeat split; [done|]. unfold readyTextures. simpl. by rewrite app_nil_r.
  - case_decide as Hlt.
    + destruct (takeBatch imageries maxTextures
                  (if isReady imageries ti then S n else n) rest)
        as [walked' remaining'] eqn:Hrec.
      injection Htake as <- <-. rewrite readyCount_cons.
      unfold readyTextures. rewrite filter_cons.
      destruct (decide (imagery_state (imageries (imagery ti)) = READY))
        as [Hready|Hready].
      * assert (Hir : isReady imageries ti = true)
          by (unfold isReady; by rewrite bool_decide_eq_true_2).
        rewrite Hir in Hrec |- *. rewrite decide_True by done.
        match goal with
        | |- context [packDayTextures _ _ _ _ _ ?m] =>
            destruct (IH (S n) m walked' remaining')
              as (um' & Hpack & Hlen & Htake');
              [simpl; by apply store_length | exact Hrec |]
        end.
        exists um'. rewrite Hpack. cbn [dayTextures] in Htake'.
        rewrite store_take in Htake' by done.
        replace (n + (1 + rc walked')) with (S n + rc walked') by lia.
        repeat split; [done|]. rewrite Htake'. rewrite <-app_assoc. done.
      * assert (Hir : isReady imageries ti = false)
          by (unfold isReady; by rewrite bool_decide_eq_false_2).
        rewrite Hir in Hrec |- *. rewrite decide_False by done.
        edestruct (IH n) as (um' & Hpack & Hlen & Htake'); [exact Hn|exact Hrec|].
        exists um'. rewrite Hpack. simpl. repeat split; done.
    + injection Htake as <- <-. exists um. rewrite readyCount_nil, Nat.add_0_r.
      repeat split; [done|]. unfold readyTextures. simpl. by rewrite app_nil_r.
Qed.

Lemma acquireCommand_spec r0 r k segs :
  Emitted imageries r0 r k segs ->
  exists c u cs us r1,
    acquireCommand k r = (c, r1)
    /\ PoolsOf r1 cs us
    /\ cs !! k = Some c /\ us !! k = Some u
    /\ colorCommandList r1 = colorCommandList r0 ++ take k cs
    /\ colorCommandList r1 = colorCommandList r
    /\ length segs = k
    /\ forall j seg, segs !! j = Some seg ->
         exists c' u', cs !! j = Some c' /\ us !! j = Some u'
           /\ uniformMap (commands r1 c') = Some u'
           /\ dayTextures (uniformMaps r1 u') = readyTextures imageries seg.
Proof.
  intros (cs & us & Hp & Hk & Hlen & Hcl & Hsegs).
  destruct Hp as (Hc & Hu & Hnd_c & Hnd_u & Hb_c & Hb_u & Hle).
  unfold acquireCommand. rewrite Hc, get_fmap_Some.
  destruct (cs !! k) as [c|] eqn:Hck.
  - destruct (lookup_lt_is_Some_2 us k) as [u Hu'].
    { apply lookup_lt_Some in Hck. lia. }
    exists c, u, cs, us, r. repeat split; try done.
  - apply lookup_ge_None_1 in Hck. assert (k = length cs) as Hkeq by lia.
    set (c := nextCommand r). set (u := nextUniformMap r).
    set (us' := if decide (k < length us) then <[k := u]> us else us ++ [u]).
    assert (Hfresh_u : u ∉ us).
    { intros Hin. rewrite Forall_forall in Hb_u. apply Hb_u in Hin.
      unfold u in Hin. lia. }
    assert (Hfresh_c : c ∉ cs).
    { intros Hin. rewrite Forall_forall in Hb_c. apply Hb_c in Hin.
      unfold c in Hin. lia. }
    eexists c, u, (cs ++ [c]), us', _. split; [reflexivity|].
    split; [|split; [|split; [|split; [|split; [|split]]]]].
    + unfold PoolsOf. cbn [_tileCommands _tileCommandUniformMaps nextCommand
                            nextUniformMap].
      split; [|split; [|split; [|split; [|split; [|split]]]]].
      * rewrite Hkeq. apply store_fmap_Some_end.
      * rewrite Hu. unfold us'. case_decide.
        -- by apply store_fmap_Some_lt.
        -- assert (k = length us) as -> by lia. apply store_fmap_Some_end.
      * apply NoDup_app. split; [done|]. split; [|apply NoDup_singleton].
        intros x Hx Hx'. apply list_elem_of_singleton in Hx'. by subst.
      * unfold us'. case_decide.
        -- apply NoDup_alt. intros i j x Hi Hj.
           rewrite list_lookup_insert in Hi, Hj.
           repeat case_decide; simplify_eq; try lia.
           ++ exfalso. apply Hfresh_u. by eapply list_elem_of_lookup_2.
           ++ exfalso. apply Hfresh_u. by eapply list_elem_of_lookup_2.
           ++ by eapply NoDup_lookup.
        -- apply NoDup_app. split; [done|]. split; [|apply NoDup_singleton].
           intros x Hx Hx'. apply list_elem_of_singleton in Hx'. by subst.
      * apply Forall_app. split.
        -- eapply Forall_impl; [exact Hb_c|]. intros; simpl in *; lia.
        -- constructor; [|constructor]. unfold c. lia.
      * assert (Forall (fun x => x < S u) us) as Hb.
        { eapply Forall_impl; [exact Hb_u|]. intros; unfold u; simpl in *; lia. }
        unfold us'. case_decide.
        -- apply Forall_insert; [done|lia].
        -- apply Forall_app. split; [done|]. constructor; [lia|constructor].
      * unfold us'. rewrite length_app. simpl. case_decide.
        -- rewrite length_insert. lia.
        -- rewrite length_app. simpl. lia.
    + by apply list_lookup_middle.
    + unfold us'. case_decide.
      * by apply list_lookup_insert_eq.
      * apply list_lookup_middle. lia.
    + cbn [colorCommandList]. rewrite Hcl. f_equal.
      rewrite Hkeq, take_app_length. by rewrite take_ge.
    + done.
    + done.
    + intros j seg Hj. pose proof (lookup_lt_Some _ _ _ Hj) as Hjk.
      destruct (Hsegs j seg Hj) as (c' & u' & Hc' & Hu' & Hum & Hday).
      exists c', u'. cbn [commands uniformMaps].
      split; [|split; [|split]].
      * rewrite lookup_app_l; [done|lia].
      * unfold us'. case_decide.
        -- rewrite list_lookup_insert_ne by lia. done.
        -- rewrite lookup_app_l; [done|]. by eapply lookup_lt_Some.
      * rewrite fn_lookup_insert_ne; [done|].
        intros <-. apply Hfresh_c. by eapply list_elem_of_lookup_2.
      * rewrite fn_lookup_insert_ne; [done|].
        intros <-. apply Hfresh_u. by eapply list_elem_of_lookup_2.
Qed.

(** One batch: the next command of the pool is emitted, and its uniform map
    holds exactly the READY textures of the entries the batch walked. *)
Lemma emitBatch_spec shader tile rest walked remaining r0 r k segs :
  Emitted imageries r0 r k segs ->
  takeBatch imageries maxTextures 0 rest = (walked, remaining) ->
  exists r',
    emitBatch maxTextures tiles imageries center alpha shader tile rest
      (Z.of_nat k - 1) r
    = Returned ((Z.of_nat (S k) - 1)%Z, remaining, r')
    /\ Emitted imageries r0 r' (S k) (segs ++ [walked])
    /\ exists news, colorCommandList r' = colorCommandList r ++ news.
Proof.
  intros Hem Htake. unfold emitBatch.
  replace (Z.of_nat k - 1 + 1)%Z with (Z.of_nat k) by lia.
  rewrite Nat2Z.id.
  destruct (acquireCommand_spec _ _ _ _ Hem)
    as (c & u & cs & us & r1 & -> & Hp & Hck & Huk & Hcl & Hsame & Hlen & Hsegs).
  pose proof Hp as (Hc & Hu & Hnd_c & Hnd_u & Hb_c & Hb_u & Hle).
  rewrite Hu, get_fmap_Some, Huk.
  match goal with
  | |- context [packDayTextures _ _ _ 0 rest ?m] =>
      destruct (packDayTextures_spec rest 0 m walked remaining)
        as (um' & Hpack & Hlen' & Htake'); [lia | exact Htake |]
  end.
  rewrite Hpack. eexists. split.
  { do 2 f_equal. f_equal. lia. }
  split; [|exists [c]; cbn [colorCommandList]; by rewrite Hsame].
  exists cs, us. split.
  { unfold PoolsOf. cbn [_tileCommands _tileCommandUniformMaps nextCommand
                          nextUniformMap]. repeat split; done. }
  pose proof (lookup_lt_Some _ _ _ Hck) as Hklt.
  split; [lia|]. split; [rewrite length_app; simpl; lia|].
  split.
  { cbn [colorCommandList]. rewrite Hcl, <-app_assoc.
    by rewrite (take_S_r _ _ _ Hck). }
  intros j seg Hj. cbn [commands uniformMaps].
  apply lookup_app_Some in Hj as [Hj|[Hge Hj]].
  - destruct (Hsegs j seg Hj) as (c' & u' & Hc' & Hu' & Hum & Hday).
    pose proof (lookup_lt_Some _ _ _ Hj) as Hjk.
    exists c', u'. split; [done|]. split; [done|].
    rewrite !fn_lookup_insert_ne; [done| |].
    + intros <-. pose proof (NoDup_lookup _ _ _ _ Hnd_u Huk Hu'). lia.
    + intros <-. pose proof (NoDup_lookup _ _ _ _ Hnd_c Hck Hc'). lia.
  - assert (j = k) as -> by (apply lookup_lt_Some in Hj; simpl in Hj; lia).
    rewrite Hlen, Nat.sub_diag in Hj. injection Hj as <-.
    exists c, u. split; [done|]. split; [done|].
    rewrite !fn_lookup_insert. split; [done|]. cbn [dayTextures].
    rewrite setLength_take by done. by rewrite Htake'.
Qed.

(** The batches of one tile. *)
Lemma batchLoop_spec shader tile r0 fuel : forall rest r k segs,
  length rest < fuel ->
  Emitted imageries r0 r k segs ->
  let batches := segments imageries maxTextures fuel rest in
  exists r',
    batchLoop maxTextures tiles imageries center alpha fuel shader tile rest
      (Z.of_nat k - 1) r
    = Returned ((Z.of_nat (k + length batches) - 1)%Z, r')
    /\ Emitted imageries r0 r' (k + length batches) (segs ++ batches)
    /\ exists news, colorCommandList r' = colorCommandList r ++ news.
Proof.
  induction fuel as [|fuel IH]; intros rest r k segs Hfuel Hem; [lia|].
  simpl. destruct (takeBatch imageries maxTextures 0 rest)
    as [walked remaining] eqn:Htake.
  destruct (emitBatch_spec shader tile _ _ _ _ _ _ _ Hem Htake)
    as (r1 & -> & Hem1 & news1 & Hnews1).
  destruct remaining as [|ti remaining].
  - exists r1. simpl. replace (k + 1) with (S k) by lia. eauto.
  - assert (Hlen : length (ti :: remaining) < fuel).
    { destruct rest as [|a rest]; [done|].
      pose proof (takeBatch_progress _ _ maxTextures_pos _ _ _ _ Htake).
      simpl in *. lia. }
    destruct (IH _ _ _ _ Hlen Hem1) as (r' & Hloop & Hem' & news & Hnews).
    exists r'. cbn zeta in Hloop, Hem'. simpl length.
    replace (k + S (length (segments imageries maxTextures fuel (ti :: remaining))))
      with (S k + length (segments imageries maxTextures fuel (ti :: remaining)))
      by lia.
    split; [exact Hloop|]. split; [by rewrite <-app_assoc in Hem'|].
    exists (news1 ++ news). by rewrite Hnews, Hnews1, app_assoc.
Qed.

Local Abbreviation tileSegments :=
  (Commands.tileSegments tiles imageries maxTextures).

Lemma renderTiles_spec shader r0 tileSet : forall r k segs,
  Emitted imageries r0 r k segs ->
  let batches := tileSet ≫= tileSegments in
  exists r',
    renderTiles maxTextures tiles imageries center alpha shader tileSet
      (Z.of_nat k - 1) r
    = Returned ((Z.of_nat (k + length batches) - 1)%Z, r')
    /\ Emitted imageries r0 r' (k + length batches) (segs ++ batches)
    /\ exists news, colorCommandList r' = colorCommandList r ++ news.
Proof.
  induction tileSet as [|tile tileSet IH]; intros r k segs Hem; simpl.
  - exists r. rewrite Nat.add_0_r, app_nil_r. repeat split; [done|].
    exists []. by rewrite app_nil_r.
  - unfold renderTile.
    destruct (batchLoop_spec shader tile r0 _ (tile_imagery (tiles tile)) _ _ _
                (Nat.lt_succ_diag_r _) Hem) as (r1 & -> & Hem1 & news1 & Hnews1).
    destruct (IH _ _ _ Hem1) as (r' & -> & Hem' & news & Hnews).
    exists r'. cbn zeta in Hem'. rewrite length_app.
    fold (Commands.tileSegments tiles imageries maxTextures tile).
    rewrite Nat.add_assoc.
    split; [done|]. split; [by rewrite app_assoc|].
    exists (news1 ++ news). by rewrite Hnews, Hnews1, app_assoc.
Qed.

Lemma renderTileSets_spec r0 tileSets : forall tileSetIndex r k segs,
  Emitted imageries r0 r k segs ->
  let batches := renderOrder sortByDistance tileSets ≫= tileSegments in
  exists r',
    renderTileSets maxTextures tiles imageries center alpha getShaderProgram
      sortByDistance tileSetIndex tileSets (Z.of_nat k - 1) r
    = Returned ((Z.of_nat (k + length batches) - 1)%Z, r')
    /\ Emitted imageries r0 r' (k + length batches) (segs ++ batches)
    /\ exists news, colorCommandList r' = colorCommandList r ++ news.
Proof.
  induction tileSets as [|tileSet tileSets IH]; intros tileSetIndex r k segs Hem.
  - exists r. simpl. rewrite Nat.add_0_r, app_nil_r. repeat split; [done|].
    exists []. by rewrite app_nil_r.
  - unfold renderOrder. rewrite bind_cons. fold (renderOrder sortByDistance tileSets).
    simpl renderTileSets.
    destruct tileSet as [[|tile tileSet]|].
    + simpl. apply IH, Hem.
    + destruct (renderTiles_spec (getShaderProgram tileSetIndex) r0
                  (sortByDistance (tile :: tileSet)) _ _ _ Hem)
        as (r1 & -> & Hem1 & news1 & Hnews1).
      destruct (IH (S tileSetIndex) _ _ _ Hem1) as (r' & -> & Hem' & news & Hnews).
      exists r'. cbn zeta in Hem'. rewrite bind_app, length_app, Nat.add_assoc.
      split; [done|]. split; [by rewrite app_assoc|].
      exists (news1 ++ news). by rewrite Hnews, Hnews1, app_assoc.
    + simpl. apply IH, Hem.
Qed.

Lemma Emitted_start r : WellFormed r -> Emitted imageries r r 0 [].
Proof.
  intros (cs & us & Hp). exists cs, us.
  split; [exact Hp|]. split; [lia|]. split; [done|].
  split; [by rewrite app_nil_r|].
  intros j seg Hj. by rewrite lookup_nil in Hj.
Qed.

(** The commands emitted between two states of one call refer to uniform
    maps whose [dayTextures] are the READY textures of the runs walked. *)
Lemma Emitted_since r0 r r' k segs batches news :
  Emitted imageries r0 r k segs ->
  Emitted imageries r0 r' (k + length batches) (segs ++ batches) ->
  colorCommandList r' = colorCommandList r ++ news ->
  dayTexturesOf r' <$> news = readyTextures imageries <$> batches.
Proof.
  intros (cs & us & _ & Hk & Hlen & Hcl & _).
  intros (cs' & us' & _ & Hk' & _ & Hcl' & Hsegs') Hnews.
  rewrite Hcl, Hcl', <-app_assoc in Hnews.
  apply app_inv_head in Hnews.
  assert (Hnews' : news = drop k (take (k + length batches) cs')).
  { rewrite Hnews, drop_app_length'; [done|].
    rewrite length_take. lia. }
  apply list_eq. intros j. rewrite !list_lookup_fmap, Hnews', lookup_drop.
  destruct (batches !! j) as [seg|] eqn:Hj.
  - pose proof (lookup_lt_Some _ _ _ Hj) as Hjn.
    destruct (Hsegs' (k + j) seg) as (c & u & Hc & Hu & Hum & Hday).
    { rewrite lookup_app_r by lia. by rewrite Hlen, Nat.add_comm, Nat.add_sub. }
    rewrite lookup_take_lt by lia. rewrite Hc. simpl.
    unfold dayTexturesOf. by rewrite Hum, Hday.
  - apply lookup_ge_None_1 in Hj.
    rewrite lookup_take_ge by lia. done.
Qed.

End AssemblerFacts.

(** ** The command assembler: the claims *)

Lemma WellFormed_emptyRenderer : Commands.WellFormed Commands.emptyRenderer.
Proof.
  exists [], []. unfold Commands.PoolsOf. simpl.
  repeat split; constructor.
Qed.

Lemma concat_tileSegments tiles imageries maxTextures (order : list TileId) :
  0 < maxTextures ->
  concat (order ≫= Commands.tileSegments tiles imageries maxTextures)
  = order ≫= (fun tile => tile_imagery (tiles tile)).
Proof.
  intros Hpos. induction order as [|tile order IH]; [done|].
  rewrite !bind_cons, concat_app, IH. f_equal.
  unfold Commands.tileSegments. apply segments_concat; [done|lia].
Qed.

(** C5 (counterexample): with two texture units, a tile whose stack is two
    READY entries followed by one that is not READY gets two commands, the
    second without any texture, where [ceil (2 / 2)] is one. *)
Lemma renderTile_emits_an_extra_command :
  ~ (Commands.emittedCount Commands.emptyRenderer
       (Commands.renderTile 2
          (Commands.sampleTiles
             [Commands.sampleEntry 0; Commands.sampleEntry 1;
              Commands.sampleEntry 10])
          Commands.sampleImageries (fun _ => 0) (fun _ => 0) 0
          (mkTileId 0 0 0) (-1) Commands.emptyRenderer)
     = Some (Commands.specCommandCount Commands.sampleImageries 2
               [Commands.sampleEntry 0; Commands.sampleEntry 1;
                Commands.sampleEntry 10])).
Proof. vm_compute. discriminate. Qed.

(** C5 (amended): for a tile reached with [k] commands already emitted in
    the call, and at least one texture unit, the batch loop returns; it emits
    [commandCount] commands: one when no entry is READY, otherwise
    [ceil (readyCount / maxTextures)], and one more when [readyCount] is a
    multiple of [maxTextures] and the stack does not end with a READY entry.
    No command holds more than [maxTextures] textures, and the textures of
    the commands, in order, are those of the READY entries of the stack, in
    order. *)
Theorem renderTile_command_count :
  forall (maxTextures : nat) (tiles : TileStore) (imageries : ImageryStore)
         (center : TileId -> Handle) (alpha : LayerId -> Handle)
         (shader : Handle) (tile : TileId) (r0 r : Commands.Renderer)
         (k : nat) (segs : list (list TileImagery)),
    0 < maxTextures ->
    Commands.Emitted imageries r0 r k segs ->
    let stack := tile_imagery (tiles tile) in
    let n := Commands.commandCount imageries maxTextures stack in
    exists r',
      Commands.renderTile maxTextures tiles imageries center alpha shader tile
        (Z.of_nat k - 1) r
      = Returned ((Z.of_nat (k + n) - 1)%Z, r')
      /\ length (Commands.emittedSince r r') = n
      /\ Forall (fun c => length (Commands.dayTexturesOf r' c) <= maxTextures)
           (Commands.emittedSince r r')
      /\ concat (Commands.dayTexturesOf r' <$> Commands.emittedSince r r')
         = Commands.readyTextures imageries stack.
Proof.
  intros maxTextures tiles imageries center alpha shader tile r0 r k segs
    Hpos Hem stack n.
  destruct (batchLoop_spec maxTextures tiles imageries center alpha Hpos
              shader tile r0 (S (length stack)) stack r k segs
              (Nat.lt_succ_diag_r _) Hem) as (r' & Hrun & Hem' & news & Hnews).
  cbn zeta in Hrun, Hem'.
  pose proof (segments_length imageries maxTextures Hpos (S (length stack))
                stack (Nat.lt_succ_diag_r _)) as Hcount.
  fold n in Hcount.
  pose proof (Emitted_since maxTextures imageries Hpos _ _ _ _ _ _ _ Hem Hem'
                Hnews) as Hday.
  assert (Hsince : Commands.emittedSince r r' = news).
  { unfold Commands.emittedSince. by rewrite Hnews, drop_app_length. }
  exists r'. rewrite Hsince. rewrite Hcount in Hrun.
  split; [exact Hrun|].
  split; [by rewrite <-(length_fmap (Commands.dayTexturesOf r')), Hday,
            length_fmap|].
  split.
  - change (Forall ((fun x => length x <= maxTextures)
                      ∘ Commands.dayTexturesOf r') news).
    apply Forall_fmap. rewrite Hday. apply Forall_fmap.
    eapply Forall_impl; [apply (segments_bounded imageries maxTextures Hpos)|].
    intros seg Hseg. simpl. by rewrite readyTextures_length.
  - rewrite Hday, readyTextures_concat.
    by rewrite segments_concat by (done || lia).
Qed.

(** The amended count at the stack of the counterexample: two commands. *)
Lemma renderTile_command_count_witness :
  0 < 2
  /\ Commands.Emitted Commands.sampleImageries Commands.emptyRenderer
       Commands.emptyRenderer 0 []
  /\ exists r',
       Commands.renderTile 2
         (Commands.sampleTiles
            [Commands.sampleEntry 0; Commands.sampleEntry 1;
             Commands.sampleEntry 10])
         Commands.sampleImageries (fun _ => 0) (fun _ => 0) 0
         (mkTileId 0 0 0) (-1) Commands.emptyRenderer
       = Returned (1%Z, r')
       /\ length (Commands.emittedSince Commands.emptyRenderer r') = 2.
Proof.
  assert (Hpos : 0 < 2) by lia.
  pose proof (Emitted_start 2 Commands.sampleImageries Hpos _
                WellFormed_emptyRenderer) as Hem.
  split; [exact Hpos|]. split; [exact Hem|].
  destruct (renderTile_command_count 2
              (Commands.sampleTiles
                 [Commands.sampleEntry 0; Commands.sampleEntry 1;
                  Commands.sampleEntry 10])
              Commands.sampleImageries (fun _ => 0) (fun _ => 0) 0
              (mkTileId 0 0 0) _ _ 0 [] Hpos Hem)
    as (r' & Hrun & Hlen & _).
  exists r'. split; [exact Hrun|exact Hlen].
Defined.

(** C6 (as the code behaves): on a new surface, one selected tile without
    imagery gives one command on [colorCommandList], and the pool is then
    cut to length [max 0 0 = 0]: the command just emitted is dropped from
    it. *)
Lemma tileCommands_pool_drops_last_command :
  exists r',
    Commands.createRenderCommandsForSelectedTiles 2 (Commands.sampleTiles [])
      Commands.sampleImageries (fun _ => 0) (fun _ => 0) (fun n => n)
      (fun tileSet => tileSet) [Some [mkTileId 0 0 0]] Commands.emptyRenderer
    = Returned r'
    /\ Commands.colorCommandList r' = [0]
    /\ Commands._tileCommands r' = [].
Proof. eexists. split; [reflexivity|]. split; reflexivity. Qed.

(** C10: when the assembler runs on well-formed pools, whatever their uniform
    maps held before, it returns, and the stacks of the tiles it visited, in
    order, split into runs, one per command emitted, such that the
    [dayTextures] array of the command's uniform map is exactly the textures
    of the READY entries of its run; its length is the number of those
    entries, and at most [maxTextures]. *)
Theorem dayTextures_hold_exactly_the_batch :
  forall (maxTextures : nat) (tiles : TileStore) (imageries : ImageryStore)
         (center : TileId -> Handle) (alpha : LayerId -> Handle)
         (getShaderProgram : nat -> Handle)
         (sortByDistance : list TileId -> list TileId)
         (tileSets : list (option (list TileId))) (r : Commands.Renderer),
    0 < maxTextures ->
    Commands.WellFormed r ->
    exists r' runs,
      Commands.createRenderCommandsForSelectedTiles maxTextures tiles
        imageries center alpha getShaderProgram sortByDistance tileSets r
      = Returned r'
      /\ concat runs
         = Commands.renderOrder sortByDistance tileSets
             ≫= (fun tile => tile_imagery (tiles tile))
      /\ Forall2
           (fun c run =>
              Commands.dayTexturesOf r' c = Commands.readyTextures imageries run
              /\ length (Commands.dayTexturesOf r' c)
                 = Commands.readyCount imageries run
              /\ Commands.readyCount imageries run <= maxTextures)
           (Commands.emittedSince r r') runs.
Proof.
  intros maxTextures tiles imageries center alpha getShaderProgram
    sortByDistance tileSets r Hpos Hwf.
  pose proof (Emitted_start maxTextures imageries Hpos r Hwf) as Hem.
  destruct (renderTileSets_spec maxTextures tiles imageries center alpha
              getShaderProgram sortByDistance Hpos r tileSets 0 r 0 [] Hem)
    as (r1 & Hrun & Hem' & news & Hnews).
  cbn zeta in Hrun, Hem'. simpl in Hrun, Hem'.
  set (runs := Commands.renderOrder sortByDistance tileSets
                 ≫= Commands.tileSegments tiles imageries maxTextures) in *.
  pose proof (Emitted_since maxTextures imageries Hpos r r r1 0 [] runs news
                Hem Hem' Hnews) as Hday.
  unfold Commands.createRenderCommandsForSelectedTiles.
  change (-1)%Z with (Z.of_nat 0 - 1)%Z. rewrite Hrun.
  eexists _, runs. split; [reflexivity|].
  split; [by apply concat_tileSegments|].
  unfold Commands.emittedSince. cbn [Commands.colorCommandList].
  rewrite Hnews, drop_app_length.
  assert (Hbound : Forall (fun run => Commands.readyCount imageries run
                                      <= maxTextures) runs).
  { unfold runs. apply Forall_bind. apply Forall_forall. intros tile _.
    simpl. by apply segments_bounded. }
  clear -Hday Hbound. revert news Hday.
  induction runs as [|run runs IH]; intros [|c news] Hday; try done.
  simpl in Hday. injection Hday as Hc Hrest.
  apply Forall_cons in Hbound as [Hrun Hbound].
  constructor; [|by apply IH].
  unfold Commands.dayTexturesOf in *. cbn [Commands.commands Commands.uniformMaps].
  rewrite Hc. by rewrite readyTextures_length.
Qed.

(** The claim on pools that still hold the uniform map of an earlier frame
    with three stale textures: the command emitted for a tile with a single
    READY entry has a [dayTextures] array of length one. *)
Definition staleRenderer : Commands.Renderer :=
  {| Commands.commands := fun _ => Commands.newCommand;
     Commands.nextCommand := 1;
     Commands.uniformMaps := fun _ =>
       {| Commands.center3D := None;
          Commands.dayTextures := [Some 7; Some 8; Some 9];
          Commands.dayTextureTranslationAndScale := [];
          Commands.dayTextureTexCoordsExtent := [];
          Commands.dayTextureAlpha := [] |};
     Commands.nextUniformMap := 1;
     Commands._tileCommands := [Some 0];
     Commands._tileCommandUniformMaps := [Some 0];
     Commands.colorCommandList := [] |}.

Lemma WellFormed_staleRenderer : Commands.WellFormed staleRenderer.
Proof.
  exists [0], [0]. unfold Commands.PoolsOf. simpl.
  repeat split; repeat constructor; set_solver.
Qed.

Lemma dayTextures_hold_exactly_the_batch_witness :
  0 < 2
  /\ Commands.WellFormed staleRenderer
  /\ exists r' runs,
       Commands.createRenderCommandsForSelectedTiles 2
         (Commands.sampleTiles [Commands.sampleEntry 0])
         Commands.sampleImageries (fun _ => 0) (fun _ => 0) (fun n => n)
         (fun tileSet => tileSet) [None; Some [mkTileId 0 0 0]] staleRenderer
       = Returned r'
       /\ Forall2
            (fun c run =>
               Commands.dayTexturesOf r' c
               = Commands.readyTextures Commands.sampleImageries run
               /\ length (Commands.dayTexturesOf r' c)
                  = Commands.readyCount Commands.sampleImageries run
               /\ Commands.readyCount Commands.sampleImageries run <= 2)
            (Commands.emittedSince staleRenderer r') runs.
Proof.
  assert (Hpos : 0 < 2) by lia.
  split; [exact Hpos|]. split; [exact WellFormed_staleRenderer|].
  destruct (dayTextures_hold_exactly_the_batch 2
              (Commands.sampleTiles [Commands.sampleEntry 0])
              Commands.sampleImageries (fun _ => 0) (fun _ => 0) (fun n => n)
              (fun tileSet => tileSet) [None; Some [mkTileId 0 0 0]]
              staleRenderer Hpos WellFormed_staleRenderer)
    as (r' & runs & Hrun & _ & Hall).
  exists r', runs. split; [exact Hrun|exact Hall].
Defined.

(** ** Facts about the load pump *)

Section PumpFacts.
Import Engine.
Variable c : Collaborators.
Variable walk : nat.

Lemma SameFlags_refl s : SameFlags s s.
Proof. split; [done|]. by intros t. Qed.

Lemma SameFlags_trans s1 s2 s3 :
  SameFlags s1 s2 -> SameFlags s2 s3 -> SameFlags s1 s3.
Proof.
  intros [Hq1 H1] [Hq2 H2]. split; [congruence|]. intros t.
  destruct (H1 t) as (? & ? & ?), (H2 t) as (? & ? & ?).
  repeat split; congruence.
Qed.

Lemma tiles_updateTile f tile s t :
  tiles (updateTile f tile s) t
  = if decide (tile = t) then f (tiles s tile) else tiles s t.
Proof.
  unfold updateTile. cbn [tiles setTiles]. unfold alter, fn_alter.
  case_decide; by subst.
Qed.

(** An update of a tile that keeps its flags and terrain state. *)
Lemma SameFlags_updateTile f tile s :
  (forall t, renderable (f t) = renderable t
             /\ doneLoading (f t) = doneLoading t
             /\ tile_state (f t) = tile_state t) ->
  SameFlags s (updateTile f tile s).
Proof.
  intros Hf. split; [done|]. intros t. rewrite tiles_updateTile.
  case_decide; [subst; apply Hf|done].
Qed.

Lemma SameFlags_updateEntry f tile i s : SameFlags s (updateEntry f tile i s).
Proof. apply SameFlags_updateTile. by intros t. Qed.

Lemma SameFlags_setImageries v s : SameFlags s (setImageries v s).
Proof. split; [done|]. by intros t. Qed.

Lemma imageries_updateTile f tile s :
  imageries (updateTile f tile s) = imageries s.
Proof. reflexivity. Qed.

Lemma state_setImageryState img st s x :
  imagery_state (imageries (setImageryState img st s) x)
  = if decide (img = x) then st else imagery_state (imageries s x).
Proof.
  unfold setImageryState. cbn [imageries setImageries].
  unfold alter, fn_alter. case_decide; by subst.
Qed.

Lemma tiles_setImageryState img st s : tiles (setImageryState img st s) = tiles s.
Proof. reflexivity. Qed.

Lemma state_addReference p s x :
  imagery_state (imageries (addReference p s) x) = imagery_state (imageries s x).
Proof.
  unfold addReference. cbn [imageries setImageries].
  unfold alter, fn_alter. case_decide; by subst.
Qed.

Lemma state_releaseReference p s x :
  imagery_state (imageries (releaseReference p s) x)
  = imagery_state (imageries s x).
Proof.
  unfold releaseReference. cbn [imageries setImageries].
  unfold alter, fn_alter. case_decide; by subst.
Qed.

(** The requests change no tile, and no imagery that is READY. *)
Lemma advanceImagery_tiles img s :
  tiles (advanceImagery c img s) = tiles s
  /\ _tileLoadQueue (advanceImagery c img s) = _tileLoadQueue s.
Proof. unfold advanceImagery. by repeat case_decide. Qed.

Lemma advanceImagery_ready img s x :
  imagery_state (imageries s x) = READY ->
  imagery_state (imageries (advanceImagery c img s) x) = READY.
Proof.
  intros Hx. unfold advanceImagery.
  destruct (decide (img = x)) as [->|Hne].
  - destruct (decide (imagery_state (imageries s x) = UNLOADED)) as [H|_];
      [rewrite Hx in H; discriminate|].
    destruct (decide (imagery_state (imageries s x) = RECEIVED)) as [H|_];
      [rewrite Hx in H; discriminate|].
    destruct (decide (imagery_state (imageries s x) = TEXTURE_LOADED)) as [H|_];
      [rewrite Hx in H; discriminate|].
    exact Hx.
  - repeat (case_decide;
            rewrite ?state_setImageryState, ?decide_False by done);
      exact Hx.
Qed.

Local Abbreviation stack s tile := (tile_imagery (tiles s tile)).

Lemma stack_updateEntry f tile i s :
  stack (updateEntry f tile i s) tile = alter f i (stack s tile).
Proof.
  unfold updateEntry. rewrite tiles_updateTile. by rewrite decide_True.
Qed.

Lemma imageries_updateEntry f tile i s :
  imageries (updateEntry f tile i s) = imageries s.
Proof. reflexivity. Qed.

Lemma stack_addReference p s tile :
  stack (addReference p s) tile = stack s tile.
Proof. reflexivity. Qed.

Lemma finishEntry_spec tile i img s s' r :
  finishEntry c tile i img s = (s', r) ->
  SameFlags s s'
  /\ imageries s' = imageries s
  /\ length (stack s' tile) = length (stack s tile)
  /\ (forall j, j <> i -> stack s' tile !! j = stack s tile !! j)
  /\ imagery <$> stack s' tile !! i = imagery <$> stack s tile !! i
  /\ r = Processed false
           (bool_decide (imagery_state (imageries s img) = READY))
           (imagery_state (imageries s img)).
Proof.
  unfold finishEntry. intros Heq. injection Heq as <- <-.
  destruct (stack s tile !! i) as [ti|] eqn:Hi.
  2:{ rewrite Hi. repeat split; first [done | apply SameFlags_refl]. }
  destruct (bool_decide (imagery_state (imageries s img) = READY)
            && bool_decide (textureTranslationAndScale ti = None)).
  - split; [apply SameFlags_updateEntry|]. split; [done|].
    rewrite stack_updateEntry. split; [apply length_alter|].
    split; [intros j Hj; by apply list_lookup_alter_ne|].
    split; [|done]. rewrite list_lookup_alter_eq, Hi. done.
  - rewrite Hi. repeat split; first [done | apply SameFlags_refl].
Qed.

Lemma findAncestor_not_failed imgs fuel parent p :
  findAncestor imgs fuel parent = Returned (Some p) ->
  isFailedOrInvalid (imagery_state (imgs p)) = false.
Proof.
  revert parent. induction fuel as [|fuel IH]; intros [q|] Hfind;
    simpl in Hfind; try done.
  - destruct (isFailedOrInvalid (imagery_state (imgs q))) eqn:Hq; [done|].
    by injection Hfind as ->.
  - destruct (isFailedOrInvalid (imagery_state (imgs q))) eqn:Hq.
    + by eapply IH.
    + by injection Hfind as ->.
Qed.

(** With fuel for the failed ancestors before it, the walk stops at the
    nearest ancestor that is neither failed nor invalid. *)
Lemma findAncestor_nearest imgs fuel : forall parent n p,
  NearestUsable imgs parent n p ->
  n <= fuel ->
  findAncestor imgs fuel parent = Returned (Some p).
Proof.
  induction fuel as [|fuel IH]; intros parent n p (Hnth & Hok & Hbefore) Hn.
  - assert (n = 0) as -> by lia. simpl in Hnth. subst parent. simpl.
    by rewrite Hok.
  - destruct n as [|n].
    + simpl in Hnth. subst parent. simpl. by rewrite Hok.
    + destruct (Hbefore 0 ltac:(lia)) as (q & Hq & Hfailed).
      simpl in Hq. subst parent. simpl. rewrite Hfailed.
      apply (IH _ n); [|lia].
      split; [exact Hnth|]. split; [exact Hok|].
      intros k Hk. destruct (Hbefore (S k) ltac:(lia)) as (q' & Hq' & Hf').
      by exists q'.
Qed.

(** With fuel for the whole chain, the walk along a chain of failed
    ancestors that ends answers [undefined]. *)
Lemma findAncestor_exhausted imgs fuel : forall parent n,
  nthAncestor imgs n parent = None ->
  FailedBefore imgs parent n ->
  n <= fuel ->
  findAncestor imgs fuel parent = Returned None.
Proof.
  induction fuel as [|fuel IH]; intros parent n Hnth Hbefore Hn.
  - assert (n = 0) as -> by lia. simpl in Hnth. by subst parent.
  - destruct n as [|n]; [simpl in Hnth; by subst parent|].
    destruct (Hbefore 0 ltac:(lia)) as (q & Hq & Hfailed).
    simpl in Hq. subst parent. simpl. rewrite Hfailed.
    apply (IH _ n); [exact Hnth| |lia].
    intros k Hk. destruct (Hbefore (S k) ltac:(lia)) as (q' & Hq' & Hf').
    by exists q'.
Qed.

(** The walk runs out of fuel only behind [fuel + 1] failed ancestors. *)
Lemma findAncestor_Diverges imgs fuel : forall parent,
  findAncestor imgs fuel parent = Diverges ->
  FailedBefore imgs parent (S fuel).
Proof.
  induction fuel as [|fuel IH]; intros [q|] Hfind; simpl in Hfind; try done.
  - destruct (isFailedOrInvalid (imagery_state (imgs q))) eqn:Hq; [|done].
    intros k Hk. assert (k = 0) as -> by lia. by exists q.
  - destruct (isFailedOrInvalid (imagery_state (imgs q))) eqn:Hq; [|done].
    intros [|k] Hk; [by exists q|].
    destruct (IH _ Hfind k ltac:(lia)) as (q' & Hq' & Hf'). by exists q'.
Qed.

(** More fuel does not change the answer of a walk that ended. *)
Lemma findAncestor_mono imgs fuel : forall fuel' parent r,
  findAncestor imgs fuel parent = Returned r ->
  fuel <= fuel' ->
  findAncestor imgs fuel' parent = Returned r.
Proof.
  induction fuel as [|fuel IH]; intros fuel' [q|] r Hfind Hle;
    simpl in Hfind.
  - destruct (isFailedOrInvalid (imagery_state (imgs q))) eqn:Hq; [done|].
    destruct fuel'; simpl; by rewrite Hq.
  - by destruct fuel'.
  - destruct fuel' as [|fuel']; [lia|]. simpl.
    destruct (isFailedOrInvalid (imagery_state (imgs q))) eqn:Hq; [|done].
    apply IH; [done|lia].
  - by destruct fuel'.
Qed.

(** Behind [S fuel] failed ancestors the walk runs out of fuel. *)
Lemma findAncestor_out_of_fuel imgs fuel : forall parent,
  FailedBefore imgs parent (S fuel) ->
  findAncestor imgs fuel parent = Diverges.
Proof.
  induction fuel as [|fuel IH]; intros parent Hbefore;
    destruct (Hbefore 0 ltac:(lia)) as (q & Hq & Hfailed);
    simpl in Hq; subst parent; simpl; rewrite Hfailed; [done|].
  apply IH. intros k Hk.
  destruct (Hbefore (S k) ltac:(lia)) as (q' & Hq' & Hf'). by exists q'.
Qed.

Lemma nthAncestor_add imgs k : forall m parent,
  nthAncestor imgs (k + m) parent
  = nthAncestor imgs m (nthAncestor imgs k parent).
Proof.
  induction k as [|k IH]; intros m [q|]; simpl; [done|done|apply IH|].
  by destruct m.
Qed.

(** Among [S n] numbers below [n] two are equal. *)
Lemma pigeonhole_below (f : nat -> nat) n :
  (forall k, k <= n -> f k < n) ->
  exists i j, i < j /\ j <= n /\ f i = f j.
Proof.
  intros Hbelow.
  destruct (decide (Exists (fun i =>
                      Exists (fun j => i < j /\ f i = f j) (seq 0 (S n)))
                      (seq 0 (S n)))) as [Hex|Hnone].
  - apply Exists_exists in Hex as (i & _ & Hex).
    apply Exists_exists in Hex as (j & Hj & Hlt & Heq).
    apply elem_of_seq in Hj. exists i, j. split; [done|]. split; [lia|done].
  - exfalso.
    assert (Hnodup : NoDup (f <$> seq 0 (S n))).
    { apply NoDup_fmap_2_strong; [|apply NoDup_seq].
      intros i j Hi Hj Heq.
      destruct (decide (i = j)) as [|Hne]; [done|]. exfalso. apply Hnone.
      destruct (decide (i < j)).
      - apply Exists_exists. exists i. split; [done|].
        apply Exists_exists. by exists j.
      - apply Exists_exists. exists j. split; [done|].
        apply Exists_exists. exists i. split; [done|]. split; [lia|done]. }
    assert (Hincl : f <$> seq 0 (S n) ⊆ seq 0 n).
    { intros y Hy. apply list_elem_of_fmap in Hy as (k & -> & Hk).
      apply elem_of_seq in Hk. apply elem_of_seq.
      pose proof (Hbelow k ltac:(lia)). lia. }
    pose proof (submseteq_length _ _ (NoDup_submseteq _ _ Hnodup Hincl))
      as Hlen.
    rewrite length_fmap, !length_seq in Hlen. lia.
Qed.

(** The answer [Diverges] is exact when the fuel is at least the number of
    [Imagery] objects: if the ancestors are among [n] objects and the walk
    runs out of a fuel of [n] or more, the chain of failed ancestors turns
    back on itself and the walk runs out of any fuel, as the loop of the
    source never ends. *)
Lemma findAncestor_Diverges_exact imgs n fuel parent :
  (forall k q, nthAncestor imgs k parent = Some q -> q < n) ->
  n <= fuel ->
  findAncestor imgs fuel parent = Diverges ->
  forall fuel', findAncestor imgs fuel' parent = Diverges.
Proof.
  intros Hbelow Hfuel Hdiv.
  pose proof (findAncestor_Diverges _ _ _ Hdiv) as Hbefore.
  set (f := fun k => default 0 (nthAncestor imgs k parent)).
  destruct (pigeonhole_below f n) as (i & j & Hij & Hj & Heq).
  { intros k Hk. destruct (Hbefore k ltac:(lia)) as (q & Hq & _).
    unfold f. rewrite Hq. simpl. by apply (Hbelow k). }
  assert (Hcycle : nthAncestor imgs i parent = nthAncestor imgs j parent).
  { destruct (Hbefore i ltac:(lia)) as (qi & Hqi & _).
    destruct (Hbefore j ltac:(lia)) as (qj & Hqj & _).
    unfold f in Heq. rewrite Hqi, Hqj in Heq. simpl in Heq.
    by rewrite Hqi, Hqj, Heq. }
  assert (Hall : forall k, exists q,
            nthAncestor imgs k parent = Some q
            /\ isFailedOrInvalid (imagery_state (imgs q)) = true).
  { induction k as [k IH] using lt_wf_ind.
    destruct (decide (k < j)) as [Hlt|Hge].
    - apply Hbefore. lia.
    - destruct (IH (k - (j - i)) ltac:(lia)) as (q & Hq & Hf).
      exists q. split; [|done].
      replace k with (j + (k - j)) by lia.
      rewrite nthAncestor_add, <-Hcycle, <-nthAncestor_add.
      rewrite <-Hq. f_equal. lia. }
  intros fuel'. apply findAncestor_out_of_fuel. intros k _. apply Hall.
Qed.

Lemma substituteParent_spec tile i img s s' r :
  is_Some (stack s tile !! i) ->
  substituteParent c walk tile i img s = (s', r) ->
  SameFlags s s'
  /\ (forall x, imagery_state (imageries s' x) = imagery_state (imageries s x))
  /\ match r with
     | Processed replaced done seen =>
         replaced = false /\ PassedEntry tile i s s' done seen
     | _ => True
     end.
Proof.
  intros [ti Hi]. unfold substituteParent. intros Heq.
  destruct (findAncestor _ _ _) as [[parent|]| |] eqn:Hfind;
    try (injection Heq as <- <-; repeat split; try done; apply SameFlags_refl).
  - match type of Heq with
    | finishEntry c tile i parent ?s1 = _ =>
        destruct (finishEntry_spec tile i parent s1 s' r Heq)
          as (Hflags & Himgs & Hlen & Hother & Hent & ->)
    end.
    rewrite stack_updateEntry, stack_addReference, stack_updateEntry
      in Hlen, Hother, Hent.
    rewrite !length_alter in Hlen.
    rewrite !list_lookup_alter_eq, Hi in Hent.
    split.
    { eapply SameFlags_trans; [|exact Hflags].
      eapply SameFlags_trans; [|apply SameFlags_updateEntry].
      eapply SameFlags_trans; [apply SameFlags_updateEntry|].
      apply SameFlags_setImageries. }
    split.
    { intros x.
      by rewrite Himgs, imageries_updateEntry, state_addReference,
        imageries_updateEntry. }
    split; [done|]. unfold PassedEntry.
    split; [exact Hlen|].
    split.
    { intros j Hj. rewrite Hother by done.
      by rewrite !list_lookup_alter_ne by done. }
    split; [|done].
    destruct (stack s' tile !! i) as [ti'|]; [|done].
    exists ti'. split; [done|]. simpl in Hent. injection Hent as ->.
    by rewrite Himgs.
  - injection Heq as <- <-. split; [apply SameFlags_updateEntry|]. done.
Qed.

Lemma replacePlaceholder_spec tile i img s s' r :
  imagery_state (imageries s img) = PLACEHOLDER ->
  replacePlaceholder c tile i img s = (s', r) ->
  SameFlags s s'
  /\ (forall x, imagery_state (imageries s' x) = imagery_state (imageries s x))
  /\ r = Processed true false PLACEHOLDER.
Proof.
  unfold replacePlaceholder. intros Hph Heq. injection Heq as <- <-.
  split.
  { eapply SameFlags_trans; [|apply SameFlags_updateTile; by intros t].
    apply SameFlags_setImageries. }
  split.
  - intros x. apply (state_releaseReference img s x).
  - f_equal. etrans; [apply (state_releaseReference img s img)|exact Hph].
Qed.

(** One pass through the body of the imagery loop. *)
Lemma imageryBody_spec tile i s s' r :
  imageryBody c walk tile i s = (s', r) ->
  SameFlags s s'
  /\ (forall x, imagery_state (imageries s x) = READY ->
                imagery_state (imageries s' x) = READY)
  /\ match r with
     | Processed true ok seen => ok = false /\ isREADY seen = false
     | Processed false ok seen => PassedEntry tile i s s' ok seen
     | _ => True
     end.
Proof.
  unfold imageryBody. intros Heq.
  destruct (stack s tile !! i) as [ti|] eqn:Hi.
  2:{ injection Heq as <- <-. split; [apply SameFlags_refl|]. done. }
  destruct (bool_decide _ && isReady c _) eqn:Hph.
  - apply andb_true_iff in Hph as [Hph _].
    apply bool_decide_eq_true_1 in Hph.
    apply replacePlaceholder_spec in Heq as (Hflags & Hst & ->); [|done].
    split; [done|]. split; [|done]. intros x Hx. by rewrite Hst.
  - pose proof (advanceImagery_tiles (imagery ti) s) as [Htiles Hqueue].
    pose proof (advanceImagery_ready (imagery ti) s) as Hready.
    set (s1 := advanceImagery c (imagery ti) s) in *.
    assert (Hflags1 : SameFlags s s1).
    { split; [done|]. intros t. by rewrite Htiles. }
    destruct (isFailedOrInvalid _).
    + apply substituteParent_spec in Heq as (Hflags & Hst & Hr);
        [|by rewrite Htiles, Hi].
      split; [by eapply SameFlags_trans|].
      split; [intros x Hx; rewrite Hst; by apply Hready|].
      destruct r as [[|] ok seen| |]; [| |exact I|exact I].
      * by destruct Hr.
      * destruct Hr as [_ Hr]. unfold PassedEntry in *.
        by rewrite Htiles in Hr.
    + apply finishEntry_spec in Heq
        as (Hflags & Himgs & Hlen & Hother & Hent & ->).
      split; [by eapply SameFlags_trans|].
      split; [intros x Hx; rewrite Himgs; by apply Hready|].
      unfold PassedEntry. rewrite Htiles in Hlen, Hother, Hent.
      split; [done|]. split; [done|]. split; [|done].
      rewrite Hi in Hent. destruct (stack s' tile !! i) as [ti'|]; [|done].
      exists ti'. split; [done|]. simpl in Hent. injection Hent as ->.
      by rewrite Himgs.
Qed.

(** The imagery loop changes no flag, no terrain state and not the load
    queue, and no imagery that is READY; it never gains budget. *)
Lemma imageryLoop_frame tile budget : forall i len d seen s,
  let r := imageryLoop c walk tile budget i len d seen s in
  SameFlags s (loopSurface r)
  /\ (forall x, imagery_state (imageries s x) = READY ->
                imagery_state (imageries (loopSurface r) x) = READY)
  /\ loopBudget r <= budget.
Proof.
  induction budget as [|budget IH]; intros i len d seen s; simpl.
  - split; [apply SameFlags_refl|]. split; [done|lia].
  - destruct (decide (i < len)) as [Hlt|Hge]; simpl.
    2:{ split; [apply SameFlags_refl|]. split; [done|lia]. }
    destruct (imageryBody c walk tile i s) as [s1 res] eqn:Hbody.
    destruct (imageryBody_spec _ _ _ _ _ Hbody) as (Hflags & Hready & _).
    destruct res as [replaced ok st|e|]; simpl.
    + match goal with
      | |- context [imageryLoop c walk tile budget ?i' ?len' ?d' ?seen' s1] =>
          destruct (IH i' len' d' seen' s1) as (Hflags' & Hready' & Hb)
      end.
      split; [by eapply SameFlags_trans|]. split; [|lia].
      intros x Hx. by apply Hready', Hready.
    + split; [done|]. split; [done|lia].
    + split; [done|]. split; [done|lia].
Qed.






Lemma Keeps_refl tile s : Keeps tile s s.
Proof. by repeat split. Qed.

Lemma Keeps_trans tile s1 s2 s3 :
  Keeps tile s1 s2 -> Keeps tile s2 s3 -> Keeps tile s1 s3.
Proof.
  intros (? & ? & ?) (? & ? & ?). repeat split; try congruence; tauto.
Qed.

Lemma Shrinks_refl s : Shrinks s s.
Proof. by intros t Ht. Qed.

Lemma Shrinks_trans s1 s2 s3 : Shrinks s1 s2 -> Shrinks s2 s3 -> Shrinks s1 s3.
Proof.
  intros H12 H23 t Ht. destruct (H23 t Ht) as [Ht2 Hd2].
  destruct (H12 t Ht2) as [Ht1 Hd1]. split; [done|tauto].
Qed.

Lemma SameFlags_Keeps tile s s' : SameFlags s s' -> Keeps tile s s'.
Proof.
  intros [Hq Hf]. destruct (Hf tile) as (? & ? & _).
  repeat split; try done; by rewrite Hq.
Qed.

Lemma SameFlags_Shrinks s s' : SameFlags s s' -> Shrinks s s'.
Proof.
  intros [Hq Hf] t Ht. destruct (Hf t) as (_ & Hd & _).
  rewrite Hq in Ht. split; [done|]. by rewrite Hd.
Qed.

Lemma SameFlags_setReplacementQueue v s : SameFlags s (setReplacementQueue v s).
Proof. split; [done|]. by intros t. Qed.

Lemma elem_of_without t t' l : t' ∈ without t l <-> t' <> t /\ t' ∈ l.
Proof. unfold without. by rewrite list_elem_of_filter. Qed.

Lemma SameFlags_release (l : list TileImagery) s :
  SameFlags s (foldr (fun ti s => releaseReference (imagery ti) s) s l).
Proof.
  induction l as [|ti l IH]; simpl; [apply SameFlags_refl|].
  eapply SameFlags_trans; [exact IH|]. apply SameFlags_setImageries.
Qed.

(** The eviction of a tile: no tile enters the load queue or becomes
    [doneLoading], and the other tiles keep their flags. *)
Lemma evict_spec e s :
  Shrinks s (evict e s) /\ forall tile, tile <> e -> Keeps tile s (evict e s).
Proof.
  unfold evict.
  pose proof (SameFlags_release (tile_imagery (tiles s e)) s) as [Hq Hf].
  set (s1 := foldr _ s _) in *.
  assert (Htiles : forall t, t <> e ->
            tiles (setLoadQueue (remove e (_tileLoadQueue (updateTile (fun _ => newTile) e s1)))
                     (updateTile (fun _ => newTile) e s1)) t = tiles s1 t).
  { intros t Ht. cbn [tiles setLoadQueue]. rewrite tiles_updateTile.
    by rewrite decide_False. }
  split.
  - intros t Ht. cbn [_tileLoadQueue setLoadQueue remove loadItems updateTile
                       setTiles] in Ht.
    apply elem_of_without in Ht as [Hne Ht]. rewrite Hq in Ht.
    split; [done|]. rewrite Htiles by done.
    destruct (Hf t) as (_ & -> & _). done.
  - intros tile Hne. unfold Keeps. rewrite Htiles by done.
    destruct (Hf tile) as (-> & -> & _). split; [done|]. split; [done|].
    cbn [_tileLoadQueue setLoadQueue remove loadItems updateTile setTiles].
    rewrite elem_of_without, Hq. tauto.
Qed.

Lemma foldr_evict_spec evicted s :
  Shrinks s (foldr evict s evicted)
  /\ forall tile, tile ∉ evicted -> Keeps tile s (foldr evict s evicted).
Proof.
  induction evicted as [|e evicted [IHs IHk]]; simpl.
  - split; [apply Shrinks_refl|]. intros; apply Keeps_refl.
  - destruct (evict_spec e (foldr evict s evicted)) as [Hs Hk].
    split; [by eapply Shrinks_trans|].
    intros tile Hnotin. apply not_elem_of_cons in Hnotin as [Hne Hnotin].
    eapply Keeps_trans; [by apply IHk|by apply Hk].
Qed.

(** A tile that was just marked as rendered is not trimmed. *)
Lemma trimTiles_keeps_rendered tile keepCount q :
  0 < keepCount -> tile ∉ fst (trimTiles keepCount (markTileRendered tile q)).
Proof.
  intros Hpos. unfold trimTiles, markTileRendered. cbn [fst resident].
  destruct (Nat.max keepCount _) as [|k] eqn:Hmax; [lia|].
  simpl. intros Hin.
  apply list_elem_of_lookup in Hin as [j Hj]. rewrite lookup_drop in Hj.
  apply list_elem_of_lookup_2 in Hj. apply elem_of_without in Hj as [Hne _].
  done.
Qed.

Lemma SameFlags_createSkeletons tile s : SameFlags s (createSkeletons c tile s).
Proof.
  unfold createSkeletons.
  assert (Hgen : forall layers s0, SameFlags s s0 ->
            SameFlags s
              (foldl (fun s1 layer =>
                        updateTile
                          (fun t => withImagery
                             (tile_imagery t
                                ++ createTileImagerySkeletons c layer tile) t)
                          tile s1) s0 layers)).
  { induction layers as [|layer layers IH]; intros s0 Hs0; simpl; [done|].
    apply IH. eapply SameFlags_trans; [exact Hs0|].
    apply SameFlags_updateTile. by intros t. }
  apply Hgen, SameFlags_refl.
Qed.

(** An assignment to [tile.state]. *)
Lemma withState_spec st tile s :
  Keeps tile s (updateTile (withState st) tile s)
  /\ Shrinks s (updateTile (withState st) tile s).
Proof.
  split.
  - unfold Keeps. rewrite tiles_updateTile, decide_True by done. done.
  - intros t Ht. split; [done|]. rewrite tiles_updateTile.
    case_decide; by subst.
Qed.

(** The terrain transitions of a tile leave its flags and its membership of
    the load queue, and make no tile of the queue [doneLoading]. *)
Lemma processTerrain_spec tile s :
  Keeps tile s (processTerrain c tile s)
  /\ Shrinks s (processTerrain c tile s).
Proof.
  assert (Hstep : forall st s0,
            Keeps tile s0 (updateTile (withState st) tile
                             (updateTile (withState TS_TRANSITIONING) tile s0))
            /\ Shrinks s0 (updateTile (withState st) tile
                             (updateTile (withState TS_TRANSITIONING) tile s0))).
  { intros st s0.
    destruct (withState_spec TS_TRANSITIONING tile s0) as [Hk1 Hs1].
    destruct (withState_spec st tile
                (updateTile (withState TS_TRANSITIONING) tile s0)) as [Hk2 Hs2].
    split; [by eapply Keeps_trans|by eapply Shrinks_trans]. }
  unfold processTerrain.
  set (s1 := if decide (tile_state (tiles s tile) = TS_UNLOADED) then _ else s).
  assert (H1 : Keeps tile s s1 /\ Shrinks s s1).
  { unfold s1. case_decide; [|split; [apply Keeps_refl|apply Shrinks_refl]].
    destruct (Hstep (requestTileGeometry c tile) s) as [Hk Hs].
    set (s0 := updateTile _ tile (updateTile _ tile s)) in *.
    case_decide; [done|].
    destruct (trimTiles 100 _) as [evicted queue] eqn:Htrim.
    pose proof (trimTiles_keeps_rendered tile 100
                  (_tileReplacementQueue s0) ltac:(lia)) as Hnotin.
    cbn [_tileReplacementQueue setReplacementQueue] in Htrim.
    rewrite Htrim in Hnotin. cbn [fst] in Hnotin.
    destruct (foldr_evict_spec evicted (setReplacementQueue queue
                (setReplacementQueue
                   (markTileRendered tile (_tileReplacementQueue s0)) s0)))
      as [Hse Hke].
    pose proof (SameFlags_createSkeletons tile
                  (foldr evict (setReplacementQueue queue
                     (setReplacementQueue
                        (markTileRendered tile (_tileReplacementQueue s0)) s0))
                     evicted)) as Hsk.
    split.
    - eapply Keeps_trans; [exact Hk|].
      eapply Keeps_trans; [|apply SameFlags_Keeps, Hsk].
      eapply Keeps_trans; [|apply Hke, Hnotin].
      apply SameFlags_Keeps.
      eapply SameFlags_trans; apply SameFlags_setReplacementQueue.
    - eapply Shrinks_trans; [exact Hs|].
      eapply Shrinks_trans; [|apply SameFlags_Shrinks, Hsk].
      eapply Shrinks_trans; [|apply Hse].
      apply SameFlags_Shrinks.
      eapply SameFlags_trans; apply SameFlags_setReplacementQueue. }
  set (s2 := if decide (tile_state (tiles s1 tile) = TS_RECEIVED) then _ else s1).
  assert (H2 : Keeps tile s1 s2 /\ Shrinks s1 s2).
  { unfold s2. case_decide; [apply Hstep|].
    split; [apply Keeps_refl|apply Shrinks_refl]. }
  assert (H3 : Keeps tile s2
                 (if decide (tile_state (tiles s2 tile) = TS_TRANSFORMED)
                  then updateTile (withState (createResources c tile)) tile
                         (updateTile (withState TS_TRANSITIONING) tile s2)
                  else s2)
               /\ Shrinks s2
                 (if decide (tile_state (tiles s2 tile) = TS_TRANSFORMED)
                  then updateTile (withState (createResources c tile)) tile
                         (updateTile (withState TS_TRANSITIONING) tile s2)
                  else s2)).
  { case_decide; [apply Hstep|].
    split; [apply Keeps_refl|apply Shrinks_refl]. }
  destruct H1, H2, H3.
  split; [eapply Keeps_trans; [|eassumption]; by eapply Keeps_trans
         |eapply Shrinks_trans; [|eassumption]; by eapply Shrinks_trans].
Qed.

(** *** Entries that come to the test READY *)








Section Settled.

(** The state in which the imagery loop of a pass starts. *)
Variable s1 : Surface.

Local Abbreviation st s x := (imagery_state (imageries s x)).
Local Abbreviation requested x := (st (advanceImagery c x s1) x).

(** The state [s] of a later moment of the imagery loop, when every entry
    so far came to the test READY: no [parent] was assigned, and an imagery
    is in the state it had at the start or in the state the requests of the
    pass left it in, which is then READY, failed or invalid. *)
Local Abbreviation Settling s :=
  ((forall x, imagery_parent (imageries s x)
              = imagery_parent (imageries s1 x))
   /\ forall x, st s x = st s1 x
                \/ (st s x = requested x
                    /\ (requested x = READY
                        \/ isFailedOrInvalid (requested x) = true))).







End Settled.


(** The bound on the ancestor walk is only a bound: the pump is left as
    hanging only in a state in which some imagery has more than [walk]
    failed or invalid ancestors in a row. *)
Lemma substituteParent_Diverges tile i img s s' :
  substituteParent c walk tile i img s = (s', BodyDiverges) ->
  s' = s
  /\ FailedBefore (imageries s) (imagery_parent (imageries s img)) (S walk).
Proof.
  unfold substituteParent.
  destruct (findAncestor _ _ _) as [[parent|]| |] eqn:Hfind; intros Heq.
  - unfold finishEntry in Heq. by injection Heq.
  - by injection Heq.
  - by injection Heq.
  - injection Heq as <-. split; [done|]. by apply findAncestor_Diverges.
Qed.

Lemma imageryBody_Diverges tile i s s' :
  imageryBody c walk tile i s = (s', BodyDiverges) ->
  exists img,
    FailedBefore (imageries s') (imagery_parent (imageries s' img)) (S walk).
Proof.
  unfold imageryBody. intros Heq.
  destruct (stack s tile !! i) as [ti|]; [|by injection Heq].
  destruct (bool_decide _ && isReady c _).
  - unfold replacePlaceholder in Heq. by injection Heq.
  - destruct (isFailedOrInvalid _).
    + apply substituteParent_Diverges in Heq as [-> Hchain]. by eexists.
    + unfold finishEntry in Heq. by injection Heq.
Qed.

Lemma imageryLoop_Hangs tile budget : forall i len d seen s,
  let r := imageryLoop c walk tile budget i len d seen s in
  loopExit r = Hangs ->
  exists img,
    FailedBefore (imageries (loopSurface r))
      (imagery_parent (imageries (loopSurface r) img)) (S walk).
Proof.
  induction budget as [|budget IH]; intros i len d seen s; simpl; [done|].
  destruct (decide (i < len)) as [Hlt|Hge]; simpl; [|done].
  destruct (imageryBody c walk tile i s) as [s1 res] eqn:Hbody.
  destruct res as [replaced ok st|e|]; simpl; [apply IH|done|].
  intros _. by eapply imageryBody_Diverges.
Qed.

Lemma pumpLoop_Hangs : forall fuel budget tile s s',
  budget < fuel ->
  pumpLoop c walk fuel budget tile s = (s', Hangs) ->
  exists img,
    FailedBefore (imageries s') (imagery_parent (imageries s' img)) (S walk).
Proof.
  induction fuel as [|fuel IH]; intros budget tile s s' Hfuel; [lia|].
  destruct budget as [|budget]; [by destruct tile|].
  destruct tile as [tile|]; [|done].
  cbn [pumpLoop]. unfold processTile.
  set (s1 := processTerrain c tile s).
  set (d0 := bool_decide (tile_state (tiles s1 tile) = TS_READY)).
  set (len0 := length (tile_imagery (tiles s1 tile))).
  pose proof (imageryLoop_Hangs tile budget 0 len0 d0 [] s1) as Hhangs.
  destruct (imageryLoop_frame tile budget 0 len0 d0 [] s1) as (_ & _ & Hb).
  set (loop := imageryLoop c walk tile budget 0 len0 d0 [] s1) in *.
  cbn zeta in Hhangs, Hb.
  destruct (loopExit loop) eqn:Hexit.
  - simpl (bool_decide (Normal = Normal)).
    destruct (_ && _ && _); rewrite Hexit; apply IH; lia.
  - simpl. rewrite Hexit. done.
  - simpl. rewrite Hexit. intros [= <-]. by apply Hhangs.
Qed.

Lemma processTileLoadQueue_Hangs budget s s' :
  processTileLoadQueue c walk budget s = (s', Hangs) ->
  exists img,
    FailedBefore (imageries s') (imagery_parent (imageries s' img)) (S walk).
Proof. apply pumpLoop_Hangs. lia. Qed.

End PumpFacts.

(** ** The load pump: the claims *)

Section LoadQueueFacts.

Import Engine.

Variable c : Collaborators.
Variable walk : nat.

Lemma splitAt_app t l : (splitAt t l).1 ++ (splitAt t l).2 = l.
Proof.
  induction l as [|t' l IH]; simpl; [done|].
  destruct (decide (t' = t)); simpl; [done|].
  destruct (splitAt t l) as [before from]; simpl in *. by rewrite IH.
Qed.

Lemma elem_of_insertBeforeInsertionPoint t t' q :
  t' ∈ loadItems (insertBeforeInsertionPoint t q) ->
  t' = t \/ t' ∈ loadItems q.
Proof.
  unfold insertBeforeInsertionPoint.
  destruct (insertionPoint q) as [p|]; simpl.
  - destruct (decide (p = t)); [by right|].
    pose proof (splitAt_app p (without t (loadItems q))) as Happ.
    destruct (splitAt p (without t (loadItems q))) as [before from]; simpl in *.
    intros Hin.
    assert (t' = t \/ t' ∈ without t (loadItems q)) as [?|Hw].
    { rewrite <- Happ. apply elem_of_app in Hin as [?|Hin].
      - right. apply elem_of_app. by left.
      - apply elem_of_cons in Hin as [?|?]; [by left|].
        right. apply elem_of_app. by right. }
    + by left.
    + right. by apply elem_of_without in Hw as [_ ?].
  - rewrite elem_of_app, elem_of_without, list_elem_of_singleton.
    intros [[_ ?]|?]; [by right|by left].
Qed.

Lemma Enqueues_refl s : Enqueues s s.
Proof. split; [done|]. intros t Ht. by left. Qed.

Lemma Enqueues_trans s1 s2 s3 :
  Enqueues s1 s2 -> Enqueues s2 s3 -> Enqueues s1 s3.
Proof.
  intros [Ht1 H1] [Ht2 H2]. split; [congruence|].
  intros t Ht. destruct (H2 t Ht) as [Hin|Hd].
  - by apply H1.
  - right. by rewrite <- Ht1.
Qed.

Lemma Enqueues_same s s' :
  tiles s' = tiles s ->
  loadItems (_tileLoadQueue s') = loadItems (_tileLoadQueue s) ->
  Enqueues s s'.
Proof. intros Ht Hq. split; [done|]. intros t Hin. left. by rewrite <- Hq. Qed.

Lemma Enqueues_queueTileLoad tile s :
  doneLoading (tiles s tile) = false -> Enqueues s (queueTileLoad tile s).
Proof.
  intros Hd. split; [done|]. intros t Hin. simpl in Hin.
  apply elem_of_insertBeforeInsertionPoint in Hin as [->|Hin];
    [by right|by left].
Qed.

Lemma queueChildren_Enqueues : forall children allRenderable s,
  Enqueues s (queueChildren children allRenderable s).2.
Proof.
  induction children as [|child children IH]; intros allRenderable s; simpl.
  { apply Enqueues_refl. }
  eapply Enqueues_trans; [|apply IH].
  destruct (doneLoading (tiles s child)) eqn:Hd.
  - by apply Enqueues_same.
  - eapply Enqueues_trans; [|by apply Enqueues_queueTileLoad].
    by apply Enqueues_same.
Qed.

Lemma visitTile_Enqueues tile s : Enqueues s (visitTile c tile s).2.
Proof.
  unfold visitTile.
  destruct (Qlt_le_dec _ _); simpl.
  { by apply Enqueues_same. }
  unfold queueChildrenLoadAndDetermineIfChildrenAreAllRenderable.
  destruct (decide (level tile = maxLevel c)); simpl.
  { by apply Enqueues_same. }
  match goal with
  | |- context [queueChildren ?l ?b ?s0] =>
      pose proof (queueChildren_Enqueues l b s0) as Hq;
      destruct (queueChildren l b s0) as [allRenderable s1]
  end.
  simpl in Hq.
  eapply Enqueues_trans; [by apply Enqueues_same|].
  eapply Enqueues_trans; [exact Hq|].
  destruct allRenderable; simpl; by apply Enqueues_same.
Qed.

Lemma traverse_Enqueues : forall fuel s visits s' visits',
  traverse c fuel s visits = Returned (s', visits') -> Enqueues s s'.
Proof.
  induction fuel as [|fuel IH]; intros s visits s' visits'; simpl.
  - destruct (_tileTraversalQueue s); [|done].
    intros [= <- _]. apply Enqueues_refl.
  - destruct (_tileTraversalQueue s) as [|tile queue].
    { intros [= <- _]. apply Enqueues_refl. }
    pose proof (visitTile_Enqueues tile (setTraversalQueue queue s)) as Hv.
    destruct (visitTile c tile (setTraversalQueue queue s)) as [action s1].
    intros Htr. apply IH in Htr.
    eapply Enqueues_trans; [by apply Enqueues_same|].
    eapply Enqueues_trans; [exact Hv|exact Htr].
Qed.

Lemma enqueueRoots_Enqueues : forall levelZeroTiles s,
  Enqueues s (enqueueRoots c levelZeroTiles s).
Proof.
  induction levelZeroTiles as [|tile rest IH]; intros s; simpl.
  { apply Enqueues_refl. }
  eapply Enqueues_trans; [|apply IH].
  destruct (doneLoading (tiles s tile)) eqn:Hd.
  - destruct (_ && _); [by apply Enqueues_same|apply Enqueues_refl].
  - eapply Enqueues_trans; [by apply Enqueues_queueTileLoad|].
    destruct (_ && _); [by apply Enqueues_same|apply Enqueues_refl].
Qed.

Lemma selectTilesForRendering_Enqueues fuel s s' visits :
  selectTilesForRendering c fuel s = Returned (s', visits) -> Enqueues s s'.
Proof.
  unfold selectTilesForRendering.
  destruct (suspendLodUpdate s).
  { intros [= <- _]. apply Enqueues_refl. }
  simpl. destruct (_levelZeroTiles s) as [levelZeroTiles|].
  2:{ intros [= <- _]. by apply Enqueues_same. }
  intros Htr. apply traverse_Enqueues in Htr.
  eapply Enqueues_trans; [|exact Htr].
  eapply Enqueues_trans; [|apply enqueueRoots_Enqueues].
  by apply Enqueues_same.
Qed.

Lemma LoadInvariant_Enqueues s s' :
  Enqueues s s' -> LoadInvariant s -> LoadInvariant s'.
Proof.
  intros [Ht Hq] Hinv t Hin. rewrite Ht.
  destruct (Hq t Hin) as [?|?]; [by apply Hinv|done].
Qed.

Lemma LoadInvariant_Shrinks s s' :
  Shrinks s s' -> LoadInvariant s -> LoadInvariant s'.
Proof.
  intros Hs Hinv t Hin. destruct (Hs t Hin) as [Hin' Hd].
  specialize (Hinv t Hin').
  destruct (doneLoading (tiles s' t)); [|done].
  rewrite Hd in Hinv; done.
Qed.

Lemma processTile_Shrinks tile budget s :
  Shrinks s (processTile c walk tile budget s).2.
Proof.
  unfold processTile.
  destruct (processTerrain_spec c tile s) as [_ Hterr].
  set (s1 := processTerrain c tile s) in *.
  match goal with
  | |- context [imageryLoop c walk tile budget 0 ?len ?d [] s1] =>
      destruct (imageryLoop_frame c walk tile budget 0 len d [] s1) as (Hsame & _);
      set (loop := imageryLoop c walk tile budget 0 len d [] s1) in *
  end.
  apply SameFlags_Shrinks in Hsame.
  destruct (_ && _ && _); cbn [snd].
  - eapply Shrinks_trans; [exact Hterr|].
    eapply Shrinks_trans; [exact Hsame|].
    intros t Hin. cbn in Hin. apply elem_of_without in Hin as [Hne Hin].
    split; [done|].
    change (tiles (setLoadQueue ?q ?x)) with (tiles x).
    rewrite tiles_updateTile, decide_False by done. done.
  - eapply Shrinks_trans; [exact Hterr|exact Hsame].
Qed.

Lemma pumpLoop_Shrinks : forall fuel budget tile s,
  Shrinks s (pumpLoop c walk fuel budget tile s).1.
Proof.
  induction fuel as [|fuel IH]; intros [|budget] [tile|] s; simpl;
    try apply Shrinks_refl.
  pose proof (processTile_Shrinks tile budget s) as Hp.
  destruct (processTile c walk tile budget s) as [[loop completed] s1].
  simpl in Hp.
  destruct (loopExit loop); simpl; [|done..].
  eapply Shrinks_trans; [exact Hp|apply IH].
Qed.

Lemma update_LoadInvariant fuel budget s :
  LoadInvariant s -> LoadInvariant (update c walk fuel budget s).1.
Proof.
  intros Hinv. unfold update.
  destruct (selectTilesForRendering c fuel s) as [[s1 visits]| |] eqn:Hsel;
    [|done..].
  apply selectTilesForRendering_Enqueues in Hsel.
  eapply LoadInvariant_Shrinks; [apply pumpLoop_Shrinks|].
  by eapply LoadInvariant_Enqueues.
Qed.

Lemma Shrinks_updateTile f tile s :
  (forall t, doneLoading (f t) = true -> doneLoading t = true) ->
  Shrinks s (updateTile f tile s).
Proof.
  intros Hf t Hin. split; [done|].
  rewrite tiles_updateTile. destruct (decide (tile = t)) as [->|]; [apply Hf|done].
Qed.

Lemma Shrinks_foldl {A} (f : Surface -> A -> Surface) :
  (forall s a, Shrinks s (f s a)) -> forall l s, Shrinks s (foldl f s l).
Proof.
  intros Hf. induction l as [|a l IH]; intros s; simpl; [apply Shrinks_refl|].
  eapply Shrinks_trans; [apply Hf|apply IH].
Qed.

Lemma layerAddedOnTile_Shrinks layer newNextLayer s tile :
  Shrinks s (layerAddedOnTile c layer newNextLayer s tile).
Proof.
  unfold layerAddedOnTile.
  destruct (createTileImagerySkeletons c layer tile), newNextLayer; cbv zeta;
    repeat (eapply Shrinks_trans; [|by apply Shrinks_updateTile]);
    apply Shrinks_refl.
Qed.

Lemma layerRemovedOnTile_Shrinks layer s tile :
  Shrinks s (layerRemovedOnTile layer s tile).
Proof.
  unfold layerRemovedOnTile.
  destruct (scanRemoved _ _ _ _ _ _ _) as [[startIndex numDestroyed] released].
  eapply Shrinks_trans.
  { apply (Shrinks_foldl (fun s img => releaseReference img s)).
    intros s0 img. apply SameFlags_Shrinks, SameFlags_setImageries. }
  destruct (decide (length _ = 0));
    repeat (eapply Shrinks_trans; [|by apply Shrinks_updateTile]);
    apply Shrinks_refl.
Qed.

Lemma moveOnTiles_doneLoading imgs layer newNextLayer : forall queue ts t,
  doneLoading (Layers.moveOnTiles imgs layer newNextLayer queue ts t)
  = doneLoading (ts t).
Proof.
  induction queue as [|tile rest IH]; intros ts t;
    cbn [Layers.moveOnTiles]; [done|].
  rewrite IH. unfold insert, fn_insert. by destruct (decide (tile = t)) as [->|Hne].
Qed.

Lemma onLayerMoved_Shrinks layer newIndex oldIndex s :
  Shrinks s (_onLayerMoved layer newIndex oldIndex s).
Proof.
  intros t Hin. split; [done|].
  unfold _onLayerMoved, Layers._onLayerMoved. cbn.
  destruct (_levelZeroTiles s); [|done].
  by rewrite moveOnTiles_doneLoading.
Qed.

End LoadQueueFacts.


(** C1 (as the code behaves): the load queue holds a tile with ready terrain
    whose only imagery has failed and has no parent, and a second tile.  The
    pump stores the failed imagery in [originalImagery] and then calls
    [addReference] on [undefined]: it throws a [TypeError].  The tile is not
    made renderable and the second tile of the queue is not reached.  The
    bound on the ancestor walk plays no part: there is no ancestor. *)
Lemma failed_imagery_without_ancestor_throws :
  forall walk : nat,
  let after :=
    Engine.processTileLoadQueue Engine.eagerCollaborators walk 50
      Engine.failedImagerySurface in
  snd after = Engine.Thrown TypeError
  /\ tile_imagery (Engine.tiles (fst after) Engine.root0)
     = [mkTileImagery 0 (Some 0) 0 None]
  /\ renderable (Engine.tiles (fst after) Engine.root0) = false
  /\ tile_state (Engine.tiles (fst after) Engine.root1) = TS_UNLOADED.
Proof. intros [|walk]; vm_compute; repeat split; reflexivity. Qed.

Section SelectionFacts.

Import Engine.

Variable c : Collaborators.

Lemma bind_replicate_None {A} n :
  replicate n (@None (list A)) ≫= default [] = [].
Proof. induction n as [|n IH]; [done|]. simpl. exact IH. Qed.

Lemma elem_of_addTileToRenderList tile s t :
  t ∈ renderedTiles (addTileToRenderList tile s)
  <-> t ∈ renderedTiles s \/ t = tile.
Proof.
  unfold renderedTiles, addTileToRenderList.
  cbn [_tilesToRenderByTextureCount setRenderLists].
  set (count := readyTextureCount s tile).
  set (lists := _tilesToRenderByTextureCount s).
  unfold JsArray.store, JsArray.get.
  destruct (decide (count < length lists)) as [Hlt|Hge].
  - destruct (lookup_lt_is_Some_2 lists count Hlt) as [tileSet Hset].
    rewrite Hset, insert_take_drop by done. simpl.
    rewrite <- (take_drop_middle lists count tileSet) at 3 by done.
    rewrite !bind_app, !bind_cons, !elem_of_app. simpl.
    rewrite !elem_of_app, list_elem_of_singleton. tauto.
  - rewrite (proj2 (lookup_ge_None lists count)) by lia. simpl.
    rewrite !bind_app, bind_replicate_None. simpl.
    rewrite !elem_of_app, list_elem_of_singleton. tauto.
Qed.

Lemma renderedTiles_clearRenderLists lists :
  clearRenderLists lists ≫= default [] = [].
Proof.
  unfold clearRenderLists.
  induction lists as [|[tileSet|] lists IH]; simpl; [done|exact IH|exact IH].
Qed.

Lemma LoadGrows_refl s : LoadGrows s s.
Proof. by split. Qed.

Lemma LoadGrows_trans s1 s2 s3 :
  LoadGrows s1 s2 -> LoadGrows s2 s3 -> LoadGrows s1 s3.
Proof. intros [Ho1 Hi1] [Ho2 Hi2]. split; auto. Qed.

Lemma LoadGrows_same s s' :
  _tileLoadQueue s' = _tileLoadQueue s -> LoadGrows s s'.
Proof. intros Hq. unfold LoadGrows. by rewrite Hq. Qed.

Lemma loadItems_insert_mono t q t' :
  t' ∈ loadItems q -> t' ∈ loadItems (insertBeforeInsertionPoint t q).
Proof.
  unfold insertBeforeInsertionPoint.
  destruct (insertionPoint q) as [p|] eqn:Hp; simpl.
  - destruct (decide (p = t)) as [->|Hne]; [done|].
    pose proof (splitAt_app p (without t (loadItems q))) as Happ.
    destruct (splitAt p (without t (loadItems q))) as [before from]; simpl in *.
    intros Hin. rewrite elem_of_app, elem_of_cons.
    destruct (decide (t' = t)) as [->|Hne']; [tauto|].
    assert (Hw : t' ∈ without t (loadItems q)) by by apply elem_of_without.
    rewrite <- Happ in Hw. apply elem_of_app in Hw. tauto.
  - rewrite elem_of_app, elem_of_without, list_elem_of_singleton.
    destruct (decide (t' = t)); tauto.
Qed.

Lemma loadItems_insert_self t q :
  QueueOk q -> t ∈ loadItems (insertBeforeInsertionPoint t q).
Proof.
  intros Hok. unfold insertBeforeInsertionPoint.
  destruct (insertionPoint q) as [p|] eqn:Hp; simpl.
  - destruct (decide (p = t)) as [->|Hne]; [by apply Hok|].
    destruct (splitAt p (without t (loadItems q))) as [before from]; simpl.
    rewrite elem_of_app, elem_of_cons. tauto.
  - rewrite elem_of_app, list_elem_of_singleton. tauto.
Qed.

Lemma QueueOk_insertBeforeInsertionPoint t q :
  QueueOk q -> QueueOk (insertBeforeInsertionPoint t q).
Proof.
  intros Hok p Hp. apply loadItems_insert_mono, Hok.
  revert Hp. unfold insertBeforeInsertionPoint.
  destruct (insertionPoint q) as [p'|] eqn:Hq; simpl; [|done].
  destruct (decide (p' = t)); [congruence|].
  by destruct (splitAt p' (without t (loadItems q))).
Qed.

Lemma QueueOk_markInsertionPoint q : QueueOk (markInsertionPoint q).
Proof. intros p Hp. by apply head_Some_elem_of. Qed.

Lemma queueTileLoad_LoadGrows tile s : LoadGrows s (queueTileLoad tile s).
Proof.
  split; simpl.
  - apply QueueOk_insertBeforeInsertionPoint.
  - intros t. apply loadItems_insert_mono.
Qed.

Lemma forallb_elem_of {A} (f : A -> bool) l :
  forallb f l = true <-> forall x, x ∈ l -> f x = true.
Proof.
  induction l as [|a l IH]; simpl.
  - split; [|done]. intros _ x Hx. by apply elem_of_nil in Hx.
  - rewrite andb_true_iff, IH. split.
    + intros [Ha Hl] x [->|Hx]%elem_of_cons; auto.
    + intros Hall. split; [|intros x Hx]; apply Hall, elem_of_cons; auto.
Qed.

Lemma queueChildren_spec : forall children allRenderable s,
  let r := queueChildren children allRenderable s in
  r.1 = allRenderable
        && forallb (fun child => renderable (tiles s child)) children
  /\ tiles r.2 = tiles s
  /\ _tileTraversalQueue r.2 = _tileTraversalQueue s
  /\ _tilesToRenderByTextureCount r.2 = _tilesToRenderByTextureCount s
  /\ LoadGrows s r.2
  /\ (QueueOk (_tileLoadQueue s) ->
      forall child, child ∈ children -> doneLoading (tiles s child) = false ->
        child ∈ loadItems (_tileLoadQueue r.2)).
Proof.
  induction children as [|child children IH]; intros allRenderable s.
  { simpl. rewrite andb_true_r. repeat split; try done.
    intros _ child Hin. by apply elem_of_nil in Hin. }
  cbn [queueChildren]. cbv zeta.
  set (s1 := setReplacementQueue _ s).
  set (s2 := if doneLoading (tiles s1 child) then s1 else queueTileLoad child s1).
  assert (Htiles : tiles s2 = tiles s).
  { unfold s2. by destruct (doneLoading (tiles s1 child)). }
  assert (Hqueue : _tileTraversalQueue s2 = _tileTraversalQueue s).
  { unfold s2. by destruct (doneLoading (tiles s1 child)). }
  assert (Hlists : _tilesToRenderByTextureCount s2
                   = _tilesToRenderByTextureCount s).
  { unfold s2. by destruct (doneLoading (tiles s1 child)). }
  assert (Hgrows : LoadGrows s s2).
  { apply (LoadGrows_trans _ s1); [by apply LoadGrows_same|].
    unfold s2. destruct (doneLoading (tiles s1 child));
      [apply LoadGrows_refl|apply queueTileLoad_LoadGrows]. }
  assert (Hself : QueueOk (_tileLoadQueue s) ->
                  doneLoading (tiles s child) = false ->
                  child ∈ loadItems (_tileLoadQueue s2)).
  { intros Hok Hd. unfold s2.
    change (tiles s1) with (tiles s). rewrite Hd. simpl.
    by apply loadItems_insert_self. }
  destruct (IH (if renderable (tiles s2 child) then allRenderable else false) s2)
    as (Hall & Htiles' & Hqueue' & Hlists' & Hgrows' & Hloads).
  split; [|split; [congruence|split; [congruence|split; [congruence|split]]]].
  - rewrite Hall, Htiles. simpl.
    by destruct (renderable (tiles s child)), allRenderable.
  - by apply (LoadGrows_trans _ s2).
  - intros Hok child' [->|Hin]%elem_of_cons Hd.
    + apply Hgrows'. by apply Hself.
    + apply Hloads; [by apply Hgrows|done|by rewrite Htiles].
Qed.

Lemma visitTile_spec tile s action s1 :
  level tile <= maxLevel c ->
  visitTile c tile s = (action, s1) ->
  (action = Refined <-> SpecRefines c (tiles s) tile)
  /\ tiles s1 = tiles s
  /\ _tileTraversalQueue s1
     = _tileTraversalQueue s
       ++ match action with
          | Refined =>
              filter (fun child => isTileVisible c child = true)
                (getChildren c tile)
          | Rendered => []
          end
  /\ (forall t, t ∈ renderedTiles s1
                <-> t ∈ renderedTiles s \/ (t = tile /\ action = Rendered))
  /\ LoadGrows s s1
  /\ (QueueOk (_tileLoadQueue s) ->
      ~ (screenSpaceError c tile < maxScreenSpaceError c)%Q ->
      level tile < maxLevel c ->
      forall child, child ∈ getChildren c tile ->
        doneLoading (tiles s child) = false ->
        child ∈ loadItems (_tileLoadQueue s1)).
Proof.
  intros Hlevel. unfold visitTile.
  set (s0 := setReplacementQueue _ s).
  assert (Hrender : forall s', tiles s' = tiles s ->
            renderedTiles s' = renderedTiles s ->
            forall t, t ∈ renderedTiles (addTileToRenderList tile s')
                      <-> t ∈ renderedTiles s \/ (t = tile /\ Rendered = Rendered)).
  { intros s' _ Hr t. rewrite elem_of_addTileToRenderList, Hr. tauto. }
  destruct (Qlt_le_dec _ _) as [Hlt|Hle].
  { intros [= <- <-]. split; [|split; [done|split; [|split; [|split]]]].
    - split; [done|]. by intros [Hn _].
    - simpl. by rewrite app_nil_r.
    - by apply Hrender.
    - by apply LoadGrows_same.
    - intros _ Hn. done. }
  apply Qle_not_lt in Hle.
  unfold queueChildrenLoadAndDetermineIfChildrenAreAllRenderable.
  destruct (decide (level tile = maxLevel c)) as [Hmax|Hmax].
  { intros [= <- <-]. split; [|split; [done|split; [|split; [|split]]]].
    - split; [done|]. intros (_ & Hl & _). lia.
    - simpl. by rewrite app_nil_r.
    - by apply Hrender.
    - by apply LoadGrows_same.
    - intros _ _ Hl. lia. }
  destruct (queueChildren_spec (getChildren c tile) true s0)
    as (Hall & Htiles & Hqueue & Hlists & Hgrows & Hloads).
  destruct (queueChildren (getChildren c tile) true s0) as [allRenderable s2].
  simpl in Hall, Htiles, Hqueue, Hlists, Hgrows, Hloads.
  assert (Hspec : allRenderable = true <-> SpecRefines c (tiles s) tile).
  { rewrite Hall, forallb_elem_of. unfold SpecRefines. split.
    - intros Hch. split; [done|]. split; [lia|done].
    - by intros (_ & _ & Hch). }
  assert (Hgrows' : LoadGrows s s2).
  { apply (LoadGrows_trans _ s0); [by apply LoadGrows_same|done]. }
  destruct allRenderable; intros [= <- <-].
  - split; [|split; [exact Htiles|split; [cbn; by rewrite Hqueue|split; [|split]]]].
    + split; [intros _; by apply Hspec|done].
    + intros t. unfold renderedTiles. cbn. rewrite Hlists. cbn.
      split; [by left|]. by intros [?|[_ ?]].
    + apply (LoadGrows_trans _ s2); [done|by apply LoadGrows_same].
    + intros Hok _ _. by apply Hloads.
  - split; [|split; [exact Htiles|split; [|split; [|split]]]].
    + split; [done|]. intros Hs. by apply Hspec in Hs.
    + cbn. by rewrite app_nil_r.
    + apply Hrender; [done|]. unfold renderedTiles. by rewrite Hlists.
    + apply (LoadGrows_trans _ s2); [done|by apply LoadGrows_same].
    + intros Hok _ _. by apply Hloads.
Qed.

Lemma subtreeSize_pos d : 0 < subtreeSize d.
Proof. destruct d; simpl; lia. Qed.

Lemma sum_list_with_same {A} (f : A -> nat) n l :
  (forall x, x ∈ l -> f x = n) -> sum_list_with f l = length l * n.
Proof.
  induction l as [|a l IH]; intros Hall; simpl; [done|].
  rewrite IH by (intros; apply Hall; rewrite elem_of_cons; auto).
  rewrite (Hall a) by (rewrite elem_of_cons; auto). done.
Qed.

Lemma sum_list_with_filter {A} (f : A -> nat) (P : A -> Prop)
    `{!forall x, Decision (P x)} l :
  sum_list_with f (filter P l) <= sum_list_with f l.
Proof.
  induction l as [|a l IH]; simpl; [done|].
  rewrite filter_cons. destruct (decide (P a)); simpl; lia.
Qed.

Variable roots : list TileId.
Variable ts : TileStore.
Hypothesis quadTree : QuadTree c roots.

Lemma children_weight (P : TileId -> Prop) `{!forall x, Decision (P x)} tile :
  level tile < maxLevel c ->
  queueWeight c (filter P (getChildren c tile)) + 1 <= weight c tile.
Proof.
  intros Hlevel. unfold queueWeight.
  pose proof (sum_list_with_filter (weight c) P (getChildren c tile)) as Hle.
  assert (Hsum : sum_list_with (weight c) (getChildren c tile)
                 = 4 * subtreeSize (maxLevel c - S (level tile))).
  { rewrite <- (children_four c roots quadTree tile).
    apply sum_list_with_same. intros child Hin. unfold weight.
    by rewrite (children_level c roots quadTree tile child Hin). }
  rewrite Hsum in Hle. unfold weight at 2.
  replace (maxLevel c - level tile) with (S (maxLevel c - S (level tile)))
    by lia.
  simpl. lia.
Qed.

(** One visit keeps the invariant and makes the queue lighter. *)
Lemma Traversal_step s visits tile queue action s1 :
  Traversal c roots ts s visits ->
  _tileTraversalQueue s = tile :: queue ->
  visitTile c tile (setTraversalQueue queue s) = (action, s1) ->
  Traversal c roots ts s1 (visits ++ [(tile, action)])
  /\ queueWeight c (_tileTraversalQueue s1) + 1
     <= queueWeight c (_tileTraversalQueue s).
Proof.
  intros [Htiles Hok Haction Hnodup Horigin Hchildren Hloads Hrendered]
    Hq Hvisit.
  rewrite Hq in Hnodup, Horigin, Hchildren.
  assert (Hlevel : level tile <= maxLevel c).
  { apply Horigin. rewrite elem_of_app, elem_of_cons. auto. }
  destruct (visitTile_spec tile (setTraversalQueue queue s) action s1
              Hlevel Hvisit)
    as (Hact & Htiles1 & Hqueue1 & Hrend & Hgrows & Hload1).
  cbn [tiles setTraversalQueue _tileTraversalQueue _tileLoadQueue]
    in Hact, Htiles1, Hqueue1, Hload1.
  rewrite Htiles in Hact, Htiles1, Hload1.
  set (extra := match action with
                | Refined =>
                    filter (fun child => isTileVisible c child = true)
                      (getChildren c tile)
                | Rendered => []
                end) in *.
  assert (Hextra : forall child, child ∈ extra <->
            action = Refined /\ child ∈ getChildren c tile
            /\ isTileVisible c child = true).
  { intros child. unfold extra. destruct action.
    - split; [by intros ?%elem_of_nil|by intros [? _]].
    - rewrite list_elem_of_filter. tauto. }
  assert (Hnew : forall t,
            t ∈ (visits ++ [(tile, action)]).*1 ++ _tileTraversalQueue s1
            <-> t ∈ visits.*1 ++ tile :: queue \/ t ∈ extra).
  { intros t. rewrite Hqueue1, fmap_app. simpl.
    rewrite !elem_of_app, !elem_of_cons, elem_of_nil. tauto. }
  assert (Hlast : forall t a,
            (t, a) ∈ visits ++ [(tile, action)]
            <-> (t, a) ∈ visits \/ (t = tile /\ a = action)).
  { intros t a. rewrite elem_of_app, list_elem_of_singleton.
    split; (intros [?|Heq]; [by left|right]); [by injection Heq|].
    by destruct Heq as [-> ->]. }
  split.
  - constructor.
    + done.
    + by apply Hgrows.
    + intros t a [Hin|[-> ->]]%Hlast; [by apply Haction|done].
    + rewrite Hqueue1, fmap_app. simpl.
      replace ((visits.*1 ++ [tile]) ++ queue ++ extra)
        with ((visits.*1 ++ tile :: queue) ++ extra)
        by (by rewrite <- !app_assoc).
      apply NoDup_app. split; [done|]. split.
      * intros child Hold (Href & Hchild & _)%Hextra.
        destruct (Horigin child Hold) as [_ [Hroot|(p & Hp & Hin & _)]].
        { apply (roots_level c roots quadTree) in Hroot.
          rewrite (children_level c roots quadTree tile child Hchild) in Hroot.
          done. }
        assert (p = tile) as ->
          by exact (children_parent c roots quadTree p tile child Hin Hchild).
        apply NoDup_app in Hnodup as (_ & Hdisjoint & _).
        apply (Hdisjoint tile); [|by left].
        apply list_elem_of_fmap. by exists (tile, Refined).
      * unfold extra. destruct action; [constructor|].
        apply NoDup_filter, (children_NoDup c roots quadTree).
    + intros t [Hold|(Href & Hchild & Hvis)%Hextra]%Hnew.
      * destruct (Horigin t Hold) as [Hl [Hroot|(p & Hp & Hin & Hvis)]].
        { by split; [|left]. }
        split; [done|]. right. exists p. split; [|done].
        apply Hlast. by left.
      * apply Hact in Href as Hspec. destruct Hspec as (_ & Hlt & _).
        rewrite (children_level c roots quadTree tile t Hchild).
        split; [lia|]. right. exists tile. split; [|done].
        apply Hlast. right. by split.
    + intros p child [Hin|[-> Href]]%Hlast Hchild Hvis; apply Hnew.
      * left. by apply Hchildren with p.
      * right. by apply Hextra.
    + intros p a child [Hin|[-> ->]]%Hlast Hsse Hlt Hchild Hd.
      * apply Hgrows. by apply Hloads with p a.
      * by apply Hload1.
    + intros t. rewrite Hrend, Hlast.
      change (renderedTiles (setTraversalQueue queue s))
        with (renderedTiles s).
      rewrite Hrendered. split; (intros [?|[-> ?]]; [by left|by right]).
  - rewrite Hqueue1, Hq. unfold queueWeight.
    rewrite sum_list_with_app. simpl.
    enough (sum_list_with (weight c) extra + 1 <= weight c tile) by lia.
    unfold extra. destruct action eqn:Ha.
    + simpl. pose proof (subtreeSize_pos (maxLevel c - level tile)).
      unfold weight. lia.
    + apply children_weight. by apply Hact.
Qed.

(** With fuel for the weight of the queue the traversal returns, with the
    queue empty and the invariant kept. *)
Lemma traverse_spec : forall fuel s visits,
  Traversal c roots ts s visits ->
  queueWeight c (_tileTraversalQueue s) <= fuel ->
  exists s' visits',
    traverse c fuel s visits = Returned (s', visits')
    /\ Traversal c roots ts s' visits'
    /\ _tileTraversalQueue s' = [].
Proof.
  induction fuel as [|fuel IH]; intros s visits Hinv Hfuel.
  - destruct (_tileTraversalQueue s) as [|tile queue] eqn:Hq.
    + exists s, visits. simpl. by rewrite Hq.
    + unfold queueWeight in Hfuel. simpl in Hfuel.
      pose proof (subtreeSize_pos (maxLevel c - level tile)).
      unfold weight in Hfuel. lia.
  - destruct (_tileTraversalQueue s) as [|tile queue] eqn:Hq.
    + exists s, visits. simpl. by rewrite Hq.
    + simpl. rewrite Hq.
      destruct (visitTile c tile (setTraversalQueue queue s))
        as [action s1] eqn:Hvisit.
      destruct (Traversal_step s visits tile queue action s1 Hinv Hq Hvisit)
        as [Hinv1 Hweight].
      apply IH; [done|]. rewrite Hq in Hweight. lia.
Qed.

Lemma enqueueRoots_spec : forall levelZeroTiles s,
  let s' := enqueueRoots c levelZeroTiles s in
  tiles s' = tiles s
  /\ _tileTraversalQueue s'
     = _tileTraversalQueue s
       ++ filter (fun t => renderable (tiles s t) && isTileVisible c t = true)
            levelZeroTiles
  /\ _tilesToRenderByTextureCount s' = _tilesToRenderByTextureCount s
  /\ LoadGrows s s'.
Proof.
  induction levelZeroTiles as [|tile rest IH]; intros s.
  { simpl. rewrite app_nil_r. repeat split; done. }
  cbn [enqueueRoots]. cbv zeta.
  set (s1 := if doneLoading (tiles s tile) then s else queueTileLoad tile s).
  assert (Htiles1 : tiles s1 = tiles s)
    by (unfold s1; by destruct (doneLoading (tiles s tile))).
  assert (Hqueue1 : _tileTraversalQueue s1 = _tileTraversalQueue s)
    by (unfold s1; by destruct (doneLoading (tiles s tile))).
  assert (Hlists1 : _tilesToRenderByTextureCount s1
                    = _tilesToRenderByTextureCount s)
    by (unfold s1; by destruct (doneLoading (tiles s tile))).
  assert (Hgrows1 : LoadGrows s s1).
  { unfold s1. destruct (doneLoading (tiles s tile));
      [apply LoadGrows_refl|apply queueTileLoad_LoadGrows]. }
  match goal with
  | |- context [enqueueRoots c rest ?s2] =>
      destruct (IH s2) as (Htiles & Hqueue & Hlists & Hgrows);
      set (s3 := s2) in *
  end.
  assert (Htiles3 : tiles s3 = tiles s)
    by (unfold s3; by destruct (_ && _)).
  assert (Hlists3 : _tilesToRenderByTextureCount s3
                    = _tilesToRenderByTextureCount s)
    by (unfold s3; by destruct (_ && _)).
  assert (Hgrows3 : LoadGrows s s3).
  { apply (LoadGrows_trans _ s1); [done|].
    unfold s3. destruct (_ && _); [by apply LoadGrows_same|apply LoadGrows_refl]. }
  split; [congruence|]. split; [|split; [congruence|]].
  - rewrite Hqueue, Htiles3, filter_cons.
    unfold s3. rewrite Htiles1.
    destruct (renderable (tiles s tile) && isTileVisible c tile) eqn:Hb.
    + rewrite decide_True by done. cbn. rewrite Hqueue1, <- app_assoc. done.
    + rewrite decide_False by done. by rewrite Hqueue1.
  - by apply (LoadGrows_trans _ s3).
Qed.

Lemma NoDup_fst_unique {A B} (l : list (A * B)) x y1 y2 :
  NoDup l.*1 -> (x, y1) ∈ l -> (x, y2) ∈ l -> y1 = y2.
Proof.
  induction l as [|[a b] l IH]; intros Hnd H1 H2.
  { by apply elem_of_nil in H1. }
  simpl in Hnd. apply NoDup_cons in Hnd as [Hnotin Hnd].
  assert (Hfst : forall y, (x, y) ∈ l -> x ∈ l.*1).
  { intros y Hy. apply list_elem_of_fmap. by exists (x, y). }
  apply elem_of_cons in H1 as [H1|H1]; apply elem_of_cons in H2 as [H2|H2].
  - congruence.
  - injection H1 as -> ->. destruct Hnotin. by apply Hfst with y2.
  - injection H2 as -> ->. destruct Hnotin. by apply Hfst with y1.
  - by apply IH.
Qed.

(** The state in which the traversal starts satisfies the invariant, and
    the weight of its queue is at most that of the level zero tiles. *)
Lemma Traversal_start s :
  tiles s = ts ->
  renderedTiles s = [] ->
  _tileTraversalQueue s = [] ->
  QueueOk (_tileLoadQueue s) ->
  Traversal c roots ts (enqueueRoots c roots s) []
  /\ queueWeight c (_tileTraversalQueue (enqueueRoots c roots s))
     <= length roots * subtreeSize (maxLevel c).
Proof.
  intros Htiles Hrendered Hqueue Hok.
  destruct (enqueueRoots_spec roots s) as (Htiles' & Hqueue' & Hlists & Hgrows).
  rewrite Hqueue in Hqueue'. simpl in Hqueue'.
  split.
  - constructor.
    + congruence.
    + by apply Hgrows.
    + intros tile action Hin. by apply elem_of_nil in Hin.
    + simpl. rewrite Hqueue'.
      apply NoDup_filter, (roots_NoDup c roots quadTree).
    + simpl. rewrite Hqueue'. intros t [_ Hin]%list_elem_of_filter.
      split; [|by left].
      rewrite (roots_level c roots quadTree t Hin). lia.
    + intros p child Hin. by apply elem_of_nil in Hin.
    + intros p action child Hin. by apply elem_of_nil in Hin.
    + intros t. unfold renderedTiles in *. rewrite Hlists, Hrendered.
      split; intros Hin; by apply elem_of_nil in Hin.
  - rewrite Hqueue'. unfold queueWeight.
    etrans; [apply sum_list_with_filter|].
    rewrite (sum_list_with_same (weight c) (subtreeSize (maxLevel c))); [done|].
    intros t Hin. unfold weight.
    rewrite (roots_level c roots quadTree t Hin). by rewrite Nat.sub_0_r.
Qed.

End SelectionFacts.

(** The quadtree of [quadChildren] under distinct tiles of level 0. *)
Lemma QuadTree_quadChildren c roots :
  Engine.getChildren c = Engine.quadChildren ->
  NoDup roots ->
  (forall r, r ∈ roots -> level r = 0) ->
  Engine.QuadTree c roots.
Proof.
  intros Hch Hnd Hlevel.
  assert (Hin : forall t child, child ∈ Engine.quadChildren t ->
            exists a b, a < 2 /\ b < 2
              /\ child = mkTileId (S (level t)) (2 * x t + a) (2 * y t + b)).
  { intros t child Hc. unfold Engine.quadChildren in Hc.
    rewrite !elem_of_cons, elem_of_nil in Hc.
    destruct Hc as [->|[->|[->|[->|[]]]]];
      [exists 0, 0|exists 1, 0|exists 0, 1|exists 1, 1];
      (split; [lia|split; [lia|f_equal; lia]]). }
  constructor; rewrite ?Hch.
  - done.
  - done.
  - intros t child (a & b & _ & _ & ->)%Hin. done.
  - done.
  - intros t. unfold Engine.quadChildren.
    repeat (apply NoDup_cons; split;
            [rewrite ?elem_of_cons, elem_of_nil;
             intros Heq; repeat destruct Heq as [Heq|Heq]; try done;
             injection Heq; lia|]).
    constructor.
  - intros [l1 x1 y1] [l2 x2 y2] child
      (a & b & Ha & Hb & ->)%Hin (a' & b' & Ha' & Hb' & Heq)%Hin.
    simpl in Heq. injection Heq as Hl Hx Hy. f_equal; lia.
Qed.

(** C7.  A tile linked into the load queue has [doneLoading] false, in
    every state of the surface: a tile enters the queue only when the flag
    is false, the completion step that sets it removes the tile, and the
    layer events and the providers never set it. *)
Theorem load_queue_holds_only_loading_tiles s tile :
  Engine.Reachable s ->
  tile ∈ Engine.loadItems (Engine._tileLoadQueue s) ->
  doneLoading (Engine.tiles s tile) = false.
Proof.
  intros Hreach. revert tile. change (Engine.LoadInvariant s).
  induction Hreach as [s Hempty|c walk fuel budget s _ IH|c layers layer index s _ IH
                 |layers layer index s _ IH|layers layer newIndex oldIndex s _ IH
                 |tile st s _ IH|img st s _ IH].
  - intros t Hin. rewrite Hempty in Hin. by apply elem_of_nil in Hin.
  - by apply update_LoadInvariant.
  - eapply LoadInvariant_Shrinks; [|exact IH].
    apply (Shrinks_trans _ (Engine.setLayers layers s)); [by intros t Hin|].
    unfold Engine._onLayerAdded.
    destruct (Engine._levelZeroTiles _); [|apply Shrinks_refl].
    apply Shrinks_foldl. intros. apply layerAddedOnTile_Shrinks.
  - eapply LoadInvariant_Shrinks; [|exact IH].
    apply (Shrinks_trans _ (Engine.setLayers layers s)); [by intros t Hin|].
    unfold Engine._onLayerRemoved.
    destruct (Engine._levelZeroTiles _); [|apply Shrinks_refl].
    apply Shrinks_foldl. intros. apply layerRemovedOnTile_Shrinks.
  - eapply LoadInvariant_Shrinks; [|exact IH].
    apply (Shrinks_trans _ (Engine.setLayers layers s)); [by intros t Hin|].
    apply onLayerMoved_Shrinks.
  - eapply LoadInvariant_Shrinks; [|exact IH]. by apply Shrinks_updateTile.
  - eapply LoadInvariant_Shrinks; [|exact IH].
    apply SameFlags_Shrinks, SameFlags_setImageries.
Qed.

Lemma load_queue_holds_only_loading_tiles_witness :
  let s := fst (Engine.update Engine.eagerCollaborators 8 100 1 Engine.newSurface) in
  Engine.Reachable s
  /\ Engine.root1 ∈ Engine.loadItems (Engine._tileLoadQueue s)
  /\ doneLoading (Engine.tiles s Engine.root1) = false.
Proof.
  intros s.
  assert (Hreach : Engine.Reachable s).
  { apply Engine.reach_update, Engine.reach_new. reflexivity. }
  assert (Hin : Engine.root1 ∈ Engine.loadItems (Engine._tileLoadQueue s)).
  { vm_compute. apply list_elem_of_further, list_elem_of_here. }
  split; [exact Hreach|]. split; [exact Hin|].
  exact (load_queue_holds_only_loading_tiles s Engine.root1 Hreach Hin).
Defined.

(** C2.  With fuel for the subtrees of the level zero tiles the selection
    returns, and for every tile it dequeued: the tile was refined exactly
    when its screen-space error was not below the threshold, its level was
    strictly below [maxLevel] and all its children were renderable, and was
    put on a render list otherwise; a tile at [maxLevel] was rendered; the
    visible children of a refined tile were dequeued in their turn; the
    children still loading of a tile that was not fine enough and not at
    [maxLevel] are in the load queue; no tile was dequeued twice, so none
    was both rendered and refined. *)
Theorem selection_refines_exactly_when_children_are_renderable c s fuel :
  Engine.suspendLodUpdate s = false ->
  Engine.QuadTree c (default [] (Engine._levelZeroTiles s)) ->
  Engine.traversalFuel c s <= fuel ->
  exists s' visits,
    Engine.selectTilesForRendering c fuel s = Returned (s', visits)
    /\ NoDup visits.*1
    /\ (forall t, t ∈ Engine.renderedTiles s'
                  <-> (t, Engine.Rendered) ∈ visits)
    /\ forall tile action, (tile, action) ∈ visits ->
         (action = Engine.Refined
          <-> Engine.SpecRefines c (Engine.tiles s) tile)
         /\ (action = Engine.Rendered <-> tile ∈ Engine.renderedTiles s')
         /\ (level tile = Engine.maxLevel c -> action = Engine.Rendered)
         /\ (action = Engine.Refined ->
             forall child, child ∈ Engine.getChildren c tile ->
               Engine.isTileVisible c child = true -> child ∈ visits.*1)
         /\ (~ (Engine.screenSpaceError c tile
                < Engine.maxScreenSpaceError c)%Q ->
             level tile < Engine.maxLevel c ->
             forall child, child ∈ Engine.getChildren c tile ->
               doneLoading (Engine.tiles s child) = false ->
               child ∈ Engine.loadItems (Engine._tileLoadQueue s'))
         /\ (tile ∈ default [] (Engine._levelZeroTiles s)
             \/ exists p, (p, Engine.Refined) ∈ visits
                          /\ tile ∈ Engine.getChildren c p
                          /\ Engine.isTileVisible c tile = true).
Proof.
  intros Hsuspend Hquad Hfuel.
  unfold Engine.selectTilesForRendering, Engine.traversalFuel in *.
  rewrite Hsuspend. cbn [Engine._levelZeroTiles Engine.setRenderLists].
  destruct (Engine._levelZeroTiles s) as [roots|] eqn:Hroots.
  2:{ eexists _, []. split; [done|]. split; [constructor|]. split.
      - intros t. unfold Engine.renderedTiles. cbn.
        rewrite renderedTiles_clearRenderLists.
        split; intros Hin; by apply elem_of_nil in Hin.
      - intros tile action Hin. by apply elem_of_nil in Hin. }
  simpl in Hquad, Hfuel.
  match goal with
  | |- context [Engine.enqueueRoots c roots ?s0] =>
      destruct (Traversal_start c roots (Engine.tiles s) Hquad s0)
        as [Hinv Hweight]
  end.
  { done. }
  { unfold Engine.renderedTiles. cbn. apply renderedTiles_clearRenderLists. }
  { done. }
  { apply QueueOk_markInsertionPoint. }
  destruct (traverse_spec c roots (Engine.tiles s) Hquad fuel _ [] Hinv)
    as (s' & visits & Hret & Hfinal & Hempty); [lia|].
  exists s', visits. split; [exact Hret|].
  destruct Hfinal as [Htiles Hok Haction Hnodup Horigin Hchildren Hloads Hrend].
  rewrite Hempty, app_nil_r in Hnodup, Horigin, Hchildren.
  split; [done|]. split; [done|].
  intros tile action Hin.
  split; [by apply Haction|]. split; [|split; [|split; [|split]]].
  - split.
    + intros ->. by apply Hrend.
    + intros Hr%Hrend. by apply (NoDup_fst_unique visits tile).
  - intros Hmax. destruct action; [done|].
    destruct (proj1 (Haction tile Engine.Refined Hin) eq_refl) as (_ & ? & _).
    lia.
  - intros ->. intros child. by apply Hchildren.
  - intros Hsse Hlt child. by apply Hloads with action.
  - apply Horigin. apply list_elem_of_fmap. by exists (tile, action).
Qed.

Lemma selection_refines_exactly_when_children_are_renderable_witness :
  Engine.suspendLodUpdate Engine.loadedSurface = false
  /\ Engine.QuadTree Engine.eagerCollaborators
       (default [] (Engine._levelZeroTiles Engine.loadedSurface))
  /\ Engine.traversalFuel Engine.eagerCollaborators Engine.loadedSurface <= 100
  /\ exists s' visits,
       Engine.selectTilesForRendering Engine.eagerCollaborators 100
         Engine.loadedSurface = Returned (s', visits)
       /\ NoDup visits.*1.
Proof.
  assert (H1 : Engine.suspendLodUpdate Engine.loadedSurface = false)
    by (vm_compute; reflexivity).
  assert (H2 : Engine.QuadTree Engine.eagerCollaborators
                 (default [] (Engine._levelZeroTiles Engine.loadedSurface))).
  { assert (Hroots : default [] (Engine._levelZeroTiles Engine.loadedSurface)
                     = [Engine.root0; Engine.root1])
      by (vm_compute; reflexivity).
    rewrite Hroots. apply QuadTree_quadChildren; [reflexivity| |].
    - repeat (apply NoDup_cons; split;
              [rewrite ?elem_of_cons, elem_of_nil;
               intros Heq; repeat destruct Heq as [Heq|Heq]; done|]).
      constructor.
    - intros r Hr. rewrite !elem_of_cons, elem_of_nil in Hr.
      destruct Hr as [->|[->|[]]]; reflexivity. }
  assert (H3 : Engine.traversalFuel Engine.eagerCollaborators
                 Engine.loadedSurface <= 100)
    by (vm_compute; lia).
  split; [exact H1|]. split; [exact H2|]. split; [exact H3|].
  destruct (selection_refines_exactly_when_children_are_renderable
              Engine.eagerCollaborators Engine.loadedSurface 100 H1 H2 H3)
    as (s' & visits & Hret & Hnodup & _).
  exists s', visits. split; [exact Hret|exact Hnodup].
Defined.

Section RenderListFacts.

Import Engine.

Variable c : Collaborators.

Lemma lookup_store_Some {A} i (v : option A) arr k x :
  JsArray.store i v arr !! k = Some (Some x) ->
  (k = i /\ v = Some x) \/ (k <> i /\ arr !! k = Some (Some x)).
Proof.
  unfold JsArray.store. destruct (decide (i < length arr)) as [Hlt|Hge].
  - destruct (decide (k = i)) as [->|Hne].
    + rewrite list_lookup_insert_eq by done. intros [= ->]. by left.
    + rewrite list_lookup_insert_ne by done. by right.
  - intros Hk. apply lookup_app_Some in Hk as [Hk|[Hlen Hk]].
    + right. split; [|done]. apply lookup_lt_Some in Hk. lia.
    + apply lookup_app_Some in Hk as [Hk|[Hlen' Hk]].
      * by apply lookup_replicate in Hk as [[=] _].
      * rewrite length_replicate in Hlen', Hk.
        apply list_lookup_singleton_Some in Hk as [Hk ->].
        left. split; [lia|done].
Qed.

Lemma elem_of_renderedTiles s t :
  t ∈ renderedTiles s
  <-> exists k tileSet,
        _tilesToRenderByTextureCount s !! k = Some (Some tileSet)
        /\ t ∈ tileSet.
Proof.
  unfold renderedTiles. rewrite list_elem_of_bind. split.
  - intros ([tileSet|] & Hin & Hset); [|by apply elem_of_nil in Hin].
    apply list_elem_of_lookup in Hset as [k Hk]. by exists k, tileSet.
  - intros (k & tileSet & Hk & Hin). exists (Some tileSet). split; [done|].
    apply list_elem_of_lookup. by exists k.
Qed.

Lemma readyTextureCount_ext s s' t :
  tiles s' = tiles s -> imageries s' = imageries s ->
  readyTextureCount s' t = readyTextureCount s t.
Proof. unfold readyTextureCount. by intros -> ->. Qed.

Lemma WellSorted_addTileToRenderList s0 s tile :
  tiles s = tiles s0 -> imageries s = imageries s0 ->
  renderable (tiles s0 tile) = true -> isTileVisible c tile = true ->
  WellSorted c s0 (_tilesToRenderByTextureCount s) ->
  WellSorted c s0 (_tilesToRenderByTextureCount (addTileToRenderList tile s)).
Proof.
  intros Htiles Himgs Hr Hv Hsorted k tileSet t Hk Hin.
  unfold addTileToRenderList in Hk. cbn in Hk.
  apply lookup_store_Some in Hk as [[-> Hset]|[_ Hk]];
    [|by apply (Hsorted k tileSet)].
  injection Hset as <-.
  apply elem_of_app in Hin as [Hin|Hin];
    [|apply list_elem_of_singleton in Hin as ->].
  - unfold JsArray.get in Hin.
    destruct (_tilesToRenderByTextureCount s !! readyTextureCount s tile)
      as [[old|]|] eqn:Hold; simpl in Hin;
      try by apply elem_of_nil in Hin.
    by apply (Hsorted _ old).
  - split; [done|]. split; [done|]. symmetry. by apply readyTextureCount_ext.
Qed.

Lemma queueChildren_imageries : forall children allRenderable s,
  imageries (queueChildren children allRenderable s).2 = imageries s.
Proof.
  induction children as [|child children IH]; intros allRenderable s;
    [done|].
  cbn [queueChildren]. cbv zeta. rewrite IH.
  by destruct (doneLoading _).
Qed.

(** What a visit does to the traversal queue and the render lists, whatever
    the level of the tile. *)
Lemma visitTile_frame s0 tile s action s1 :
  tiles s = tiles s0 -> imageries s = imageries s0 ->
  renderable (tiles s0 tile) = true -> isTileVisible c tile = true ->
  WellSorted c s0 (_tilesToRenderByTextureCount s) ->
  visitTile c tile s = (action, s1) ->
  tiles s1 = tiles s0 /\ imageries s1 = imageries s0
  /\ WellSorted c s0 (_tilesToRenderByTextureCount s1)
  /\ exists extra,
       _tileTraversalQueue s1 = _tileTraversalQueue s ++ extra
       /\ forall child, child ∈ extra ->
            renderable (tiles s0 child) = true
            /\ isTileVisible c child = true.
Proof.
  intros Htiles Himgs Hr Hv Hsorted. unfold visitTile.
  set (s' := setReplacementQueue _ s).
  assert (Hrender : forall s2, tiles s2 = tiles s0 ->
            imageries s2 = imageries s0 ->
            _tileTraversalQueue s2 = _tileTraversalQueue s ->
            _tilesToRenderByTextureCount s2 = _tilesToRenderByTextureCount s ->
            tiles (addTileToRenderList tile s2) = tiles s0
            /\ imageries (addTileToRenderList tile s2) = imageries s0
            /\ WellSorted c s0
                 (_tilesToRenderByTextureCount (addTileToRenderList tile s2))
            /\ exists extra,
                 _tileTraversalQueue (addTileToRenderList tile s2)
                 = _tileTraversalQueue s ++ extra
                 /\ forall child, child ∈ extra ->
                      renderable (tiles s0 child) = true
                      /\ isTileVisible c child = true).
  { intros s2 Ht Hi Hq Hl. split; [done|]. split; [done|]. split.
    - apply WellSorted_addTileToRenderList; try done. by rewrite Hl.
    - exists []. split; [by rewrite app_nil_r|].
      intros child Hin. by apply elem_of_nil in Hin. }
  destruct (Qlt_le_dec _ _) as [Hlt|Hle].
  { intros [= <- <-]. by apply Hrender. }
  unfold queueChildrenLoadAndDetermineIfChildrenAreAllRenderable.
  destruct (decide (level tile = maxLevel c)) as [Hmax|Hmax].
  { intros [= <- <-]. by apply Hrender. }
  destruct (queueChildren_spec (getChildren c tile) true s')
    as (Hall & Htiles2 & Hqueue2 & Hlists2 & _).
  pose proof (queueChildren_imageries (getChildren c tile) true s') as Himgs2.
  destruct (queueChildren (getChildren c tile) true s') as [allRenderable s2].
  simpl in Hall, Htiles2, Hqueue2, Hlists2, Himgs2.
  destruct allRenderable; intros [= <- <-].
  - split; [by rewrite <- Htiles|]. split; [by rewrite <- Himgs|].
    split; [cbn; by rewrite Hlists2|].
    eexists. split; [cbn; by rewrite Hqueue2|].
    intros child [Hvis Hin]%list_elem_of_filter. split; [|done].
    symmetry in Hall. rewrite forallb_elem_of in Hall.
    rewrite <- Htiles. by apply Hall.
  - apply Hrender; congruence.
Qed.

Lemma traverse_WellSorted s0 : forall fuel s visits s' visits',
  traverse c fuel s visits = Returned (s', visits') ->
  tiles s = tiles s0 -> imageries s = imageries s0 ->
  (forall t, t ∈ _tileTraversalQueue s ->
     renderable (tiles s0 t) = true /\ isTileVisible c t = true) ->
  WellSorted c s0 (_tilesToRenderByTextureCount s) ->
  tiles s' = tiles s0 /\ imageries s' = imageries s0
  /\ WellSorted c s0 (_tilesToRenderByTextureCount s').
Proof.
  induction fuel as [|fuel IH]; intros s visits s' visits'; simpl.
  - destruct (_tileTraversalQueue s); [|done]. by intros [= <- _].
  - destruct (_tileTraversalQueue s) as [|tile queue] eqn:Hq.
    { by intros [= <- _]. }
    destruct (visitTile c tile (setTraversalQueue queue s))
      as [action s1] eqn:Hvisit.
    intros Htr Htiles Himgs Hqueue Hsorted.
    destruct (Hqueue tile) as [Hr Hv]; [by left|].
    destruct (visitTile_frame s0 tile (setTraversalQueue queue s) action s1)
      as (Htiles1 & Himgs1 & Hsorted1 & extra & Hqueue1 & Hextra);
      try done.
    apply (IH s1 _ s' visits' Htr); try done.
    intros t. rewrite Hqueue1. cbn. intros [Hin|Hin]%elem_of_app.
    + apply Hqueue. by right.
    + by apply Hextra.
Qed.

Lemma enqueueRoots_imageries : forall levelZeroTiles s,
  imageries (enqueueRoots c levelZeroTiles s) = imageries s.
Proof.
  induction levelZeroTiles as [|tile rest IH]; intros s; [done|].
  cbn [enqueueRoots]. cbv zeta. rewrite IH.
  destruct (_ && _); by destruct (doneLoading _).
Qed.

Lemma selectTilesForRendering_WellSorted fuel s s' visits :
  suspendLodUpdate s = false ->
  selectTilesForRendering c fuel s = Returned (s', visits) ->
  tiles s' = tiles s /\ imageries s' = imageries s
  /\ WellSorted c s (_tilesToRenderByTextureCount s').
Proof.
  intros Hsuspend. unfold selectTilesForRendering. rewrite Hsuspend.
  assert (Hclear : WellSorted c s
            (clearRenderLists (_tilesToRenderByTextureCount s))).
  { intros k tileSet t Hk Hin. unfold clearRenderLists in Hk.
    rewrite list_lookup_fmap in Hk.
    destruct (_tilesToRenderByTextureCount s !! k) as [[old|]|];
      simpl in Hk; try done.
    injection Hk as <-. by apply elem_of_nil in Hin. }
  cbn [_levelZeroTiles setRenderLists].
  destruct (_levelZeroTiles s) as [roots|].
  2:{ by intros [= <- _]. }
  match goal with
  | |- traverse c fuel (enqueueRoots c roots ?s1) [] = _ -> _ =>
      destruct (enqueueRoots_spec c roots s1) as (Htiles & Hqueue & Hlists & _);
      pose proof (enqueueRoots_imageries roots s1) as Himgs
  end.
  intros Htr.
  apply (traverse_WellSorted s) in Htr; try done.
  - rewrite Hqueue. cbn. intros t [Hb _]%list_elem_of_filter.
    by apply andb_true_iff in Hb.
  - by rewrite Hlists.
Qed.

End RenderListFacts.

(** X1.  Every tile that a selection puts on the render lists is renderable
    and passed the visibility test of the frame: the level zero tiles are
    queued only when they are both, and the children of a tile only when
    all of them are renderable, the visible ones. *)
Theorem rendered_tiles_are_renderable_and_visible c fuel s s' visits t :
  Engine.suspendLodUpdate s = false ->
  Engine.selectTilesForRendering c fuel s = Returned (s', visits) ->
  t ∈ Engine.renderedTiles s' ->
  renderable (Engine.tiles s' t) = true /\ Engine.isTileVisible c t = true.
Proof.
  intros Hsuspend Hselect Hin.
  destruct (selectTilesForRendering_WellSorted c fuel s s' visits Hsuspend
              Hselect) as (Htiles & _ & Hsorted).
  apply elem_of_renderedTiles in Hin as (k & tileSet & Hk & Hin).
  destruct (Hsorted k tileSet t Hk Hin) as (Hr & Hv & _).
  by rewrite Htiles.
Qed.

Lemma rendered_tiles_are_renderable_and_visible_witness :
  let s' :=
    match Engine.selectTilesForRendering Engine.eagerCollaborators 100
            Engine.loadedSurface with
    | Returned (s', _) => s'
    | _ => Engine.loadedSurface
    end in
  mkTileId 1 3 1 ∈ Engine.renderedTiles s'
  /\ renderable (Engine.tiles s' (mkTileId 1 3 1)) = true
  /\ Engine.isTileVisible Engine.eagerCollaborators (mkTileId 1 3 1) = true.
Proof.
  destruct (Engine.selectTilesForRendering Engine.eagerCollaborators 100
              Engine.loadedSurface) as [[s' visits]| |] eqn:Hselect;
    [|by vm_compute in Hselect..].
  intros s''. subst s''.
  assert (Hin : mkTileId 1 3 1 ∈ Engine.renderedTiles s').
  { vm_compute in Hselect. injection Hselect as <- _.
    vm_compute. repeat constructor. }
  split; [exact Hin|].
  apply (rendered_tiles_are_renderable_and_visible Engine.eagerCollaborators
           100 Engine.loadedSurface s' visits);
    [vm_compute; reflexivity|exact Hselect|exact Hin].
Defined.



Section LayerFacts.

Context {A : Type}.

(** What [splice] removes and leaves, with the clamped start and count. *)
Lemma splice_bounds (start deleteCount : Z) (items arr : list A) :
  exists s d,
    s + d <= length arr
    /\ JsArray.splice start deleteCount items arr
       = (take d (drop s arr), take s arr ++ items ++ drop (s + d) arr).
Proof.
  unfold JsArray.splice. cbv zeta.
  eexists _, _. split; [|reflexivity].
  destruct (start <? 0)%Z eqn:Hneg; lia.
Qed.

Lemma splice_at (l1 l2 l3 items : list A) :
  JsArray.splice (Z.of_nat (length l1)) (Z.of_nat (length l2)) items
    (l1 ++ l2 ++ l3)
  = (l2, l1 ++ items ++ l3).
Proof.
  unfold JsArray.splice. cbv zeta.
  rewrite (proj2 (Z.ltb_ge _ _)) by lia.
  rewrite !length_app.
  replace (Z.to_nat (Z.min (Z.of_nat (length l1))
             (Z.of_nat (length l1 + (length l2 + length l3)))))
    with (length l1) by lia.
  replace (Z.to_nat (Z.min (Z.max (Z.of_nat (length l2)) 0) _))
    with (length l2) by lia.
  rewrite drop_app_length, take_app_length, take_app_length.
  by rewrite drop_app_add, drop_app_length.
Qed.

Lemma splice_removes_nothing (arr : list A) :
  JsArray.splice (-1) 0 [] arr = ([], arr).
Proof.
  unfold JsArray.splice. cbv zeta. simpl.
  replace (Z.to_nat (Z.min (Z.max 0 0) _)) with 0 by lia.
  rewrite Nat.add_0_r. simpl. by rewrite take_drop.
Qed.

Lemma splice_permutation (start deleteCount : Z) (items arr : list A) :
  let r := JsArray.splice start deleteCount items arr in
  r.1 ++ r.2 ≡ₚ items ++ arr.
Proof.
  destruct (splice_bounds start deleteCount items arr) as (s & d & _ & ->).
  simpl.
  rewrite <- (take_drop s arr) at 4.
  rewrite <- (take_drop d (drop s arr)) at 2.
  rewrite drop_drop.
  set (a := take s arr). set (b := take d (drop s arr)).
  set (e := drop (s + d) arr).
  rewrite (Permutation_app_swap_app b a (items ++ e)).
  rewrite (Permutation_app_swap_app items a (b ++ e)).
  f_equiv. apply Permutation_app_swap_app.
Qed.

Lemma splice_insert (start : Z) (items arr : list A) :
  exists s,
    (JsArray.splice start 0 items arr).2 = take s arr ++ items ++ drop s arr.
Proof.
  unfold JsArray.splice. cbv zeta. simpl. eexists.
  replace (Z.to_nat (Z.min (Z.max 0 0) _)) with 0
    by (destruct (start <? 0)%Z; lia).
  rewrite Nat.add_0_r. reflexivity.
Qed.

Lemma splice_inserts_nothing (start : Z) (arr : list A) :
  (JsArray.splice start 0 [] arr).2 = arr.
Proof.
  unfold JsArray.splice. cbv zeta. simpl.
  replace (Z.to_nat (Z.min (Z.max 0 0) _)) with 0
    by (destruct (start <? 0)%Z; lia).
  by rewrite Nat.add_0_r, take_drop.
Qed.

End LayerFacts.

Section MoveFacts.

Import Layers.

Variable imgs : ImageryStore.
Variable layer : LayerId.
Variable newNextLayer : option LayerId.

Local Abbreviation layerOf ti := (imageryLayer (imgs (imagery ti))).
Local Abbreviation scan := (scanTileImagery imgs layer newNextLayer).

(** Entries that the scan passes without a change: they are not of the
    layer, and either the next layer is still looked for and they are not
    of it, or the block of the layer has not begun. *)
Lemma scan_skip skipped rest : forall i acc,
  Forall (fun ti => layerOf ti <> layer) skipped ->
  (newTileImageryIndex acc = (-1)%Z ->
   Forall (fun ti => Some (layerOf ti) <> newNextLayer) skipped) ->
  (newTileImageryIndex acc = (-1)%Z \/ oldTileImageryIndex acc = (-1)%Z) ->
  scan i (skipped ++ rest) acc
  = scan (i + Z.of_nat (length skipped)) rest acc.
Proof.
  induction skipped as [|ti skipped IH]; intros i acc Hlayer Hnext Hacc.
  { simpl. by rewrite Z.add_0_r. }
  apply Forall_cons in Hlayer as [Hti Hlayer].
  cbn [app scanTileImagery]. cbv zeta.
  assert (Hfirst : bool_decide (newTileImageryIndex acc = (-1)%Z)
                   && bool_decide (Some (layerOf ti) = newNextLayer) = false).
  { destruct (decide (newTileImageryIndex acc = (-1)%Z)) as [Hnew|Hnew].
    - apply Hnext, Forall_cons in Hnew as [Hne _].
      by rewrite (bool_decide_eq_false_2 _ Hne), andb_false_r.
    - by rewrite (bool_decide_eq_false_2 _ Hnew). }
  rewrite Hfirst, (bool_decide_eq_false_2 _ Hti).
  assert (Hthird : negb (bool_decide (newTileImageryIndex acc = (-1)%Z))
                   && negb (bool_decide (oldTileImageryIndex acc = (-1)%Z))
                   = false).
  { destruct Hacc as [Hnew|Hold].
    - by rewrite (bool_decide_eq_true_2 _ Hnew).
    - by rewrite (bool_decide_eq_true_2 _ Hold), andb_false_r. }
  rewrite Hthird, IH; [|done| |done].
  - f_equal. simpl length. lia.
  - intros Hnew. by apply Hnext, Forall_cons in Hnew as [_ ?].
Qed.

(** The entries of the layer, once they cannot be taken for the next
    layer: they are counted, and the first marks the old index. *)
Lemma scan_block block rest : forall i acc,
  (0 <= i)%Z ->
  Forall (fun ti => layerOf ti = layer) block ->
  (newTileImageryIndex acc = (-1)%Z -> Some layer <> newNextLayer) ->
  scan i (block ++ rest) acc
  = scan (i + Z.of_nat (length block)) rest
      {| oldTileImageryIndex :=
           if bool_decide (oldTileImageryIndex acc = (-1)%Z)
              && bool_decide (block <> [])
           then i else oldTileImageryIndex acc;
         newTileImageryIndex := newTileImageryIndex acc;
         numTileImagery := numTileImagery acc + Z.of_nat (length block) |}.
Proof.
  induction block as [|ti block IH]; intros i acc Hi0 Hlayer Hnext.
  { simpl. rewrite !Z.add_0_r, andb_false_r. by destruct acc. }
  apply Forall_cons in Hlayer as [Hti Hlayer].
  cbn [app scanTileImagery]. cbv zeta.
  assert (Hfirst : bool_decide (newTileImageryIndex acc = (-1)%Z)
                   && bool_decide (Some (layerOf ti) = newNextLayer) = false).
  { destruct (decide (newTileImageryIndex acc = (-1)%Z)) as [Hnew|Hnew].
    - rewrite Hti.
      by rewrite (bool_decide_eq_false_2 _ (Hnext Hnew)), andb_false_r.
    - by rewrite (bool_decide_eq_false_2 _ Hnew). }
  rewrite Hfirst, (bool_decide_eq_true_2 _ Hti), IH by (done || lia).
  cbn [oldTileImageryIndex newTileImageryIndex numTileImagery].
  f_equal; [simpl length; lia|]. f_equal.
  - rewrite (bool_decide_eq_true_2 (ti :: block <> [])) by done.
    rewrite andb_true_r.
    destruct (bool_decide (oldTileImageryIndex acc = (-1)%Z)) eqn:Hold;
      simpl; [|by rewrite Hold].
    rewrite (bool_decide_eq_false_2 (i = (-1)%Z)) by lia. done.
  - simpl length. lia.
Qed.

(** The [break]. *)
Lemma scan_break ti rest i acc :
  layerOf ti <> layer ->
  newTileImageryIndex acc <> (-1)%Z ->
  oldTileImageryIndex acc <> (-1)%Z ->
  scan i (ti :: rest) acc = acc.
Proof.
  intros Hti Hnew Hold. cbn [scanTileImagery]. cbv zeta.
  by rewrite (bool_decide_eq_false_2 _ Hnew), (bool_decide_eq_false_2 _ Hti),
    (bool_decide_eq_false_2 _ Hold).
Qed.

(** The first entry of the next layer. *)
Lemma scan_next ti rest i acc :
  Some (layerOf ti) = newNextLayer ->
  newTileImageryIndex acc = (-1)%Z ->
  scan i (ti :: rest) acc
  = scan (i + 1) rest
      {| oldTileImageryIndex := oldTileImageryIndex acc;
         newTileImageryIndex := i;
         numTileImagery := numTileImagery acc |}.
Proof.
  intros Hti Hnew. cbn [scanTileImagery]. cbv zeta.
  by rewrite (bool_decide_eq_true_2 _ Hnew), (bool_decide_eq_true_2 _ Hti).
Qed.

Lemma scan_absent coll : forall i acc,
  Forall (fun ti => layerOf ti <> layer) coll ->
  oldTileImageryIndex acc = (-1)%Z -> numTileImagery acc = 0%Z ->
  oldTileImageryIndex (scan i coll acc) = (-1)%Z
  /\ numTileImagery (scan i coll acc) = 0%Z.
Proof.
  induction coll as [|ti coll IH]; intros i acc Hlayer Hold Hnum; [done|].
  apply Forall_cons in Hlayer as [Hti Hlayer].
  cbn [scanTileImagery]. cbv zeta.
  rewrite (bool_decide_eq_false_2 _ Hti), (bool_decide_eq_true_2 _ Hold).
  rewrite andb_false_r.
  destruct (_ && _); by apply IH.
Qed.

End MoveFacts.

(** X3.  [moveTileImageryObjects] only reorders a stack: whatever the
    layers, the stack afterwards is a permutation of the stack before. *)
Theorem moveTileImageryObjects_permutes imgs coll layer newNextLayer :
  Layers.moveTileImageryObjects imgs coll layer newNextLayer ≡ₚ coll.
Proof.
  unfold Layers.moveTileImageryObjects. cbv zeta.
  match goal with
  | |- context [JsArray.splice ?a ?b [] coll] =>
      pose proof (splice_permutation a b [] coll) as Hout;
      destruct (JsArray.splice a b [] coll) as [removed spliced]
  end.
  simpl in Hout.
  match goal with
  | |- context [JsArray.splice ?a 0 removed spliced] =>
      destruct (splice_insert a removed spliced) as [s0 ->]
  end.
  rewrite (Permutation_app_swap_app (take s0 spliced) removed).
  by rewrite take_drop.
Qed.

(** X4.  A stack that holds no entry of the layer is left as it is. *)
Theorem moveTileImageryObjects_without_layer imgs coll layer newNextLayer :
  Forall (fun ti => imageryLayer (imgs (imagery ti)) <> layer) coll ->
  Layers.moveTileImageryObjects imgs coll layer newNextLayer = coll.
Proof.
  intros Habsent. unfold Layers.moveTileImageryObjects. cbv zeta.
  match goal with
  | |- context [Layers.scanTileImagery imgs layer newNextLayer 0 coll ?acc] =>
      destruct (scan_absent imgs layer newNextLayer coll 0 acc Habsent)
        as [Hold Hnum]; [done..|]
  end.
  rewrite Hold, Hnum, splice_removes_nothing.
  apply splice_inserts_nothing.
Qed.

Lemma moveTileImageryObjects_without_layer_witness :
  Layers.moveTileImageryObjects Layers.twoLayerImagery
    [Layers.entryOf 0; Layers.entryOf 1] 2 (Some 1)
  = [Layers.entryOf 0; Layers.entryOf 1].
Proof.
  apply moveTileImageryObjects_without_layer.
  repeat constructor; simpl; lia.
Defined.

(** X5.  A layer moved to the top (no layer follows it): in a stack whose
    entries of the layer form one block, the block goes to the end and the
    other entries keep their order. *)
Theorem moveTileImageryObjects_to_top imgs layer pre block post :
  Forall (fun ti => imageryLayer (imgs (imagery ti)) <> layer) pre ->
  Forall (fun ti => imageryLayer (imgs (imagery ti)) = layer) block ->
  block <> [] ->
  Forall (fun ti => imageryLayer (imgs (imagery ti)) <> layer) post ->
  Layers.moveTileImageryObjects imgs (pre ++ block ++ post) layer None
  = pre ++ post ++ block.
Proof.
  intros Hpre Hblock Hne Hpost.
  assert (Hscan :
    Layers.scanTileImagery imgs layer None 0 (pre ++ block ++ post)
      {| Layers.oldTileImageryIndex := -1; Layers.newTileImageryIndex := -1;
         Layers.numTileImagery := 0 |}
    = {| Layers.oldTileImageryIndex := Z.of_nat (length pre);
         Layers.newTileImageryIndex := -1;
         Layers.numTileImagery := Z.of_nat (length block) |}).
  { rewrite scan_skip; [|done|intros _; by apply Forall_true|by left].
    rewrite scan_block; [|lia|done|done].
    rewrite <- (app_nil_r post).
    rewrite scan_skip; [|done|intros _; by apply Forall_true|by left].
    cbn [Layers.scanTileImagery Layers.oldTileImageryIndex
         Layers.newTileImageryIndex Layers.numTileImagery].
    rewrite (bool_decide_eq_true_2 (block <> [])) by done.
    rewrite (bool_decide_eq_true_2 (-1 = -1)%Z) by done.
    simpl andb. cbv iota. f_equal; lia. }
  unfold Layers.moveTileImageryObjects. cbv zeta. rewrite Hscan.
  cbn [Layers.oldTileImageryIndex Layers.newTileImageryIndex
       Layers.numTileImagery].
  rewrite splice_at.
  rewrite (bool_decide_eq_true_2 (-1 = -1)%Z) by done.
  rewrite app_nil_l.
  pose proof (splice_at (pre ++ post) [] [] block) as Hs.
  rewrite !app_nil_r in Hs. simpl length in Hs at 2.
  change (Z.of_nat 0) with 0%Z in Hs.
  rewrite Hs. simpl. by rewrite app_assoc.
Qed.

Lemma moveTileImageryObjects_to_top_witness :
  Layers.moveTileImageryObjects Layers.twoLayerImagery
    ([Layers.entryOf 0] ++ [Layers.entryOf 1] ++ [Layers.entryOf 2]) 1 None
  = [Layers.entryOf 0] ++ [Layers.entryOf 2] ++ [Layers.entryOf 1].
Proof.
  apply moveTileImageryObjects_to_top;
    [repeat constructor; simpl; lia|repeat constructor|done
    |repeat constructor; simpl; lia].
Defined.

(** The block of a layer that lies after the first entry of [next] is moved
    to just before that entry. *)
Lemma moveTileImageryObjects_lowered imgs layer next
    pre first mid block post :
  next <> layer ->
  Forall (fun ti => imageryLayer (imgs (imagery ti)) <> layer
                    /\ imageryLayer (imgs (imagery ti)) <> next) pre ->
  imageryLayer (imgs (imagery first)) = next ->
  Forall (fun ti => imageryLayer (imgs (imagery ti)) <> layer) mid ->
  Forall (fun ti => imageryLayer (imgs (imagery ti)) = layer) block ->
  block <> [] ->
  match post with
  | [] => True
  | ti :: _ => imageryLayer (imgs (imagery ti)) <> layer
  end ->
  Layers.moveTileImageryObjects imgs
    (pre ++ first :: mid ++ block ++ post) layer (Some next)
  = pre ++ block ++ first :: mid ++ post.
Proof.
  intros Hdiff Hpre Hfirst Hmid Hblock Hne Hpost.
  assert (Hscan :
    Layers.scanTileImagery imgs layer (Some next) 0
      (pre ++ first :: mid ++ block ++ post)
      {| Layers.oldTileImageryIndex := -1; Layers.newTileImageryIndex := -1;
         Layers.numTileImagery := 0 |}
    = {| Layers.oldTileImageryIndex :=
           Z.of_nat (length (pre ++ first :: mid));
         Layers.newTileImageryIndex := Z.of_nat (length pre);
         Layers.numTileImagery := Z.of_nat (length block) |}).
  { rewrite scan_skip; [| | |by left].
    2:{ eapply Forall_impl; [exact Hpre|]. by intros ti [? _]. }
    2:{ intros _. eapply Forall_impl; [exact Hpre|].
        intros ti [_ Hn] [= Heq]. by apply Hn. }
    rewrite scan_next; [|by rewrite Hfirst|done].
    cbn [Layers.oldTileImageryIndex Layers.newTileImageryIndex
         Layers.numTileImagery].
    rewrite scan_skip; [|done| |by right].
    2:{ cbn. lia. }
    rewrite scan_block; [|lia|done|].
    2:{ cbn. lia. }
    cbn [Layers.oldTileImageryIndex Layers.newTileImageryIndex
         Layers.numTileImagery].
    rewrite (bool_decide_eq_true_2 (block <> [])) by done.
    rewrite (bool_decide_eq_true_2 (-1 = -1)%Z) by done.
    simpl andb. cbv iota.
    assert (Hresult : forall acc,
              Layers.newTileImageryIndex acc <> (-1)%Z ->
              Layers.oldTileImageryIndex acc <> (-1)%Z ->
              forall i, Layers.scanTileImagery imgs layer (Some next) i post acc
                        = acc).
    { intros acc Hn Ho i. destruct post as [|ti post']; [done|].
      by apply scan_break. }
    rewrite Hresult by (cbn; lia).
    rewrite length_app. simpl length. f_equal; lia. }
  unfold Layers.moveTileImageryObjects. cbv zeta. rewrite Hscan.
  cbn [Layers.oldTileImageryIndex Layers.newTileImageryIndex
       Layers.numTileImagery].
  replace (pre ++ first :: mid ++ block ++ post)
    with ((pre ++ first :: mid) ++ block ++ post)
    by (by rewrite <- app_assoc).
  rewrite splice_at.
  rewrite (bool_decide_eq_false_2 (Z.of_nat (length pre) = (-1)%Z)) by lia.
  rewrite app_nil_l, <- app_assoc.
  pose proof (splice_at pre [] (first :: mid ++ post) block) as Hs.
  simpl length in Hs at 2. change (Z.of_nat 0) with 0%Z in Hs.
  rewrite app_nil_l in Hs. simpl app in Hs at 2.
  cbn [app] in Hs |- *. rewrite Hs. done.
Qed.

(** X6.  A layer lowered below [next]: in a stack where the block of the
    layer lies after the first entry of [next], the block is moved to just
    before that entry and the other entries keep their order. *)
Theorem moveTileImageryObjects_lowers_block imgs layer next
    pre first mid block post :
  next <> layer ->
  Forall (fun ti => imageryLayer (imgs (imagery ti)) <> layer
                    /\ imageryLayer (imgs (imagery ti)) <> next) pre ->
  imageryLayer (imgs (imagery first)) = next ->
  Forall (fun ti => imageryLayer (imgs (imagery ti)) <> layer) mid ->
  Forall (fun ti => imageryLayer (imgs (imagery ti)) = layer) block ->
  block <> [] ->
  match post with
  | [] => True
  | ti :: _ => imageryLayer (imgs (imagery ti)) <> layer
  end ->
  Layers.moveTileImageryObjects imgs
    (pre ++ first :: mid ++ block ++ post) layer (Some next)
  = pre ++ block ++ first :: mid ++ post.
Proof.
  intros Hdiff Hpre Hfirst Hmid Hblock Hne Hpost.
  by apply moveTileImageryObjects_lowered.
Qed.

Lemma moveTileImageryObjects_lowers_block_witness :
  Layers.moveTileImageryObjects Layers.twoLayerImagery
    ([Layers.entryOf 0] ++ Layers.entryOf 1 :: [Layers.entryOf 2]
       ++ [Layers.entryOf 3; Layers.entryOf 3] ++ [Layers.entryOf 4])
    3 (Some 1)
  = [Layers.entryOf 0] ++ [Layers.entryOf 3; Layers.entryOf 3]
      ++ Layers.entryOf 1 :: [Layers.entryOf 2] ++ [Layers.entryOf 4].
Proof.
  apply moveTileImageryObjects_lowers_block;
    [lia|repeat constructor; simpl; lia|reflexivity
    |repeat constructor; simpl; lia|repeat constructor|done|simpl; lia].
Defined.

(** X7.  A layer added below the layer [next]: for a tile whose stack holds
    entries of [next] and none of the new layer, the skeletons that the
    layer creates end up just before the first entry of [next]; the tile is
    marked as still loading, but the handler does not put it in the load
    queue. *)
Theorem layerAdded_places_skeletons_before_next_layer
    c layer next s tile pre first mid :
  let created := Engine.createTileImagerySkeletons c layer tile in
  let layerOf ti := imageryLayer (Engine.imageries s (imagery ti)) in
  next <> layer ->
  tile_imagery (Engine.tiles s tile) = pre ++ first :: mid ->
  Forall (fun ti => layerOf ti <> layer /\ layerOf ti <> next) pre ->
  layerOf first = next ->
  Forall (fun ti => layerOf ti <> layer) mid ->
  Forall (fun ti => layerOf ti = layer) created ->
  created <> [] ->
  let s' := Engine.layerAddedOnTile c layer (Some next) s tile in
  tile_imagery (Engine.tiles s' tile) = pre ++ created ++ first :: mid
  /\ doneLoading (Engine.tiles s' tile) = false
  /\ renderable (Engine.tiles s' tile) = renderable (Engine.tiles s tile)
  /\ Engine._tileLoadQueue s' = Engine._tileLoadQueue s.
Proof.
  intros created layerOf Hdiff Hstack Hpre Hfirst Hmid Hcreated Hne s'.
  unfold s', Engine.layerAddedOnTile. fold created.
  destruct created as [|ti created'] eqn:Hc; [done|]. rewrite <- Hc in *.
  cbv zeta.
  rewrite !tiles_updateTile, !decide_True by done.
  cbn [tile_imagery doneLoading renderable Engine.withImagery
       Engine.withDoneLoading Engine.imageries Engine.updateTile
       Engine.setTiles Engine._tileLoadQueue].
  split; [|done]. rewrite Hstack, <- app_assoc. cbn [app].
  rewrite <- (app_nil_r created) at 1.
  rewrite (moveTileImageryObjects_lowered (Engine.imageries s) layer next
             pre first mid created []); try done.
  by rewrite app_nil_r.
Qed.

Lemma layerAdded_places_skeletons_before_next_layer_witness :
  let s' :=
    Engine.layerAddedOnTile Engine.eagerCollaborators 2 (Some 1)
      Engine.loadedSurface Engine.root0 in
  tile_imagery (Engine.tiles s' Engine.root0)
  = [mkTileImagery 0 None 0 (Some 5)] ++ [mkTileImagery 2 None 0 None]
      ++ mkTileImagery 1 None 0 (Some 5) :: []
  /\ doneLoading (Engine.tiles s' Engine.root0) = false
  /\ renderable (Engine.tiles s' Engine.root0)
     = renderable (Engine.tiles Engine.loadedSurface Engine.root0)
  /\ Engine._tileLoadQueue s' = Engine._tileLoadQueue Engine.loadedSurface.
Proof.
  apply (layerAdded_places_skeletons_before_next_layer
           Engine.eagerCollaborators 2 1 Engine.loadedSurface Engine.root0
           [mkTileImagery 0 None 0 (Some 5)] (mkTileImagery 1 None 0 (Some 5))
           []).
  - lia.
  - vm_compute. reflexivity.
  - repeat constructor; vm_compute; lia.
  - vm_compute. reflexivity.
  - constructor.
  - repeat constructor.
  - done.
Defined.

Section RemoveFacts.

Import Engine.

Variable imgs : ImageryStore.
Variable layer : LayerId.

Local Abbreviation layerOf ti := (imageryLayer (imgs (imagery ti))).

Lemma scanRemoved_skip skipped rest : forall i numDestroyed released,
  Forall (fun ti => layerOf ti <> layer) skipped ->
  scanRemoved imgs layer i (skipped ++ rest) (-1) numDestroyed released
  = scanRemoved imgs layer (i + Z.of_nat (length skipped)) rest (-1)
      numDestroyed released.
Proof.
  induction skipped as [|ti skipped IH]; intros i numDestroyed released Hskip.
  { simpl. by rewrite Z.add_0_r. }
  apply Forall_cons in Hskip as [Hti Hskip].
  cbn [app scanRemoved].
  rewrite decide_False, decide_True, IH by done.
  f_equal. simpl length. lia.
Qed.

Lemma scanRemoved_block block rest : forall i startIndex numDestroyed released,
  (0 <= i)%Z ->
  Forall (fun ti => layerOf ti = layer) block ->
  scanRemoved imgs layer i (block ++ rest) startIndex numDestroyed released
  = scanRemoved imgs layer (i + Z.of_nat (length block)) rest
      (if bool_decide (startIndex = (-1)%Z) && bool_decide (block <> [])
       then i else startIndex)
      (numDestroyed + Z.of_nat (length block))
      (released ++ (imagery <$> block)).
Proof.
  induction block as [|ti block IH];
    intros i startIndex numDestroyed released Hi Hblock.
  { simpl. by rewrite !Z.add_0_r, andb_false_r, app_nil_r. }
  apply Forall_cons in Hblock as [Hti Hblock].
  cbn [app scanRemoved]. rewrite decide_True, IH by (done || lia).
  rewrite (bool_decide_eq_true_2 (ti :: block <> [])) by done.
  rewrite andb_true_r, <- app_assoc. simpl length. cbn [fmap list_fmap app].
  f_equal; [lia| |lia].
  destruct (decide (startIndex = (-1)%Z)) as [Hs|Hs].
  - rewrite (bool_decide_eq_true_2 _ Hs).
    rewrite (bool_decide_eq_false_2 (i = (-1)%Z)) by lia. done.
  - by rewrite !(bool_decide_eq_false_2 _ Hs).
Qed.

Lemma scanRemoved_break post i startIndex numDestroyed released :
  startIndex <> (-1)%Z ->
  match post with
  | [] => True
  | ti :: _ => layerOf ti <> layer
  end ->
  scanRemoved imgs layer i post startIndex numDestroyed released
  = (startIndex, numDestroyed, released).
Proof.
  intros Hs Hpost. destruct post as [|ti post]; [done|].
  cbn [scanRemoved]. by rewrite !decide_False.
Qed.

End RemoveFacts.

Lemma foldl_releaseReference released : forall s,
  let s' := foldl (fun s img => Engine.releaseReference img s) s released in
  Engine.tiles s' = Engine.tiles s
  /\ Engine._tileLoadQueue s' = Engine._tileLoadQueue s
  /\ forall i,
       referenceCount (Engine.imageries s' i)
       = (referenceCount (Engine.imageries s i)
          - Z.of_nat (length (filter (fun j => j = i) released)))%Z.
Proof.
  induction released as [|img released IH]; intros s.
  { simpl. repeat split; try done. intros i. lia. }
  cbn [foldl]. destruct (IH (Engine.releaseReference img s))
    as (Htiles & Hqueue & Hcount).
  split; [done|]. split; [done|]. intros i. rewrite Hcount.
  rewrite filter_cons. unfold Engine.releaseReference. cbn.
  unfold alter, fn_alter.
  destruct (decide (img = i)) as [->|Hne]; simpl length; [cbn|]; lia.
Qed.

(** X8.  The body of [_onLayerRemoved] for a tile whose entries of the
    layer form one block: the block is spliced out and the other entries
    keep their order, every imagery of the block is released once for each
    of its entries, and the tile stops being renderable when no entry is
    left; [doneLoading] and the load queue are not touched. *)
Theorem layerRemoved_removes_block layer s tile pre block post :
  let layerOf ti := imageryLayer (Engine.imageries s (imagery ti)) in
  tile_imagery (Engine.tiles s tile) = pre ++ block ++ post ->
  Forall (fun ti => layerOf ti <> layer) pre ->
  Forall (fun ti => layerOf ti = layer) block ->
  block <> [] ->
  match post with
  | [] => True
  | ti :: _ => layerOf ti <> layer
  end ->
  let s' := Engine.layerRemovedOnTile layer s tile in
  tile_imagery (Engine.tiles s' tile) = pre ++ post
  /\ renderable (Engine.tiles s' tile)
     = bool_decide (pre ++ post <> []) && renderable (Engine.tiles s tile)
  /\ doneLoading (Engine.tiles s' tile) = doneLoading (Engine.tiles s tile)
  /\ (forall i,
        referenceCount (Engine.imageries s' i)
        = (referenceCount (Engine.imageries s i)
           - Z.of_nat (length (filter (fun ti => imagery ti = i) block)))%Z)
  /\ Engine._tileLoadQueue s' = Engine._tileLoadQueue s.
Proof.
  intros layerOf Hstack Hpre Hblock Hne Hpost s'.
  unfold s', Engine.layerRemovedOnTile. rewrite Hstack.
  rewrite scanRemoved_skip, scanRemoved_block by (done || lia).
  rewrite scanRemoved_break;
    [|rewrite (bool_decide_eq_true_2 (block <> [])) by done; simpl; lia
     |done].
  rewrite (bool_decide_eq_true_2 (block <> [])) by done.
  cbn [bool_decide decide_rel andb app]. simpl (bool_decide _ && true).
  rewrite !Z.add_0_l.
  destruct (foldl_releaseReference (imagery <$> block) s)
    as (Htiles & Hqueue & Hcount).
  set (s1 := foldl _ s (imagery <$> block)) in *.
  destruct (decide (Z.of_nat (length pre) = (-1)%Z)) as [?|_]; [lia|].
  rewrite splice_at. cbn [snd app].
  assert (Hfilter : forall i,
            length (filter (fun j => j = i) (imagery <$> block))
            = length (filter (fun ti => imagery ti = i) block)).
  { intros i. clear. induction block as [|ti b IH]; [done|].
    cbn [fmap list_fmap]. rewrite !filter_cons.
    destruct (decide (imagery ti = i)); simpl; by rewrite IH. }
  destruct (decide (length (pre ++ post) = 0)) as [Hempty|Hleft].
  - apply length_zero_iff_nil in Hempty. rewrite Hempty.
    rewrite !tiles_updateTile, !decide_True by done. cbn.
    rewrite Htiles. repeat split; try done.
    intros i. by rewrite Hcount, Hfilter.
  - rewrite !tiles_updateTile, !decide_True by done. cbn.
    rewrite Htiles.
    rewrite (bool_decide_eq_true_2 (pre ++ post <> []))
      by (intros Heq; by rewrite Heq in Hleft).
    repeat split; try done.
    intros i. by rewrite Hcount, Hfilter.
Qed.

Lemma layerRemoved_removes_block_witness :
  let s' := Engine.layerRemovedOnTile 0 Engine.loadedSurface Engine.root0 in
  tile_imagery (Engine.tiles s' Engine.root0)
  = [] ++ [mkTileImagery 1 None 0 (Some 5)]
  /\ (referenceCount (Engine.imageries s' 0%nat)
      = referenceCount (Engine.imageries Engine.loadedSurface 0%nat) - 1)%Z.
Proof.
  destruct (layerRemoved_removes_block 0 Engine.loadedSurface Engine.root0
              [] [mkTileImagery 0 None 0 (Some 5)]
              [mkTileImagery 1 None 0 (Some 5)])
    as (Hstack & _ & _ & Hcount & _).
  - vm_compute. reflexivity.
  - constructor.
  - repeat constructor.
  - done.
  - vm_compute. lia.
  - split; [exact Hstack|]. rewrite (Hcount 0). reflexivity.
Defined.

Section FallbackFacts.

Import Engine.

Variable c : Collaborators.

Lemma finishEntry_entry tile i img s ti :
  tile_imagery (tiles s tile) !! i = Some ti ->
  let r := finishEntry c tile i img s in
  (exists ti',
     tile_imagery (tiles r.1 tile) !! i = Some ti'
     /\ imagery ti' = imagery ti
     /\ originalImagery ti' = originalImagery ti)
  /\ imageries r.1 = imageries s
  /\ (forall j, j <> i ->
        tile_imagery (tiles r.1 tile) !! j = tile_imagery (tiles s tile) !! j)
  /\ r.2 = Processed false
             (bool_decide (imagery_state (imageries s img) = READY))
             (imagery_state (imageries s img)).
Proof.
  intros Hi. unfold finishEntry. rewrite Hi. cbv zeta.
  destruct (_ && _); cbn [fst snd].
  - rewrite stack_updateEntry, imageries_updateEntry.
    split; [|split; [done|split; [|done]]].
    + rewrite list_lookup_alter_eq, Hi. simpl. by eexists.
    + intros j Hj. by rewrite list_lookup_alter_ne.
  - split; [by exists ti|]. done.
Qed.

Lemma advanceImagery_failed img s :
  isFailedOrInvalid (imagery_state (imageries s img)) = true ->
  advanceImagery c img s = s.
Proof.
  intros Hfailed. unfold advanceImagery.
  assert (Hun : imagery_state (imageries s img) <> UNLOADED)
    by (intros Hst; by rewrite Hst in Hfailed).
  assert (Hrec : imagery_state (imageries s img) <> RECEIVED)
    by (intros Hst; by rewrite Hst in Hfailed).
  assert (Htex : imagery_state (imageries s img) <> TEXTURE_LOADED)
    by (intros Hst; by rewrite Hst in Hfailed).
  destruct (decide (imagery_state (imageries s img) = UNLOADED)); [done|].
  destruct (decide (imagery_state (imageries s img) = RECEIVED)); [done|].
  by destruct (decide (imagery_state (imageries s img) = TEXTURE_LOADED)).
Qed.

End FallbackFacts.

(** X9.  The fallback for a failed or invalid imagery that has an ancestor
    which is neither, when the bound on the walk allows for the failed
    ancestors before the nearest such ancestor: the pass through the body
    of the imagery loop ends normally; the entry then refers to that
    nearest ancestor and keeps the failed imagery in [originalImagery]; the
    ancestor has one reference more and the failed imagery is not released;
    the other entries are as they were. *)
Theorem failed_imagery_falls_back_to_ancestor c walk tile i s ti n p :
  let img := imagery ti in
  tile_imagery (Engine.tiles s tile) !! i = Some ti ->
  isFailedOrInvalid (imagery_state (Engine.imageries s img)) = true ->
  Engine.NearestUsable (Engine.imageries s)
    (imagery_parent (Engine.imageries s img)) n p ->
  n <= walk ->
  let r := Engine.imageryBody c walk tile i s in
  let seen := imagery_state (Engine.imageries s p) in
  r.2 = Engine.Processed false (bool_decide (seen = READY)) seen
  /\ isFailedOrInvalid seen = false
  /\ (exists ti',
        tile_imagery (Engine.tiles r.1 tile) !! i = Some ti'
        /\ imagery ti' = p /\ originalImagery ti' = Some img)
  /\ (forall j, j <> i ->
        tile_imagery (Engine.tiles r.1 tile) !! j
        = tile_imagery (Engine.tiles s tile) !! j)
  /\ referenceCount (Engine.imageries r.1 p)
     = (referenceCount (Engine.imageries s p) + 1)%Z
  /\ forall x, x <> p -> Engine.imageries r.1 x = Engine.imageries s x.
Proof.
  intros img Hi Hfailed Hnearest Hwalk r seen.
  pose proof (findAncestor_nearest _ _ _ _ _ Hnearest Hwalk) as Hfind.
  destruct Hnearest as (_ & Hok & _).
  unfold r, Engine.imageryBody. rewrite Hi. fold img.
  assert (Hph : bool_decide
                  (imagery_state (Engine.imageries s img) = PLACEHOLDER)
                = false).
  { apply bool_decide_eq_false_2. intros Hst. by rewrite Hst in Hfailed. }
  rewrite Hph. cbn [andb].
  rewrite (advanceImagery_failed c img s Hfailed), Hfailed.
  unfold Engine.substituteParent. rewrite Hfind.
  match goal with
  | |- context [Engine.finishEntry c tile i p ?s1] =>
      set (s2 := s1);
      destruct (finishEntry_entry c tile i p s2
                  (mkTileImagery p (Some img) (textureCoordinateExtent ti)
                     (textureTranslationAndScale ti)))
        as ((ti' & Hi' & Himg' & Horig') & Himgs & Hother & Hres)
  end.
  { unfold s2. rewrite stack_updateEntry, stack_addReference,
      stack_updateEntry, !list_lookup_alter_eq, Hi. done. }
  assert (Himgs2 : Engine.imageries s2
                   = alter
                       (fun img0 =>
                          Engine.setReferenceCount (referenceCount img0 + 1)
                            img0)
                       p (Engine.imageries s)).
  { unfold s2. by rewrite imageries_updateEntry. }
  assert (Hstate : imagery_state (Engine.imageries s2 p) = seen).
  { rewrite Himgs2. unfold alter, fn_alter. by rewrite decide_True. }
  split; [by rewrite Hres, Hstate|]. split; [done|].
  split; [by exists ti'|]. split.
  { intros j Hj. rewrite Hother by done. unfold s2.
    rewrite stack_updateEntry, stack_addReference, stack_updateEntry.
    by rewrite !list_lookup_alter_ne. }
  rewrite Himgs, Himgs2. unfold alter, fn_alter. split.
  - by rewrite decide_True.
  - intros x Hx. by rewrite decide_False.
Qed.

Lemma failed_imagery_falls_back_to_ancestor_witness :
  let r :=
    Engine.imageryBody Engine.eagerCollaborators 2 Engine.root0 0
      Engine.fallbackSurface in
  r.2 = Engine.Processed false true READY
  /\ tile_imagery (Engine.tiles r.1 Engine.root0) !! 0
     = Some (mkTileImagery 0 (Some 1) 0 (Some 5))
  /\ referenceCount (Engine.imageries r.1 0) = 2%Z.
Proof.
  destruct (failed_imagery_falls_back_to_ancestor Engine.eagerCollaborators
              2 Engine.root0 0 Engine.fallbackSurface
              (mkTileImagery 1 None 0 None) 2 0)
    as (Hres & _ & _ & _ & Hcount & _).
  - reflexivity.
  - reflexivity.
  - split; [reflexivity|]. split; [reflexivity|].
    intros [|[|k]] Hk; [by exists 2|by exists 3|lia].
  - lia.
  - split; [exact Hres|]. split; [reflexivity|exact Hcount].
Defined.

(** X10.  After [createRenderCommandsForSelectedTiles] the pool
    [_tileCommands] holds the commands pushed in the call, in order, except
    the last one: its length is set to the index of the last command, not to
    the number of commands.  The pool of uniform maps is not trimmed and
    holds a map for every command pushed. *)
Theorem tileCommands_pool_keeps_all_but_the_last_command
    (maxTextures : nat) (tiles : TileStore) (imageries : ImageryStore)
    (center : TileId -> Handle) (alpha : LayerId -> Handle)
    (getShaderProgram : nat -> Handle)
    (sortByDistance : list TileId -> list TileId)
    (tileSets : list (option (list TileId))) (r : Commands.Renderer) :
  0 < maxTextures ->
  Commands.WellFormed r ->
  exists r',
    Commands.createRenderCommandsForSelectedTiles maxTextures tiles
      imageries center alpha getShaderProgram sortByDistance tileSets r
    = Returned r'
    /\ Commands._tileCommands r'
       = Some <$> take (length (Commands.emittedSince r r') - 1)
                    (Commands.emittedSince r r')
    /\ length (Commands.emittedSince r r')
       <= length (Commands._tileCommandUniformMaps r').
Proof.
  intros Hpos Hwf.
  pose proof (Emitted_start maxTextures imageries Hpos r Hwf) as Hem.
  destruct (renderTileSets_spec maxTextures tiles imageries center alpha
              getShaderProgram sortByDistance Hpos r tileSets 0 r 0 [] Hem)
    as (r1 & Hrun & Hem' & _).
  cbn zeta in Hrun, Hem'. simpl in Hrun, Hem'.
  set (runs := Commands.renderOrder sortByDistance tileSets
                 ≫= Commands.tileSegments tiles imageries maxTextures) in *.
  unfold Commands.createRenderCommandsForSelectedTiles.
  change (-1)%Z with (Z.of_nat 0 - 1)%Z. rewrite Hrun.
  eexists. split; [reflexivity|].
  destruct Hem' as (cs & us & Hpools & Hk & _ & Hlist & _).
  destruct Hpools as (Hcs & Hus & _ & _ & _ & _ & Hlen).
  unfold Commands.emittedSince.
  cbn [Commands.colorCommandList Commands._tileCommands
       Commands._tileCommandUniformMaps].
  rewrite Hlist, drop_app_length, Hcs, Hus, !length_fmap, length_take.
  replace (length runs `min` length cs) with (length runs) by lia.
  split; [|lia].
  replace (Z.to_nat (Z.max 0 (Z.of_nat (length runs) - 1)))
    with (length runs - 1) by lia.
  rewrite setLength_take by (rewrite length_fmap; lia).
  rewrite <- fmap_take, take_take. f_equal. f_equal. lia.
Qed.

Lemma tileCommands_pool_keeps_all_but_the_last_command_witness :
  exists r',
    Commands.createRenderCommandsForSelectedTiles 2
      (Commands.sampleTiles
         [Commands.sampleEntry 0; Commands.sampleEntry 1;
          Commands.sampleEntry 2])
      Commands.sampleImageries (fun _ => 0) (fun _ => 0) (fun n => n)
      (fun tileSet => tileSet) [Some [mkTileId 0 0 0]] Commands.emptyRenderer
    = Returned r'
    /\ Commands._tileCommands r'
       = Some <$> take (length (Commands.emittedSince Commands.emptyRenderer r')
                        - 1)
                    (Commands.emittedSince Commands.emptyRenderer r')
    /\ length (Commands.emittedSince Commands.emptyRenderer r')
       <= length (Commands._tileCommandUniformMaps r').
Proof.
  apply tileCommands_pool_keeps_all_but_the_last_command;
    [lia|apply WellFormed_emptyRenderer].
Defined.

Section ErrorMetricFacts.

Import ScreenSpaceError.

Local Open Scope R_scope.

(** X11.  [distanceSquaredToTile] is never negative, and in 3D it is zero
    exactly when the camera is on the inner side of the four planes of the
    tile and not above its maximum height. *)
Theorem distanceSquaredToTile_zero_inside frameState camera cartographic tile :
  let d := distanceSquaredToTile frameState camera cartographic tile in
  0 <= d
  /\ (mode frameState = SCENE3D ->
      (d = 0 <->
       dot (subtract camera (southwestCornerCartesian tile)) (westNormal tile)
         <= 0
       /\ dot (subtract camera (northeastCornerCartesian tile))
            (eastNormal tile) <= 0
       /\ dot (subtract camera (southwestCornerCartesian tile))
            (southNormal tile) <= 0
       /\ dot (subtract camera (northeastCornerCartesian tile))
            (northNormal tile) <= 0
       /\ height cartographic <= maxHeight tile)).
Proof.
  intros d. unfold d, distanceSquaredToTile. cbv zeta. split.
  - repeat match goal with
           | |- context [Rgt_dec ?a ?b] => destruct (Rgt_dec a b)
           end; nra.
  - intros H3D. rewrite (bool_decide_eq_true_2 _ H3D).
    repeat match goal with
           | |- context [Rgt_dec ?a ?b] => destruct (Rgt_dec a b)
           end; split; intros; try nra; repeat split; nra.
Qed.

(** X12.  The latitude that the 3D error metric takes the cosine of is the
    latitude of the extent closest to the equator: for an extent between
    the poles no latitude of the extent has a larger cosine. *)
Theorem latitudeFactor_is_largest_cosine (e : Extent) (phi : R) :
  - (PI / 2) <= south e ->
  north e <= PI / 2 ->
  south e <= phi <= north e ->
  Rabs (latitudeClosestToEquator e) <= Rabs phi
  /\ cos phi <= cos (latitudeClosestToEquator e).
Proof.
  intros Hsouth Hnorth [Hlow Hhigh].
  assert (Habs : Rabs (latitudeClosestToEquator e) <= Rabs phi).
  { unfold latitudeClosestToEquator.
    destruct (Rgt_dec (south e) 0); [|destruct (Rlt_dec (north e) 0)];
      unfold Rabs; repeat destruct (Rcase_abs _); lra. }
  split; [exact Habs|].
  assert (Hcos : forall x, cos x = cos (Rabs x)).
  { intros x. unfold Rabs. destruct (Rcase_abs x); [by rewrite cos_neg|done]. }
  rewrite (Hcos phi), (Hcos (latitudeClosestToEquator e)).
  pose proof PI_RGT_0 as Hpi.
  assert (Hphi : Rabs phi <= PI / 2)
    by (unfold Rabs; destruct (Rcase_abs phi); lra).
  apply cos_decr_1; try lra; apply Rabs_pos.
Qed.

Lemma latitudeFactor_is_largest_cosine_witness :
  Rabs (latitudeClosestToEquator (extent northernTile)) <= Rabs (PI / 2)
  /\ cos (PI / 2) <= cos (latitudeClosestToEquator (extent northernTile)).
Proof.
  pose proof PI_RGT_0 as Hpi.
  apply latitudeFactor_is_largest_cosine; simpl; lra.
Defined.

End ErrorMetricFacts.

(** X13.  [createRenderCommandsForSelectedTiles] only appends to the
    caller's [colorCommandList]: the commands already there stay, in their
    order, and the number of commands appended is the sum, over the tiles of
    the sets that are neither undefined nor empty, of the count of the batch
    loop for the tile's stack. *)
Theorem createRenderCommands_appends_the_commands_of_every_tile
    (maxTextures : nat) (tiles : TileStore) (imageries : ImageryStore)
    (center : TileId -> Handle) (alpha : LayerId -> Handle)
    (getShaderProgram : nat -> Handle)
    (sortByDistance : list TileId -> list TileId)
    (tileSets : list (option (list TileId))) (r : Commands.Renderer) :
  0 < maxTextures ->
  Commands.WellFormed r ->
  exists r' news,
    Commands.createRenderCommandsForSelectedTiles maxTextures tiles
      imageries center alpha getShaderProgram sortByDistance tileSets r
    = Returned r'
    /\ Commands.colorCommandList r' = Commands.colorCommandList r ++ news
    /\ length news
       = sum_list_with
           (fun tile =>
              Commands.commandCount imageries maxTextures
                (tile_imagery (tiles tile)))
           (Commands.renderOrder sortByDistance tileSets).
Proof.
  intros Hpos Hwf.
  pose proof (Emitted_start maxTextures imageries Hpos r Hwf) as Hem.
  destruct (renderTileSets_spec maxTextures tiles imageries center alpha
              getShaderProgram sortByDistance Hpos r tileSets 0 r 0 [] Hem)
    as (r1 & Hrun & Hem' & news & Hnews).
  cbn zeta in Hrun, Hem'. simpl in Hrun, Hem'.
  unfold Commands.createRenderCommandsForSelectedTiles.
  change (-1)%Z with (Z.of_nat 0 - 1)%Z. rewrite Hrun.
  eexists _, news. split; [reflexivity|]. split; [exact Hnews|].
  destruct Hem' as (cs & us & _ & Hk & _ & Hlist & _).
  rewrite Hnews in Hlist. apply app_inv_head in Hlist.
  rewrite Hlist, length_take, Nat.min_l by done.
  generalize (Commands.renderOrder sortByDistance tileSets).
  induction l as [|tile order IH]; [done|].
  rewrite bind_cons, length_app, IH. simpl. f_equal.
  unfold Commands.tileSegments. apply segments_length; [done|lia].
Qed.

Lemma createRenderCommands_appends_the_commands_of_every_tile_witness :
  exists r' news,
    Commands.createRenderCommandsForSelectedTiles 2
      (Commands.sampleTiles
         [Commands.sampleEntry 0; Commands.sampleEntry 1;
          Commands.sampleEntry 2])
      Commands.sampleImageries (fun _ => 0) (fun _ => 0) (fun n => n)
      (fun tileSet => tileSet)
      [None; Some []; Some [mkTileId 0 0 0; mkTileId 0 1 0]] staleRenderer
    = Returned r'
    /\ Commands.colorCommandList r'
       = Commands.colorCommandList staleRenderer ++ news
    /\ length news = 4.
Proof.
  apply (createRenderCommands_appends_the_commands_of_every_tile 2
           (Commands.sampleTiles
              [Commands.sampleEntry 0; Commands.sampleEntry 1;
               Commands.sampleEntry 2])
           Commands.sampleImageries (fun _ => 0) (fun _ => 0) (fun n => n)
           (fun tileSet => tileSet)
           [None; Some []; Some [mkTileId 0 0 0; mkTileId 0 1 0]]
           staleRenderer);
    [lia|apply WellFormed_staleRenderer].
Defined.

Section ParallelArrays.

Import Commands.

Variable maxTextures : nat.
Variable imageries : ImageryStore.
Variable alpha : LayerId -> Handle.

Lemma lookup_store_eq {A} i (v : option A) arr :
  JsArray.store i v arr !! i = Some v.
Proof.
  unfold JsArray.store. destruct (decide (i < length arr)).
  - by rewrite list_lookup_insert_eq.
  - rewrite lookup_app_r by lia. rewrite lookup_app_r;
      rewrite length_replicate; [|lia].
    by replace (i - length arr - (i - length arr)) with 0 by lia.
Qed.

Lemma lookup_store_ne {A} i (v : option A) arr j x :
  j <> i -> arr !! j = Some x -> JsArray.store i v arr !! j = Some x.
Proof.
  intros Hne Hj. unfold JsArray.store. destruct (decide (i < length arr)).
  - by rewrite list_lookup_insert_ne.
  - by apply lookup_app_l_Some.
Qed.

Local Abbreviation ready l := (filter (fun ti => isReady imageries ti = true) l).

Lemma packDayTextures_parallel rest : forall n um acc,
  length acc = n ->
  (forall j ti, acc !! j = Some ti -> FilledAt imageries alpha um j ti) ->
  let r := packDayTextures maxTextures imageries alpha n rest um in
  exists walked,
    rest = walked ++ r.1.2
    /\ r.1.1 = n + length (ready walked)
    /\ (n <= maxTextures -> r.1.1 <= maxTextures)
    /\ forall j ti, (acc ++ ready walked) !! j = Some ti ->
         FilledAt imageries alpha r.2 j ti.
Proof.
  induction rest as [|ti rest IH]; intros n um acc Hlen Hacc; cbv zeta.
  { exists []. simpl. rewrite app_nil_r, Nat.add_0_r.
    split; [done|split; [done|split; [done|exact Hacc]]]. }
  cbn [packDayTextures].
  destruct (decide (n < maxTextures)) as [Hlt|Hge].
  2:{ exists []. simpl. rewrite app_nil_r, Nat.add_0_r.
      split; [done|split; [done|split; [done|exact Hacc]]]. }
  destruct (decide (imagery_state (imageries (imagery ti)) = READY))
    as [Hready|Hnot].
  - match goal with
    | |- context [packDayTextures _ _ _ (S n) rest ?um1] =>
        destruct (IH (S n) um1 (acc ++ [ti]))
          as (walked & Hrest & Hcount & Hmax & Hfilled)
    end.
    { rewrite length_app. simpl. lia. }
    { intros j t Hj. apply lookup_app_Some in Hj as [Hj|[Hlen' Hj]].
      - destruct (Hacc j t Hj) as (H1 & H2 & H3 & H4).
        apply lookup_lt_Some in Hj.
        unfold FilledAt. cbn.
        repeat split; apply lookup_store_ne; (done || lia).
      - apply list_lookup_singleton_Some in Hj as [Hj ->].
        replace j with n by lia. unfold FilledAt. cbn.
        repeat split; apply lookup_store_eq. }
    exists (ti :: walked). rewrite filter_cons, decide_True
      by (unfold isReady; by apply bool_decide_eq_true_2).
    split; [by rewrite Hrest at 1|]. split; [simpl; lia|].
    split; [intros _; apply Hmax; lia|].
    intros j t Hj. apply Hfilled. by rewrite <- app_assoc.
  - destruct (IH n um acc Hlen Hacc)
      as (walked & Hrest & Hcount & Hmax & Hfilled).
    exists (ti :: walked). rewrite filter_cons, decide_False
      by (unfold isReady; by rewrite (bool_decide_eq_false_2 _ Hnot)).
    split; [by rewrite Hrest at 1|]. done.
Qed.

End ParallelArrays.

(** X14.  The inner loop of the batch loop fills the four arrays of the
    uniform map in parallel: it walks a prefix of the entries, packs at
    most [maxTextures] of them, and index [j] of each array holds the
    texture, the translation and scale, the texture coordinate extent and
    the layer alpha of the [j]-th READY entry it walked. *)
Theorem packDayTextures_fills_the_arrays_in_parallel
    (maxTextures : nat) (imageries : ImageryStore) (alpha : LayerId -> Handle)
    (rest : list TileImagery) (um : Commands.UniformMap) :
  let r := Commands.packDayTextures maxTextures imageries alpha 0 rest um in
  exists walked,
    let ready :=
      filter (fun ti => Commands.isReady imageries ti = true) walked in
    rest = walked ++ r.1.2
    /\ r.1.1 = length ready
    /\ length ready <= maxTextures
    /\ forall j ti, ready !! j = Some ti ->
         Commands.FilledAt imageries alpha r.2 j ti.
Proof.
  intros r.
  destruct (packDayTextures_parallel maxTextures imageries alpha rest 0 um [])
    as (walked & Hrest & Hcount & Hmax & Hfilled); [done|done|].
  fold r in Hrest, Hcount, Hmax, Hfilled.
  simpl in Hcount. exists walked. cbv zeta. split; [done|]. split; [done|].
  split; [|done]. rewrite <- Hcount. apply Hmax. lia.
Qed.

Lemma splice_insert_at {A} (start : Z) (l1 l3 items : list A) :
  (start = Z.of_nat (length l1)
   \/ (l3 = [] /\ (Z.of_nat (length l1) <= start)%Z)) ->
  JsArray.splice start 0 items (l1 ++ l3) = ([], l1 ++ items ++ l3).
Proof.
  intros Hstart. unfold JsArray.splice. cbv zeta.
  rewrite (proj2 (Z.ltb_ge _ _)) by lia.
  rewrite length_app.
  replace (Z.to_nat (Z.min start (Z.of_nat (length l1 + length l3))))
    with (length l1)
    by (destruct Hstart as [->|[-> ?]]; simpl; lia).
  replace (Z.to_nat (Z.min (Z.max 0 0) _)) with 0 by lia.
  by rewrite Nat.add_0_r, drop_app_length, take_app_length.
Qed.

(** X15.  A layer raised above [next]: in a stack where the block of the
    layer lies before the first entry of [next], the block is spliced back
    at the index that entry had before the block was taken out, so it lands
    after that entry, and after as many further entries as the block has
    entries but one; it is not put just before the entry of [next]. *)
Theorem moveTileImageryObjects_raises_block_too_far imgs layer next
    pre block mid first post :
  next <> layer ->
  Forall (fun ti => imageryLayer (imgs (imagery ti)) <> layer
                    /\ imageryLayer (imgs (imagery ti)) <> next) pre ->
  Forall (fun ti => imageryLayer (imgs (imagery ti)) = layer) block ->
  block <> [] ->
  Forall (fun ti => imageryLayer (imgs (imagery ti)) <> layer
                    /\ imageryLayer (imgs (imagery ti)) <> next) mid ->
  imageryLayer (imgs (imagery first)) = next ->
  match post with
  | [] => True
  | ti :: _ => imageryLayer (imgs (imagery ti)) <> layer
  end ->
  Layers.moveTileImageryObjects imgs
    (pre ++ block ++ mid ++ first :: post) layer (Some next)
  = pre ++ mid ++ first :: take (length block - 1) post
      ++ block ++ drop (length block - 1) post.
Proof.
  intros Hdiff Hpre Hblock Hne Hmid Hfirst Hpost.
  assert (Hskip : forall l,
            Forall (fun ti => imageryLayer (imgs (imagery ti)) <> layer
                              /\ imageryLayer (imgs (imagery ti)) <> next) l ->
            Forall (fun ti => imageryLayer (imgs (imagery ti)) <> layer) l
            /\ Forall (fun ti => Some (imageryLayer (imgs (imagery ti)))
                                 <> Some next) l).
  { intros l Hl. split; (eapply Forall_impl; [exact Hl|]).
    - by intros ti [? _].
    - intros ti [_ Hn] [= Heq]. by apply Hn. }
  destruct (Hskip pre Hpre) as [Hpre1 Hpre2].
  destruct (Hskip mid Hmid) as [Hmid1 Hmid2].
  assert (Hscan :
    Layers.scanTileImagery imgs layer (Some next) 0
      (pre ++ block ++ mid ++ first :: post)
      {| Layers.oldTileImageryIndex := -1; Layers.newTileImageryIndex := -1;
         Layers.numTileImagery := 0 |}
    = {| Layers.oldTileImageryIndex := Z.of_nat (length pre);
         Layers.newTileImageryIndex :=
           Z.of_nat (length pre + length block + length mid);
         Layers.numTileImagery := Z.of_nat (length block) |}).
  { rewrite scan_skip; [|done|done|by left].
    rewrite scan_block; [|lia|done|].
    2:{ intros _ [= Heq]. by apply Hdiff. }
    cbn [Layers.oldTileImageryIndex Layers.newTileImageryIndex
         Layers.numTileImagery].
    rewrite (bool_decide_eq_true_2 (block <> [])) by done.
    rewrite (bool_decide_eq_true_2 (-1 = -1)%Z) by done.
    simpl andb. cbv iota.
    rewrite scan_skip; [|done|done|by left].
    rewrite scan_next; [|by rewrite Hfirst|done].
    cbn [Layers.oldTileImageryIndex Layers.newTileImageryIndex
         Layers.numTileImagery].
    assert (Hresult : forall acc,
              Layers.newTileImageryIndex acc <> (-1)%Z ->
              Layers.oldTileImageryIndex acc <> (-1)%Z ->
              forall i, Layers.scanTileImagery imgs layer (Some next) i post acc
                        = acc).
    { intros acc Hn Ho i. destruct post as [|ti post']; [done|].
      by apply scan_break. }
    rewrite Hresult by (cbn; lia). f_equal; lia. }
  unfold Layers.moveTileImageryObjects. cbv zeta. rewrite Hscan.
  cbn [Layers.oldTileImageryIndex Layers.newTileImageryIndex
       Layers.numTileImagery].
  rewrite splice_at. rewrite bool_decide_eq_false_2 by lia.
  rewrite app_nil_l.
  assert (Hlen : 1 <= length block)
    by (destruct block; [done|simpl; lia]).
  rewrite <- (take_drop (length block - 1) post) at 1.
  replace (pre ++ mid ++ first :: take (length block - 1) post
             ++ drop (length block - 1) post)
    with ((pre ++ mid ++ first :: take (length block - 1) post)
            ++ drop (length block - 1) post)
    by (by rewrite <- !app_assoc).
  rewrite splice_insert_at.
  - cbn [snd]. by rewrite <- !app_assoc.
  - rewrite !length_app. cbn [length]. rewrite length_take.
    destruct (decide (length block - 1 <= length post)) as [Hle|Hgt].
    + left. lia.
    + right. split; [apply drop_ge; lia|lia].
Qed.

Lemma moveTileImageryObjects_raises_block_too_far_witness :
  Layers.moveTileImageryObjects Layers.twoLayerImagery
    ([Layers.entryOf 0] ++ [Layers.entryOf 1] ++ [Layers.entryOf 2]
       ++ Layers.entryOf 3 :: [Layers.entryOf 4])
    1 (Some 3)
  = [Layers.entryOf 0] ++ [Layers.entryOf 2]
      ++ Layers.entryOf 3 :: take (length [Layers.entryOf 1] - 1)
                                [Layers.entryOf 4]
      ++ [Layers.entryOf 1]
      ++ drop (length [Layers.entryOf 1] - 1) [Layers.entryOf 4].
Proof.
  apply moveTileImageryObjects_raises_block_too_far;
    [lia|repeat constructor; simpl; lia|repeat constructor|done
    |repeat constructor; simpl; lia|reflexivity|simpl; lia].
Defined.

Section ProgressFacts.

Import Engine.

Variable c : Collaborators.
Variable walk : nat.

Lemma advanceImagery_READY img s :
  imagery_state (imageries s img) = READY -> advanceImagery c img s = s.
Proof.
  intros Hready. unfold advanceImagery. rewrite Hready.
  destruct (decide (READY = UNLOADED)); [done|]. rewrite Hready.
  destruct (decide (READY = RECEIVED)); [done|]. rewrite Hready.
  by destruct (decide (READY = TEXTURE_LOADED)).
Qed.

Lemma imageryBody_READY tile i s ti :
  tile_imagery (tiles s tile) !! i = Some ti ->
  imagery_state (imageries s (imagery ti)) = READY ->
  let r := imageryBody c walk tile i s in
  r.2 = Processed false true READY
  /\ imageries r.1 = imageries s
  /\ SameFlags s r.1
  /\ length (tile_imagery (tiles r.1 tile))
     = length (tile_imagery (tiles s tile))
  /\ forall j tj, j <> i ->
       tile_imagery (tiles s tile) !! j = Some tj ->
       tile_imagery (tiles r.1 tile) !! j = Some tj.
Proof.
  intros Hi Hready. cbv zeta. unfold imageryBody. rewrite Hi, Hready.
  cbn [bool_decide decide_rel andb]. simpl (bool_decide _ && _).
  rewrite (advanceImagery_READY _ _ Hready), Hready.
  simpl (isFailedOrInvalid READY). cbv iota.
  destruct (finishEntry_entry c tile i (imagery ti) s ti Hi)
    as (_ & Himgs & Hother & Hres).
  destruct (finishEntry c tile i (imagery ti) s) as [s1 r1] eqn:Hfin.
  destruct (finishEntry_spec c tile i (imagery ti) s s1 r1 Hfin)
    as (Hflags & _ & Hlen & _).
  simpl in *. rewrite Hready in Hres.
  split; [done|]. split; [done|]. split; [done|]. split; [done|].
  intros j tj Hj Hsome. by rewrite Hother.
Qed.

Lemma imageryLoop_all_READY tile : forall budget i len d seen s,
  len = length (tile_imagery (tiles s tile)) ->
  i <= len -> len - i <= budget ->
  (forall j ti, i <= j -> tile_imagery (tiles s tile) !! j = Some ti ->
     imagery_state (imageries s (imagery ti)) = READY) ->
  let r := imageryLoop c walk tile budget i len d seen s in
  loopExit r = Normal /\ loopIndex r = loopLen r /\ loopDoneLoading r = d
  /\ SameFlags s (loopSurface r).
Proof.
  induction budget as [|budget IH]; intros i len d seen s Hlen Hi Hbudget Hall.
  { simpl. split; [done|]. split; [lia|]. split; [done|apply SameFlags_refl]. }
  cbn [imageryLoop]. destruct (decide (i < len)) as [Hlt|Hge].
  2:{ simpl. split; [done|]. split; [lia|].
      split; [done|apply SameFlags_refl]. }
  destruct (lookup_lt_is_Some_2 (tile_imagery (tiles s tile)) i) as [ti Hti];
    [lia|].
  destruct (imageryBody_READY tile i s ti Hti (Hall i ti (le_n _) Hti))
    as (Hres & Himgs & Hflags & Hlen' & Hother).
  destruct (imageryBody c walk tile i s) as [s1 r1]. simpl in *. subst r1.
  destruct (IH (S i) len (d && true) (seen ++ [READY]) s1)
    as (Hexit & Hindex & Hdone & Hflags'); try lia.
  - intros j tj Hj Hsome. rewrite Himgs.
    destruct (lookup_lt_is_Some_2 (tile_imagery (tiles s tile)) j)
      as [tj' Htj'].
    { apply lookup_lt_Some in Hsome. lia. }
    pose proof (Hother j tj' ltac:(lia) Htj') as Hsame.
    rewrite Hsome in Hsame. injection Hsame as ->.
    apply (Hall j tj'); [lia|done].
  - split; [done|]. split; [done|]. split; [by rewrite Hdone, andb_true_r|].
    by apply (SameFlags_trans s s1).
Qed.

Lemma processTerrain_READY tile s :
  tile_state (tiles s tile) = TS_READY -> processTerrain c tile s = s.
Proof.
  intros Hready. unfold processTerrain. rewrite Hready.
  destruct (decide (TS_READY = TS_UNLOADED)); [done|]. rewrite Hready.
  destruct (decide (TS_READY = TS_RECEIVED)); [done|]. rewrite Hready.
  by destruct (decide (TS_READY = TS_TRANSFORMED)).
Qed.

End ProgressFacts.



(** X16.  A pass of the load pump over a tile whose terrain is READY and
    whose entries all have READY imagery, with a deadline that allows one
    check for each entry, makes the tile renderable and [doneLoading] and
    takes it out of the load queue; a tile without imagery entries needs
    READY terrain only. *)
Theorem ready_tile_completes_in_one_pass c walk tile budget s :
  tile_state (Engine.tiles s tile) = TS_READY ->
  Forall (fun ti => imagery_state (Engine.imageries s (imagery ti)) = READY)
    (tile_imagery (Engine.tiles s tile)) ->
  length (tile_imagery (Engine.tiles s tile)) <= budget ->
  let r := Engine.processTile c walk tile budget s in
  r.1.2 = true
  /\ renderable (Engine.tiles r.2 tile) = true
  /\ doneLoading (Engine.tiles r.2 tile) = true
  /\ tile ∉ Engine.loadItems (Engine._tileLoadQueue r.2).
Proof.
  intros Hterrain Hall Hbudget. cbv zeta. unfold Engine.processTile.
  rewrite (processTerrain_READY c tile s Hterrain).
  rewrite (bool_decide_eq_true_2 _ Hterrain).
  destruct (imageryLoop_all_READY c walk tile budget 0
              (length (tile_imagery (Engine.tiles s tile))) true [] s)
    as (Hexit & Hindex & Hdone & _); try (done || lia).
  { intros j ti _ Hj. rewrite Forall_lookup in Hall. by apply (Hall j). }
  rewrite (bool_decide_eq_true_2 _ Hexit), (bool_decide_eq_true_2 _ Hindex),
    Hdone.
  cbn [andb fst snd Engine.tiles Engine.setLoadQueue Engine._tileLoadQueue
       Engine.remove Engine.loadItems].
  rewrite tiles_updateTile, decide_True by done.
  split; [done|]. split; [done|]. split; [done|].
  rewrite elem_of_without. by intros [? _].
Qed.

Lemma ready_tile_completes_in_one_pass_witness :
  let r :=
    Engine.processTile Engine.eagerCollaborators 8 Engine.root0 2
      Engine.loadedSurface in
  r.1.2 = true
  /\ renderable (Engine.tiles r.2 Engine.root0) = true
  /\ doneLoading (Engine.tiles r.2 Engine.root0) = true
  /\ Engine.root0 ∉ Engine.loadItems (Engine._tileLoadQueue r.2).
Proof.
  apply (ready_tile_completes_in_one_pass Engine.eagerCollaborators 8
           Engine.root0 2 Engine.loadedSurface).
  - vm_compute. reflexivity.
  - vm_compute. repeat constructor.
  - vm_compute. lia.
Defined.

(** X17.  A selection changes no tile and no imagery: terrain states,
    flags and imagery stacks are as before, whether or not the update of
    the level of detail is suspended; loading only advances in the load
    pump. *)
Theorem selection_changes_no_tile_and_no_imagery c fuel s s' visits :
  Engine.selectTilesForRendering c fuel s = Returned (s', visits) ->
  Engine.tiles s' = Engine.tiles s /\ Engine.imageries s' = Engine.imageries s.
Proof.
  intros Hselect. destruct (Engine.suspendLodUpdate s) eqn:Hsuspend.
  - unfold Engine.selectTilesForRendering in Hselect.
    rewrite Hsuspend in Hselect. by injection Hselect as <- _.
  - destruct (selectTilesForRendering_WellSorted c fuel s s' visits Hsuspend
                Hselect) as (Htiles & Himgs & _).
    done.
Qed.

Lemma selection_changes_no_tile_and_no_imagery_witness :
  let s' :=
    match Engine.selectTilesForRendering Engine.eagerCollaborators 100
            Engine.newSurface with
    | Returned (s', _) => s'
    | _ => Engine.newSurface
    end in
  Engine.tiles s' = Engine.tiles Engine.newSurface
  /\ Engine.imageries s' = Engine.imageries Engine.newSurface.
Proof.
  destruct (Engine.selectTilesForRendering Engine.eagerCollaborators 100
              Engine.newSurface) as [[s' visits]| |] eqn:Hselect;
    [|by vm_compute in Hselect..].
  exact (selection_changes_no_tile_and_no_imagery Engine.eagerCollaborators
           100 Engine.newSurface s' visits Hselect).
Defined.

Lemma findInTileSet_head contains tileSet :
  Engine.findInTileSet contains tileSet
  = head (filter (fun t => contains t = true) tileSet).
Proof.
  induction tileSet as [|tile tileSet IH]; [done|].
  simpl. rewrite filter_cons.
  destruct (contains tile); [by rewrite decide_True|].
  by rewrite decide_False.
Qed.

(** X18.  [debugShowBoundingSphereOfTileAt] picks the first tile, in the
    order of the render lists, whose extent contains the position, and no
    tile when none of the tiles selected for rendering contains it; it
    always clears the vertex array of the sphere. *)
Theorem debugShowBoundingSphereOfTileAt_picks_first_rendered_tile contains s :
  Engine.debugShowBoundingSphereOfTileAt contains s
  = (head (filter (fun t => contains t = true) (Engine.renderedTiles s)),
     None).
Proof.
  unfold Engine.debugShowBoundingSphereOfTileAt, Engine.renderedTiles.
  f_equal.
  induction (Engine._tilesToRenderByTextureCount s) as [|tileSet lists IH];
    [done|].
  rewrite bind_cons, filter_app. destruct tileSet as [tileSet|]; simpl.
  - rewrite findInTileSet_head.
    destruct (filter _ tileSet) as [|t l]; [exact IH|done].
  - exact IH.
Qed.

Section BreadthFirst.

Import Engine.

Variable c : Collaborators.
Hypothesis children_deeper :
  forall t child, child ∈ getChildren c t -> level child = S (level t).

Local Abbreviation shallower := (fun a b : TileId => level a <= level b).

(** The tiles dequeued so far and the queue, in this order, are sorted by
    level, and the queue spans at most two levels. *)
Local Abbreviation Bfs visited queue :=
  (StronglySorted shallower (visited ++ queue)
   /\ forall first a, head queue%list = Some first -> a ∈ queue%list ->
        level a <= S (level first)).

Lemma StronglySorted_same_level (l : list TileId) n :
  (forall t, t ∈ l -> level t = n) -> StronglySorted shallower l.
Proof.
  induction l as [|t l IH]; intros Hall; [constructor|].
  constructor.
  - apply IH. intros t' Hin. apply Hall. by right.
  - apply Forall_forall. intros t' Hin.
    rewrite (Hall t), (Hall t'); [done|by right|by left].
Qed.

Lemma Bfs_step visited tile queue extra :
  Bfs visited (tile :: queue) ->
  (forall child, child ∈ extra -> level child = S (level tile)) ->
  Bfs (visited ++ [tile]) (queue ++ extra).
Proof.
  intros [Hsorted Hspan] Hextra.
  pose proof Hsorted as Hall.
  apply StronglySorted_app in Hall as (Hcross & _ & Hqueue).
  apply StronglySorted_cons in Hqueue as [Hhead _].
  rewrite Forall_forall in Hhead.
  assert (Hold : forall a, a ∈ visited ++ tile :: queue ->
            level a <= S (level tile)).
  { intros a [Hin|Hin]%elem_of_app.
    - specialize (Hcross a tile Hin). simpl in Hcross.
      etrans; [apply Hcross; by left|lia].
    - by apply (Hspan tile). }
  split.
  - replace ((visited ++ [tile]) ++ queue ++ extra)
      with ((visited ++ tile :: queue) ++ extra)
      by (by rewrite <- !app_assoc).
    apply StronglySorted_app_2; [|done|].
    + intros a child Ha Hchild. simpl. rewrite (Hextra child Hchild).
      by apply Hold.
    + by apply (StronglySorted_same_level extra (S (level tile))).
  - intros first a Hfirst Ha. destruct queue as [|next queue'].
    + simpl in *. apply head_Some_elem_of in Hfirst.
      rewrite (Hextra first Hfirst), (Hextra a Ha). lia.
    + simpl in Hfirst. injection Hfirst as <-.
      assert (level tile <= level next) by (apply Hhead; by left).
      apply elem_of_app in Ha as [Ha|Ha].
      * etrans; [apply (Hspan tile a); [done|by right]|lia].
      * rewrite (Hextra a Ha). lia.
Qed.

Lemma visitTile_children tile s action s1 :
  visitTile c tile s = (action, s1) ->
  exists extra,
    _tileTraversalQueue s1 = _tileTraversalQueue s ++ extra
    /\ forall child, child ∈ extra -> child ∈ getChildren c tile.
Proof.
  unfold visitTile.
  assert (Hnone : forall s2,
            _tileTraversalQueue s2 = _tileTraversalQueue s ->
            exists extra,
              _tileTraversalQueue (addTileToRenderList tile s2)
              = _tileTraversalQueue s ++ extra
              /\ forall child, child ∈ extra -> child ∈ getChildren c tile).
  { intros s2 Hq. exists []. split; [by rewrite app_nil_r|].
    intros child Hin. by apply elem_of_nil in Hin. }
  destruct (Qlt_le_dec _ _).
  { intros [= _ <-]. by apply Hnone. }
  unfold queueChildrenLoadAndDetermineIfChildrenAreAllRenderable.
  destruct (decide (level tile = maxLevel c)).
  { intros [= _ <-]. by apply Hnone. }
  match goal with
  | |- context [queueChildren ?l true ?s0] =>
      destruct (queueChildren_spec l true s0) as (_ & _ & Hqueue & _);
      destruct (queueChildren l true s0) as [allRenderable s2]
  end.
  simpl in Hqueue. destruct allRenderable; intros [= _ <-].
  - eexists. split; [cbn; by rewrite Hqueue|].
    by intros child [_ Hin]%list_elem_of_filter.
  - by apply Hnone.
Qed.

Lemma traverse_breadth_first : forall fuel s visits s' visits',
  traverse c fuel s visits = Returned (s', visits') ->
  Bfs visits.*1 (_tileTraversalQueue s) ->
  StronglySorted shallower visits'.*1.
Proof.
  induction fuel as [|fuel IH]; intros s visits s' visits'; simpl.
  - destruct (_tileTraversalQueue s); [|done].
    intros [= _ <-] [Hsorted _]. by rewrite app_nil_r in Hsorted.
  - destruct (_tileTraversalQueue s) as [|tile queue] eqn:Hq.
    { intros [= _ <-] [Hsorted _]. by rewrite app_nil_r in Hsorted. }
    destruct (visitTile c tile (setTraversalQueue queue s))
      as [action s1] eqn:Hvisit.
    intros Htraverse Hbfs.
    destruct (visitTile_children _ _ _ _ Hvisit) as (extra & Hqueue & Hextra).
    apply (IH _ _ _ _ Htraverse).
    rewrite Hqueue, fmap_app. cbn [fmap list_fmap fst _tileTraversalQueue
                                   setTraversalQueue].
    apply Bfs_step; [done|].
    intros child Hin. by apply children_deeper, Hextra.
Qed.

End BreadthFirst.

(** X19.  The traversal is breadth-first: when the level zero tiles have
    level 0 and the children of a tile are one level deeper, the tiles are
    dequeued in the order of their levels, a tile never before a tile of a
    lower level. *)
Theorem traversal_is_breadth_first c fuel s s' visits :
  (forall r, r ∈ default [] (Engine._levelZeroTiles s) -> level r = 0) ->
  (forall t child, child ∈ Engine.getChildren c t ->
     level child = S (level t)) ->
  Engine.selectTilesForRendering c fuel s = Returned (s', visits) ->
  StronglySorted (fun a b : TileId => level a <= level b) visits.*1.
Proof.
  intros Hroots Hchildren. unfold Engine.selectTilesForRendering.
  destruct (Engine.suspendLodUpdate s).
  { intros [= _ <-]. constructor. }
  cbn [Engine._levelZeroTiles Engine.setRenderLists].
  destruct (Engine._levelZeroTiles s) as [roots|].
  2:{ intros [= _ <-]. constructor. }
  intros Htraverse.
  apply (traverse_breadth_first c Hchildren _ _ _ _ _ Htraverse).
  match goal with
  | |- context [Engine.enqueueRoots c roots ?s1] =>
      destruct (enqueueRoots_spec c roots s1) as (_ & Hqueue & _)
  end.
  rewrite Hqueue. cbn [fmap list_fmap app Engine._tileTraversalQueue
                       Engine.setTraversalQueue Engine.setLoadQueue
                       Engine.setReplacementQueue].
  assert (Hzero : forall t,
            t ∈ filter
                  (fun t => renderable (Engine.tiles s t)
                            && Engine.isTileVisible c t = true) roots ->
            level t = 0).
  { intros t [_ Hin]%list_elem_of_filter. by apply Hroots. }
  split.
  - by apply (StronglySorted_same_level _ 0).
  - intros first a _ Ha. rewrite (Hzero a Ha). lia.
Qed.

Lemma traversal_is_breadth_first_witness :
  let visits :=
    match Engine.selectTilesForRendering Engine.eagerCollaborators 100
            Engine.loadedSurface with
    | Returned (_, visits) => visits
    | _ => []
    end in
  length visits = 10
  /\ StronglySorted (fun a b : TileId => level a <= level b) visits.*1.
Proof.
  destruct (Engine.selectTilesForRendering Engine.eagerCollaborators 100
              Engine.loadedSurface) as [[s' visits]| |] eqn:Hselect;
    [|by vm_compute in Hselect..].
  intros visits'. subst visits'. split.
  { vm_compute in Hselect. by injection Hselect as _ <-. }
  apply (traversal_is_breadth_first Engine.eagerCollaborators 100
           Engine.loadedSurface s' visits); [| |exact Hselect].
  - assert (Hroots : default [] (Engine._levelZeroTiles Engine.loadedSurface)
                     = [Engine.root0; Engine.root1])
      by (vm_compute; reflexivity).
    rewrite Hroots. intros r Hr. rewrite !elem_of_cons, elem_of_nil in Hr.
    destruct Hr as [->|[->|[]]]; reflexivity.
  - intros t child Hin. cbn in Hin. unfold Engine.quadChildren in Hin.
    rewrite !elem_of_cons, elem_of_nil in Hin.
    destruct Hin as [->|[->|[->|[->|[]]]]]; reflexivity.
Defined.

Section DrawFacts.

Import Commands.

Variable maxTextures : nat.
Variable tiles : TileStore.
Variable imageries : ImageryStore.
Variable center : TileId -> Handle.
Variable alpha : LayerId -> Handle.
Variable getShaderProgram : nat -> Handle.
Variable sortByDistance : list TileId -> list TileId.
Hypothesis maxTextures_pos : 0 < maxTextures.

(** One pass of the batch loop pushes one command, with the shader program
    of the set and the vertex array of the tile, and writes no other
    command. *)
Lemma emitBatch_command shader tile rest idx r idx' rest' r' :
  emitBatch maxTextures tiles imageries center alpha shader tile rest idx r
  = Returned (idx', rest', r') ->
  exists c,
    colorCommandList r' = colorCommandList r ++ [c]
    /\ shaderProgram (commands r' c) = Some shader
    /\ command_vertexArray (commands r' c) = Some (vertexArray (tiles tile))
    /\ forall c0, c0 <> c -> commands r' c0 = commands r c0.
Proof.
  unfold emitBatch. cbv zeta.
  destruct (acquireCommand (Z.to_nat (idx + 1)) r) as [c r1] eqn:Hacq.
  assert (Hframe : colorCommandList r1 = colorCommandList r
                   /\ forall c0, c0 <> c -> commands r1 c0 = commands r c0).
  { unfold acquireCommand in Hacq.
    destruct (JsArray.get _ (_tileCommands r)).
    - by injection Hacq as <- <-.
    - injection Hacq as <- <-. split; [done|]. intros c0 Hc0. cbn.
      by rewrite fn_lookup_insert_ne. }
  destruct Hframe as [Hlist Hother].
  destruct (JsArray.get _ (_tileCommandUniformMaps r1)) as [um|]; [|done].
  destruct (packDayTextures _ _ _ _ _ _) as [[n rest0] m].
  intros [= _ _ <-]. exists c. cbn.
  rewrite Hlist, fn_lookup_insert. repeat split; try done.
  intros c0 Hc0. rewrite fn_lookup_insert_ne by done. by apply Hother.
Qed.

Lemma Forall2_impl_elem {A B} (P Q : A -> B -> Prop) l k :
  Forall2 P l k ->
  (forall a b, a ∈ l -> P a b -> Q a b) ->
  Forall2 Q l k.
Proof.
  induction 1 as [|a b l k HP _ IH]; intros Himpl; constructor.
  - apply Himpl; [by left|done].
  - apply IH. intros a' b' Hin. apply Himpl. by right.
Qed.

Lemma Drawn_emitBatch shader tile rest walked remaining r0 r k segs owners :
  Emitted imageries r0 r k segs ->
  Drawn tiles r0 r owners ->
  takeBatch imageries maxTextures 0 rest = (walked, remaining) ->
  exists r',
    emitBatch maxTextures tiles imageries center alpha shader tile rest
      (Z.of_nat k - 1) r
    = Returned ((Z.of_nat (S k) - 1)%Z, remaining, r')
    /\ Emitted imageries r0 r' (S k) (segs ++ [walked])
    /\ Drawn tiles r0 r' (owners ++ [(shader, tile)]).
Proof.
  intros Hem (news & Hnews & Hdrawn) Htake.
  destruct (emitBatch_spec maxTextures tiles imageries center alpha
              maxTextures_pos shader tile rest walked remaining r0 r k segs
              Hem Htake) as (r' & Hrun & Hem' & _).
  exists r'. split; [exact Hrun|]. split; [exact Hem'|].
  destruct (emitBatch_command _ _ _ _ _ _ _ _ Hrun)
    as (c & Hlist & Hshader & Hva & Hother).
  exists (news ++ [c]). split; [by rewrite Hlist, Hnews, app_assoc|].
  assert (Hfresh : c ∉ news).
  { destruct Hem' as (cs & us & Hpools & _ & _ & Hlist' & _).
    destruct Hpools as (_ & _ & Hnodup & _).
    rewrite Hlist, Hnews, <- app_assoc in Hlist'.
    apply app_inv_head in Hlist'.
    assert (Hnd : NoDup (news ++ [c])).
    { rewrite Hlist'. rewrite <- (take_drop (S k) cs) in Hnodup.
      by apply NoDup_app in Hnodup as (Hnd & _). }
    apply NoDup_app in Hnd as (_ & Hdisjoint & _).
    intros Hin. apply (Hdisjoint c Hin). by left. }
  apply Forall2_app.
  - eapply Forall2_impl_elem; [exact Hdrawn|].
    intros c0 owner Hc0 [H1 H2].
    rewrite Hother by (intros ->; done). done.
  - by repeat constructor.
Qed.

Lemma batchLoop_drawn shader tile r0 fuel : forall rest r k segs owners,
  length rest < fuel ->
  Emitted imageries r0 r k segs ->
  Drawn tiles r0 r owners ->
  let batches := segments imageries maxTextures fuel rest in
  exists r',
    batchLoop maxTextures tiles imageries center alpha fuel shader tile rest
      (Z.of_nat k - 1) r
    = Returned ((Z.of_nat (k + length batches) - 1)%Z, r')
    /\ Emitted imageries r0 r' (k + length batches) (segs ++ batches)
    /\ Drawn tiles r0 r'
         (owners ++ replicate (length batches) (shader, tile)).
Proof.
  induction fuel as [|fuel IH]; intros rest r k segs owners Hfuel Hem Hdrawn;
    [lia|].
  simpl. destruct (takeBatch imageries maxTextures 0 rest)
    as [walked remaining] eqn:Htake.
  destruct (Drawn_emitBatch shader tile _ _ _ _ _ _ _ _ Hem Hdrawn Htake)
    as (r1 & -> & Hem1 & Hdrawn1).
  destruct remaining as [|ti remaining].
  - exists r1. simpl. replace (k + 1) with (S k) by lia. eauto.
  - assert (Hlen : length (ti :: remaining) < fuel).
    { destruct rest as [|a rest]; [done|].
      pose proof (takeBatch_progress _ _ maxTextures_pos _ _ _ _ Htake).
      simpl in *. lia. }
    destruct (IH _ _ _ _ _ Hlen Hem1 Hdrawn1) as (r' & Hloop & Hem' & Hdrawn').
    exists r'. cbn zeta in Hloop, Hem', Hdrawn'. simpl length.
    replace (k + S (length (segments imageries maxTextures fuel (ti :: remaining))))
      with (S k + length (segments imageries maxTextures fuel (ti :: remaining)))
      by lia.
    split; [exact Hloop|]. split; [by rewrite <-app_assoc in Hem'|].
    by rewrite <-app_assoc in Hdrawn'.
Qed.

Local Abbreviation tileSegments :=
  (Commands.tileSegments tiles imageries maxTextures).

Local Abbreviation tileOwners shader :=
  (fun tile =>
     replicate (commandCount imageries maxTextures (tile_imagery (tiles tile)))
       (shader, tile)).

Lemma renderTiles_drawn shader r0 tileSet : forall r k segs owners,
  Emitted imageries r0 r k segs ->
  Drawn tiles r0 r owners ->
  let batches := tileSet ≫= tileSegments in
  exists r',
    renderTiles maxTextures tiles imageries center alpha shader tileSet
      (Z.of_nat k - 1) r
    = Returned ((Z.of_nat (k + length batches) - 1)%Z, r')
    /\ Emitted imageries r0 r' (k + length batches) (segs ++ batches)
    /\ Drawn tiles r0 r' (owners ++ (tileSet ≫= tileOwners shader)).
Proof.
  induction tileSet as [|tile tileSet IH]; intros r k segs owners Hem Hdrawn;
    simpl.
  - exists r. rewrite Nat.add_0_r, !app_nil_r. done.
  - unfold renderTile.
    destruct (batchLoop_drawn shader tile r0 _ (tile_imagery (tiles tile))
                _ _ _ _ (Nat.lt_succ_diag_r _) Hem Hdrawn)
      as (r1 & -> & Hem1 & Hdrawn1).
    cbn zeta in Hem1, Hdrawn1.
    rewrite segments_length in Hdrawn1 by (done || lia).
    destruct (IH _ _ _ _ Hem1 Hdrawn1) as (r' & -> & Hem' & Hdrawn').
    exists r'. cbn zeta in Hem'. rewrite length_app.
    fold (Commands.tileSegments tiles imageries maxTextures tile).
    rewrite Nat.add_assoc.
    split; [done|]. split; [by rewrite app_assoc|].
    by rewrite app_assoc.
Qed.

Lemma renderTileSets_drawn r0 tileSets : forall tileSetIndex r k segs owners,
  Emitted imageries r0 r k segs ->
  Drawn tiles r0 r owners ->
  let batches := renderOrder sortByDistance tileSets ≫= tileSegments in
  exists r',
    renderTileSets maxTextures tiles imageries center alpha getShaderProgram
      sortByDistance tileSetIndex tileSets (Z.of_nat k - 1) r
    = Returned ((Z.of_nat (k + length batches) - 1)%Z, r')
    /\ Emitted imageries r0 r' (k + length batches) (segs ++ batches)
    /\ Drawn tiles r0 r'
         (owners ++ batchOwners tiles imageries maxTextures getShaderProgram
                      sortByDistance tileSetIndex tileSets).
Proof.
  induction tileSets as [|tileSet tileSets IH];
    intros tileSetIndex r k segs owners Hem Hdrawn.
  - exists r. simpl. rewrite Nat.add_0_r, !app_nil_r. done.
  - unfold renderOrder. rewrite bind_cons.
    fold (renderOrder sortByDistance tileSets).
    simpl renderTileSets. simpl batchOwners.
    destruct tileSet as [[|tile tileSet]|].
    + simpl. by apply IH.
    + destruct (renderTiles_drawn (getShaderProgram tileSetIndex) r0
                  (sortByDistance (tile :: tileSet)) _ _ _ _ Hem Hdrawn)
        as (r1 & -> & Hem1 & Hdrawn1).
      destruct (IH (S tileSetIndex) _ _ _ _ Hem1 Hdrawn1)
        as (r' & -> & Hem' & Hdrawn').
      exists r'. cbn zeta in Hem'. rewrite bind_app, length_app, Nat.add_assoc.
      split; [done|]. split; [by rewrite app_assoc|].
      by rewrite app_assoc.
    + simpl. by apply IH.
Qed.

Lemma Drawn_start r : Drawn tiles r r [].
Proof. exists []. split; [by rewrite app_nil_r|constructor]. Qed.

End DrawFacts.

(** X20. Every command that [createRenderCommandsForSelectedTiles] pushes
    has the shader program of the tile set that its tile is in, the program
    that [getShaderProgram] gives for the index of the set, and the vertex
    array of that tile: the commands pushed are, in order, those of the
    tiles of each sorted set, as many for a tile as the batch loop emits
    for its imagery stack. *)
Theorem createRenderCommands_draws_each_tile_with_the_shader_of_its_set
    (maxTextures : nat) (tiles : TileStore) (imageries : ImageryStore)
    (center : TileId -> Handle) (alpha : LayerId -> Handle)
    (getShaderProgram : nat -> Handle)
    (sortByDistance : list TileId -> list TileId)
    (tileSets : list (option (list TileId))) (r : Commands.Renderer) :
  0 < maxTextures ->
  Commands.WellFormed r ->
  exists r',
    Commands.createRenderCommandsForSelectedTiles maxTextures tiles
      imageries center alpha getShaderProgram sortByDistance tileSets r
    = Returned r'
    /\ Commands.Drawn tiles r r'
         (Commands.batchOwners tiles imageries maxTextures getShaderProgram
            sortByDistance 0 tileSets).
Proof.
  intros Hpos Hwf.
  pose proof (Emitted_start maxTextures imageries Hpos r Hwf) as Hem.
  destruct (renderTileSets_drawn maxTextures tiles imageries center alpha
              getShaderProgram sortByDistance Hpos r tileSets 0 r 0 [] []
              Hem (Drawn_start tiles r))
    as (r1 & Hrun & _ & Hdrawn).
  cbn zeta in Hrun. simpl in Hrun, Hdrawn.
  unfold Commands.createRenderCommandsForSelectedTiles.
  change (-1)%Z with (Z.of_nat 0 - 1)%Z. rewrite Hrun.
  eexists. split; [reflexivity|]. exact Hdrawn.
Qed.

Lemma createRenderCommands_draws_each_tile_with_the_shader_of_its_set_witness :
  exists r',
    Commands.createRenderCommandsForSelectedTiles 2
      (Commands.sampleTiles
         [Commands.sampleEntry 0; Commands.sampleEntry 1;
          Commands.sampleEntry 2])
      Commands.sampleImageries (fun _ => 0) (fun _ => 0) (fun n => n)
      (fun tileSet => tileSet)
      [None; Some []; Some [mkTileId 0 0 0; mkTileId 0 1 0]] staleRenderer
    = Returned r'
    /\ Commands.Drawn
         (Commands.sampleTiles
            [Commands.sampleEntry 0; Commands.sampleEntry 1;
             Commands.sampleEntry 2])
         staleRenderer r'
         (Commands.batchOwners
            (Commands.sampleTiles
               [Commands.sampleEntry 0; Commands.sampleEntry 1;
                Commands.sampleEntry 2])
            Commands.sampleImageries 2 (fun n => n) (fun tileSet => tileSet)
            0 [None; Some []; Some [mkTileId 0 0 0; mkTileId 0 1 0]]).
Proof.
  apply (createRenderCommands_draws_each_tile_with_the_shader_of_its_set 2
           (Commands.sampleTiles
              [Commands.sampleEntry 0; Commands.sampleEntry 1;
               Commands.sampleEntry 2])
           Commands.sampleImageries (fun _ => 0) (fun _ => 0) (fun n => n)
           (fun tileSet => tileSet)
           [None; Some []; Some [mkTileId 0 0 0; mkTileId 0 1 0]]
           staleRenderer);
    [lia|apply WellFormed_staleRenderer].
Defined.
